(** * Compliance-Helper: ingestion and hybrid retrieval

    A shallow embedding of [utils/ingest.py], [utils/retriever.py] and
    [utils/response_formatter.py] together with the properties stated
    for them.

    Conventions of the embedding

    - a Python [str] is a list of code points ([N]); [len] is [length];
    - a Python [int] that is subtracted from or compared with a possibly
      negative value is a [Z]; counts obtained from [len] are [nat];
    - a Python [float] score is an exact rational ([Q]): NaN and the
      rounding of [sc/100.0] are outside the model;
    - a function that can raise returns an [outcome]; a [while] loop is a
      fixpoint on a fuel argument and reports [Timeout] when it runs dry. *)

From Stdlib Require Import ZArith QArith Ascii String Lia Bool Arith.
From Stdlib Require DecimalString DecimalZ DecimalPos.
From stdpp Require Import base tactics option list list_numbers gmap sorting.

Local Open Scope Z_scope.
Local Open Scope list_scope.

(** ** Outcomes of fallible computations *)

Inductive exn : Type :=
  | ValueError
  | RuntimeError
  | IndexError.

Inductive outcome (A : Type) : Type :=
  | Done (a : A)
  | Raise (e : exn)
  | Timeout.

Arguments Done {A} a.
Arguments Raise {A} e.
Arguments Timeout {A}.

#[global] Instance outcome_bind : MBind outcome := fun A B f m =>
  match m with
  | Done a => f a
  | Raise e => Raise e
  | Timeout => Timeout
  end.

(** ** Python strings *)

Module PyStr.

Abbreviation char := N (only parsing).
Abbreviation str := (list N) (only parsing).

(** An ASCII literal as a Python string. *)
Definition lit (s : string) : str :=
  map N_of_ascii (list_ascii_of_string s).

Definition SPACE : char := 32%N.
Definition NEWLINE : char := 10%N.

(** [str.isspace] on one character, which is also what [\s] matches in a
    [str] pattern and what [str.strip] and [str.split] remove. *)
Definition isspace (c : char) : bool :=
  ((9 <=? c) && (c <=? 13) || (28 <=? c) && (c <=? 32)
   || (c =? 133) || (c =? 160) || (c =? 5760)
   || (8192 <=? c) && (c <=? 8202)
   || (c =? 8232) || (c =? 8233) || (c =? 8239) || (c =? 8287)
   || (c =? 12288))%N.

(** The line boundaries of [str.splitlines]. *)
Definition islinebreak (c : char) : bool :=
  ((10 <=? c) && (c <=? 13) || (28 <=? c) && (c <=? 30)
   || (c =? 133) || (c =? 8232) || (c =? 8233))%N.

Fixpoint lstrip (s : str) : str :=
  match s with
  | c :: s' => if isspace c then lstrip s' else s
  | [] => []
  end.

Definition rstrip (s : str) : str := reverse (lstrip (reverse s)).

Definition strip (s : str) : str := rstrip (lstrip s).

(** [sep.join(parts)] *)
Fixpoint join (sep : str) (parts : list str) : str :=
  match parts with
  | [] => []
  | [p] => p
  | p :: rest => p ++ sep ++ join sep rest
  end.

(** [s.split()]: the maximal runs of non-whitespace characters.
    [cur] is the run being read, reversed. *)
Fixpoint split_go (cur : str) (s : str) : list str :=
  match s with
  | [] => if cur is [] then [] else [reverse cur]
  | c :: s' =>
      if isspace c
      then (if cur is [] then split_go [] s' else reverse cur :: split_go [] s')
      else split_go (c :: cur) s'
  end.

Definition split (s : str) : list str := split_go [] s.

(** [s.splitlines()]: [\r\n] counts as one boundary and no empty string
    is produced after a final boundary. *)
Fixpoint splitlines_go (cur : str) (s : str) : list str :=
  match s with
  | [] => if cur is [] then [] else [reverse cur]
  | c :: s' =>
      if islinebreak c
      then reverse cur ::
           match s' with
           | d :: s'' => if ((c =? 13) && (d =? 10))%N
                         then splitlines_go [] s''
                         else splitlines_go [] s'
           | [] => []
           end
      else splitlines_go (c :: cur) s'
  end.

Definition splitlines (s : str) : list str := splitlines_go [] s.

(** [needle in hay], which is also whether [re.escape(needle)] is found
    by [search] in [hay]. *)
Fixpoint starts_with (needle hay : str) : bool :=
  match needle, hay with
  | [], _ => true
  | a :: n', b :: h' => (a =? b)%N && starts_with n' h'
  | _ :: _, [] => false
  end.

Fixpoint contains (needle hay : str) : bool :=
  starts_with needle hay ||
  match hay with
  | [] => false
  | _ :: h' => contains needle h'
  end.

End PyStr.

(** ** Sentence segmenter ([ingest.py], [_split_into_sentences]) *)

Module Segmenter.
Import PyStr.

(** [re.sub(r'\s+', ' ', text)]: every maximal run of whitespace becomes
    one space. [in_ws] tells that the previous character was whitespace. *)
Fixpoint collapse_ws (in_ws : bool) (s : str) : str :=
  match s with
  | [] => []
  | c :: s' =>
      if isspace c
      then (if in_ws then collapse_ws true s' else SPACE :: collapse_ws true s')
      else c :: collapse_ws false s'
  end.

Definition sub_ws (s : str) : str := collapse_ws false s.

(** The class [[.!?]] of the lookbehind. *)
Definition is_terminal (c : char) : bool :=
  ((c =? 46) || (c =? 33) || (c =? 63))%N.

(** The class of the lookahead: [A-Z], [0-9], the double and the single
    quote. *)
Definition is_sentence_start (c : char) : bool :=
  ((65 <=? c) && (c <=? 90) || (48 <=? c) && (c <=? 57)
   || (c =? 34) || (c =? 39))%N.

(** The lookahead fails at the end of the text. *)
Definition ahead_start (next : option char) : bool :=
  from_option is_sentence_start false next.

(** The fallback pattern has no lookahead. *)
Definition ahead_any (next : option char) : bool := true.

(** Length of the run of whitespace at the head of [s]. *)
Fixpoint ws_run (s : str) : nat :=
  match s with
  | c :: s' => if isspace c then S (ws_run s') else O
  | [] => O
  end.

(** One attempt of [(?<=[.!?])\s+(?=...)] at a position: [prev] is the
    character before it and [s] the text from it on. [\s+] is greedy and
    backtracks, so the lengths are tried from the whole run down to 1. *)
Definition match_here (ahead : option char -> bool) (prev : option char)
    (s : str) : option nat :=
  if from_option is_terminal false prev
  then List.find (fun m => ahead (s !! m)) (reverse (seq 1 (ws_run s)))
  else None.

(** [pattern.split(t)]: the text between successive matches, found from
    left to right. [skip] counts the characters of the current match that
    are still to be passed over, [cur] is the piece being read, reversed. *)
Fixpoint re_split_go (ahead : option char -> bool) (prev : option char)
    (skip : nat) (cur : str) (s : str) : list str :=
  match s with
  | [] => [reverse cur]
  | c :: s' =>
      match skip with
      | S k => re_split_go ahead (Some c) k cur s'
      | O =>
          match match_here ahead prev s with
          | Some (S m) => reverse cur :: re_split_go ahead (Some c) m [] s'
          | _ => re_split_go ahead (Some c) O (c :: cur) s'
          end
      end
  end.

Definition re_split (ahead : option char -> bool) (t : str) : list str :=
  re_split_go ahead None O [] t.

(** [[p.strip() for p in parts if p.strip()]] *)
Definition trim_nonempty (parts : list str) : list str :=
  strip <$> filter (fun p => strip p <> []) parts.

Definition _split_into_sentences (text : str) : list str :=
  match text with
  | [] => []
  | _ =>
      let t := strip (sub_ws text) in
      let parts := re_split ahead_start t in
      let parts := if (length parts =? 1)%nat then re_split ahead_any t else parts in
      trim_nonempty parts
  end.

(** *** The rule in the words of the specification *)

(** Position [i] of [t] is a boundary when it holds whitespace, the
    character before it is one of [. ! ?] and what follows satisfies
    [next_ok]. *)
Definition boundary (next_ok : option char -> bool) (t : str) (i : nat) : bool :=
  match i with
  | O => false
  | S p =>
      from_option is_terminal false (t !! p)
      && from_option isspace false (t !! i)
      && next_ok (t !! S i)
  end.

(** The pieces of [s] between the positions selected by [b]; the selected
    characters themselves are dropped. [i] is the position of the head of
    [s] in the whole text. *)
Fixpoint cut_go (b : nat -> bool) (i : nat) (cur : str) (s : str) : list str :=
  match s with
  | [] => [reverse cur]
  | c :: s' =>
      if b i then reverse cur :: cut_go b (S i) [] s'
      else cut_go b (S i) (c :: cur) s'
  end.

Definition cut_at (b : nat -> bool) (t : str) : list str := cut_go b O [] t.

(** No two adjacent whitespace characters. *)
Fixpoint single_spaced (t : str) : Prop :=
  match t with
  | a :: (b :: _) as t' => ~ (isspace a = true /\ isspace b = true) /\ single_spaced t'
  | _ => True
  end.

End Segmenter.


(** ** Python lists and defaults *)

Module Py.

(** [l[i]]: a negative index counts from the end, an index out of range
    raises [IndexError]. *)
Definition getitem {A} (l : list A) (i : Z) : outcome A :=
  let n := Z.of_nat (length l) in
  let i' := if i <? 0 then i + n else i in
  if (0 <=? i') && (i' <? n)
  then match l !! Z.to_nat i' with
       | Some x => Done x
       | None => Raise IndexError
       end
  else Raise IndexError.

(** [l[a:b]] for [0 <= a] and [0 <= b]. *)
Definition slice {A} (l : list A) (a b : nat) : list A :=
  take (b - a)%nat (drop a l).

(** [l[:b]]: a negative [b] counts from the end. *)
Definition prefix {A} (l : list A) (b : Z) : list A :=
  if b <? 0 then take (Z.to_nat (Z.of_nat (length l) + b)) l
  else take (Z.to_nat b) l.

(** [x or d] for an optional integer argument: [None] and [0] are falsy. *)
Definition or_default (x : option Z) (d : Z) : Z :=
  match x with
  | Some v => if v =? 0 then d else v
  | None => d
  end.

(** [range(0, stop, step)] for [step > 0]. *)
Definition range_step (stop step : nat) : list nat :=
  (fun q => q * step)%nat <$> seq 0 ((stop + step - 1) / step)%nat.

(** [enumerate(l)] *)
Definition enumerate {A} (l : list A) : list (nat * A) :=
  imap (fun i x => (i, x)) l.

End Py.

(** ** Chunker ([ingest.py], [_count_tokens] and [chunk_text]) *)

Module Chunker.
Import PyStr.

(** The part of [config/config.py] read by the chunker. *)
Record Config : Type := {
  CHUNK_SIZE : Z;
  CHUNK_OVERLAP : Z
}.

Section Chunker.

Variable config : Config.

(** The module-level [TOKEN_ENCODER]: [None] when tiktoken is missing,
    otherwise its [encode], which gives the token ids or raises. *)
Variable TOKEN_ENCODER : option (str -> option (list N)).

Definition _count_tokens (text : str) : Z :=
  let words := Z.of_nat (length (split text)) in
  match TOKEN_ENCODER with
  | Some encode =>
      match encode text with
      | Some ids => Z.of_nat (length ids)
      | None => words
      end
  | None => words
  end.

(** Lines 197-200: sentences are taken from [j] on until the budget is
    reached or the sentences are used up. *)
Fixpoint accumulate (fuel : nat) (sentences : list str) (sent_tokens : list Z)
    (chunk_size : Z) (j token_acc : Z) (chunk_sentences : list str)
    : outcome (Z * Z * list str) :=
  if (j <? Z.of_nat (length sentences)) && (token_acc <? chunk_size) then
    match fuel with
    | O => Timeout
    | S fuel' =>
        s ← Py.getitem sentences j;
        t ← Py.getitem sent_tokens j;
        accumulate fuel' sentences sent_tokens chunk_size
                   (j + 1) (token_acc + t) (chunk_sentences ++ [s])
    end
  else Done (j, token_acc, chunk_sentences).

(** Lines 214-221: the walk back from [j] that collects the overlap; it
    gives the final [k]. *)
Fixpoint walk_back (fuel : nat) (sent_tokens : list Z) (overlap i j : Z)
    (k ov_acc : Z) : outcome Z :=
  if (0 <=? j - 1 - k) && (ov_acc <? overlap) then
    match fuel with
    | O => Timeout
    | S fuel' =>
        t ← Py.getitem sent_tokens (j - 1 - k);
        let ov_acc := ov_acc + t in
        let k := k + 1 in
        if j - k <=? i then Done k
        else walk_back fuel' sent_tokens overlap i j k ov_acc
    end
  else Done k.

(** Lines 211-222. *)
Definition next_start (sent_tokens : list Z) (overlap i j : Z) : outcome Z :=
  if overlap <=? 0 then Done j
  else
    k ← walk_back (length sent_tokens) sent_tokens overlap i j 0 0;
    Done (Z.max (i + 1) (j - k)).

(** Lines 193-223. [spans] is ghost state, absent from the source: the
    pair [(i, j)] of every iteration, in order. *)
Fixpoint chunk_loop (fuel : nat) (sentences : list str) (sent_tokens : list Z)
    (chunk_size overlap : Z) (i : Z) (chunks : list str) (spans : list (Z * Z))
    : outcome (list str * list (Z * Z)) :=
  if i <? Z.of_nat (length sentences) then
    match fuel with
    | O => Timeout
    | S fuel' =>
        '(j, _, chunk_sentences) ←
          accumulate (length sentences) sentences sent_tokens chunk_size i 0 [];
        let chunk_text := strip (join [SPACE] chunk_sentences) in
        let chunks := if chunk_text is [] then chunks else chunks ++ [chunk_text] in
        let spans := spans ++ [(i, j)] in
        if Z.of_nat (length sentences) <=? j then Done (chunks, spans)
        else
          next ← next_start sent_tokens overlap i j;
          chunk_loop fuel' sentences sent_tokens chunk_size overlap next chunks spans
    end
  else Done (chunks, spans).

(** [chunk_text] together with the ghost spans. The outer loop is given
    one unit of fuel per sentence. *)
Definition chunk_text_spans (text : str) (chunk_size overlap : option Z)
    : outcome (list str * list (Z * Z)) :=
  let chunk_size := Py.or_default chunk_size (CHUNK_SIZE config) in
  let overlap := Py.or_default overlap (CHUNK_OVERLAP config) in
  if chunk_size <=? 0 then Raise ValueError
  else
    let sentences := Segmenter._split_into_sentences text in
    match sentences with
    | [] => Done ([], [])
    | _ =>
        let sent_tokens := _count_tokens <$> sentences in
        chunk_loop (length sentences) sentences sent_tokens chunk_size overlap 0 [] []
    end.

Definition chunk_text (text : str) (chunk_size overlap : option Z)
    : outcome (list str) :=
  r ← chunk_text_spans text chunk_size overlap; Done r.1.

End Chunker.

End Chunker.

(** ** Index builder ([ingest.py], [index_documents]) *)

Module IndexBuilder.
Import PyStr.

(** One record of the metadata list. *)
Record Meta : Type := {
  doc_id : str;
  chunk_id : Z;
  text : str
}.

#[global] Instance Meta_eq_dec : EqDecision Meta.
Proof. solve_decision. Defined.

Definition batch_size : nat := 20.

Section IndexBuilder.

Variable config : Chunker.Config.
Variable TOKEN_ENCODER : option (str -> option (list N)).

(** An embedding vector, its dimension, and the row that
    [astype("float32")] followed by [faiss.normalize_L2] makes of it. *)
Variable vec : Type.
Variable dim : vec -> nat.
Variable normalize_L2 : vec -> vec.

(** [models.embeddings.embed_texts]: the embedding client. *)
Variable embed_texts : list str -> outcome (list vec).

(** Lines 261-263, the loop over [enumerate(chunks)]. *)
Definition add_chunks (doc_name : str) (chunks : list str)
    (acc : list str * list Meta) : list str * list Meta :=
  foldl (fun '(all_chunks, metadata) '(idx, c) =>
           (all_chunks ++ [c],
            metadata ++ [{| doc_id := doc_name; chunk_id := Z.of_nat idx; text := c |}]))
        acc (Py.enumerate chunks).

(** Lines 253-263, the loop over [docs]; a document is a pair of its
    name and its extracted text. *)
Fixpoint collect (docs : list (str * str)) (acc : list str * list Meta)
    : outcome (list str * list Meta) :=
  match docs with
  | [] => Done acc
  | (doc_name, text) :: rest =>
      chunks ← Chunker.chunk_text config TOKEN_ENCODER text None None;
      collect rest (add_chunks doc_name chunks acc)
  end.

(** Lines 273-276, the loop over [range(0, len(all_chunks), batch_size)]. *)
Fixpoint embed_batches (starts : list nat) (all_chunks : list str)
    (embeddings : list vec) : outcome (list vec) :=
  match starts with
  | [] => Done embeddings
  | i :: rest =>
      batch_embs ← embed_texts (Py.slice all_chunks i (i + batch_size));
      embed_batches rest all_chunks (embeddings ++ batch_embs)
  end.

(** Lines 278-280, the rows as a matrix. Rows of different lengths make
    [np.array(embeddings).astype("float32")] raise [ValueError]; without
    any row the array has a single axis, and [faiss.normalize_L2] and
    [xb.shape[1]] raise [IndexError]. *)
Definition to_matrix (embeddings : list vec) : outcome (list vec) :=
  match embeddings with
  | [] => Raise IndexError
  | v :: _ =>
      if forallb (fun w => (dim w =? dim v)%nat) embeddings
      then Done embeddings
      else Raise ValueError
  end.

(** Lines 249-282 and 299: the index is the list of its rows, in the
    order [index.add] received them. *)
Definition index_documents (docs : list (str * str))
    : outcome (list vec * list Meta) :=
  '(all_chunks, metadata) ← collect docs ([], []);
  match all_chunks with
  | [] => Raise RuntimeError
  | _ =>
      embeddings ←
        embed_batches (Py.range_step (length all_chunks) batch_size) all_chunks [];
      xb ← to_matrix embeddings;
      Done (normalize_L2 <$> (xb : list vec), metadata)
  end.

End IndexBuilder.

(** *** Persisting the pair (lines 284-297) *)

Section Persist.

Variable Index : Type.

(** What stands under a path: nothing; a file that is being written,
    created or truncated by the call that opened it and incomplete until
    that call closes it; or a complete file. *)
Inductive file (A : Type) : Type :=
  | Missing
  | Torn
  | Stored (a : A).

Arguments Missing {A}.
Arguments Torn {A}.
Arguments Stored {A} a.

(** The files under [VECTOR_STORE_PATH], [METADATA_PATH] and
    [ingest_debug.json]. *)
Record Files : Type := {
  index_file : file Index;
  metadata_file : file (list Meta);
  debug_file : file nat
}.

(** The steps of the file operations of the source. [faiss.write_index]
    and [open(path, "w")] open the file at its final path, which
    truncates what it held; the content is complete when the file is
    closed. There is no other operation: no temporary file is created
    and nothing is renamed. *)
Inductive op : Type :=
  | OpenIndex
  | CloseIndex (index : Index)
  | OpenMetadata
  | CloseMetadata (metadata : list Meta)
  | OpenDebug
  | CloseDebug (total_chunks : nat).

Definition apply_op (fs : Files) (o : op) : Files :=
  match o with
  | OpenIndex =>
      {| index_file := Torn;
         metadata_file := metadata_file fs; debug_file := debug_file fs |}
  | CloseIndex index =>
      {| index_file := Stored index;
         metadata_file := metadata_file fs; debug_file := debug_file fs |}
  | OpenMetadata =>
      {| index_file := index_file fs;
         metadata_file := Torn; debug_file := debug_file fs |}
  | CloseMetadata metadata =>
      {| index_file := index_file fs;
         metadata_file := Stored metadata; debug_file := debug_file fs |}
  | OpenDebug =>
      {| index_file := index_file fs;
         metadata_file := metadata_file fs; debug_file := Torn |}
  | CloseDebug n =>
      {| index_file := index_file fs;
         metadata_file := metadata_file fs; debug_file := Stored n |}
  end.

(** The steps of one call, in program order: line 286, lines 287-288,
    lines 296-297. *)
Definition save_ops (index : Index) (metadata : list Meta)
    (save_index debug : bool) : list op :=
  if save_index
  then [OpenIndex; CloseIndex index; OpenMetadata; CloseMetadata metadata]
       ++ (if debug then [OpenDebug; CloseDebug (length metadata)] else [])
  else [].

(** Every state of the files that exists while the steps run: the
    initial one and the one after each step. A call that fails on the
    way stops in one of them. *)
Fixpoint observable (fs : Files) (ops : list op) : list Files :=
  fs :: match ops with
        | [] => []
        | o :: rest => observable (apply_op fs o) rest
        end.

(** What [retriever.load_index_and_meta] gets: the stored pair when
    both files are complete; otherwise it raises ([FileNotFoundError]
    for a missing file, the error of [faiss.read_index] or of
    [json.load] for an incomplete one). *)
Definition load_index_and_meta (fs : Files) : option (Index * list Meta) :=
  match index_file fs, metadata_file fs with
  | Stored index, Stored metadata => Some (index, metadata)
  | _, _ => None
  end.

End Persist.

Arguments Missing {A}.
Arguments Torn {A}.
Arguments Stored {A} a.
Arguments index_file {Index} _.
Arguments metadata_file {Index} _.
Arguments debug_file {Index} _.
Arguments OpenIndex {Index}.
Arguments CloseIndex {Index} _.
Arguments OpenMetadata {Index}.
Arguments CloseMetadata {Index} _.
Arguments OpenDebug {Index}.
Arguments CloseDebug {Index} _.
Arguments apply_op {Index} _ _.
Arguments save_ops {Index} _ _ _ _.
Arguments observable {Index} _ _.
Arguments load_index_and_meta {Index} _.

End IndexBuilder.

(** ** Hybrid retriever ([retriever.py]) *)

Module Retriever.
Import PyStr IndexBuilder.

(** One item of the list [retrieve] returns. *)
Record Result : Type := {
  score : Q;
  r_doc_id : str;
  r_chunk_id : Z;
  r_text : str
}.

Definition result_of (s : Q) (m : Meta) : Result :=
  {| score := s; r_doc_id := doc_id m; r_chunk_id := chunk_id m; r_text := text m |}.

Definition key_of (r : Result) : str * Z := (r_doc_id r, r_chunk_id r).

(** [x < y] on scores. *)
Definition Qltb (x y : Q) : bool := negb (Qle_bool y x).

Definition default_lexical_k : Z := 10.
Definition default_sim_threshold : Q := 18 # 100.

(** [l.sort(key=key, reverse=True)]: the sort is stable, so an element
    stays before the later elements whose key is not greater. [lt] is
    [<] on keys. *)
Section Sort.

Context {A K : Type} (key : A -> K) (lt : K -> K -> bool).

Fixpoint insert_desc (x : A) (l : list A) : list A :=
  match l with
  | [] => [x]
  | y :: l' => if lt (key x) (key y) then y :: insert_desc x l' else x :: l
  end.

Fixpoint sort_reverse (l : list A) : list A :=
  match l with
  | [] => []
  | x :: l' => insert_desc x (sort_reverse l')
  end.

End Sort.

Section Retriever.

(** [config.MAX_RETRIEVALS]. *)
Variable MAX_RETRIEVALS : Z.

(** [str.lower] and the class [\w], both tables of the Unicode database. *)
Variable lower : str -> str.
Variable isword : char -> bool.

(** The embedded, normalised query run against the index: [search q k]
    is [zip(D[0], I[0])] for [D, I = index.search(q_arr, k)], or the
    error of the embedding client. *)
Variable search : str -> Z -> outcome (list (Q * Z)).

(** [re.findall(r"\w+", s)]: the maximal runs of word characters. *)
Fixpoint findall_words (cur : str) (s : str) : list str :=
  match s with
  | [] => if cur is [] then [] else [reverse cur]
  | c :: s' =>
      if isword c then findall_words (c :: cur) s'
      else (if cur is [] then findall_words [] s'
            else reverse cur :: findall_words [] s')
  end.

Definition words_of (s : str) : gset str :=
  list_to_set (findall_words [] (lower s)).

Definition _keyword_score (query text : str) : nat :=
  size (words_of query ∩ words_of text).

(** Lines 38-47, the loop over [zip(D[0], I[0])]. *)
Fixpoint semantic (hits : list (Q * Z)) (metadata : list Meta)
    (results : list Result) : outcome (list Result) :=
  match hits with
  | [] => Done results
  | (sc, idx) :: rest =>
      if (idx <? 0) || (Z.of_nat (length metadata) <=? idx)
      then semantic rest metadata results
      else
        m ← Py.getitem metadata idx;
        semantic rest metadata (results ++ [result_of sc m])
  end.

(** Lines 53-57. *)
Fixpoint lex_scores (query : str) (metadata : list Meta) : list (nat * Meta) :=
  match metadata with
  | [] => []
  | m :: rest =>
      let sc := _keyword_score query (text m) in
      if (0 <? sc)%nat then (sc, m) :: lex_scores query rest
      else lex_scores query rest
  end.

(** The pseudo-score [float(0.0 + sc/100.0)]. *)
Definition pseudo_score (sc : nat) : Q := Z.of_nat sc # 100.

(** Lines 63-75, the loop over [lex_scores[:lexical_k]]. *)
Fixpoint add_lexical (lexical_k : Z) (existing_keys : gset (str * Z))
    (cands : list (nat * Meta)) (added : Z) (results : list Result)
    : list Result :=
  match cands with
  | [] => results
  | (sc, m) :: rest =>
      if decide ((doc_id m, chunk_id m) ∈ existing_keys)
      then add_lexical lexical_k existing_keys rest added results
      else
        let results := results ++ [result_of (pseudo_score sc) m] in
        let added := added + 1 in
        if lexical_k <=? added then results
        else add_lexical lexical_k existing_keys rest added results
  end.

(** Lines 51-75 when the threshold test succeeds. *)
Definition lexical_fallback (query : str) (metadata : list Meta)
    (lexical_k : Z) (results : list Result) : list Result :=
  let ranked := sort_reverse fst Nat.ltb (lex_scores query metadata) in
  let existing_keys : gset (str * Z) := list_to_set (key_of <$> results) in
  add_lexical lexical_k existing_keys (Py.prefix ranked lexical_k) 0 results.

Definition top_score (results : list Result) : Q :=
  match results with
  | r :: _ => score r
  | [] => 0
  end.

(** Lines 50-75. *)
Definition merged (query : str) (metadata : list Meta) (lexical_k : Z)
    (sim_threshold : Q) (results : list Result) : list Result :=
  if Qltb (top_score results) sim_threshold
  then lexical_fallback query metadata lexical_k results
  else results.

Definition retrieve (query : str) (metadata : list Meta) (k : option Z)
    (lexical_k : Z) (sim_threshold : Q) : outcome (list Result) :=
  let k := Py.or_default k MAX_RETRIEVALS in
  hits ← search query k;
  results ← semantic hits metadata [];
  let results := merged query metadata lexical_k sim_threshold results in
  let results := sort_reverse score Qltb results in
  Done (Py.prefix results (Z.max k (Z.of_nat (length results)))).

End Retriever.

(** The two tables restricted to ASCII, where they agree with Python. *)
Definition ascii_lower (s : str) : str :=
  (fun c => if (65 <=? c) && (c <=? 90) then c + 32 else c)%N <$> s.

Definition ascii_isword (c : char) : bool :=
  ((48 <=? c) && (c <=? 57) || (65 <=? c) && (c <=? 90)
   || (97 <=? c) && (c <=? 122) || (c =? 95))%N.

End Retriever.

(** ** Repeated header removal ([ingest.py], [_remove_repeated_headers]) *)

Module Normalizer.
Import PyStr.

(** [[ln.strip() for ln in page.splitlines() if ln.strip()]] *)
Definition page_lines (page : str) : list str :=
  strip <$> filter (fun ln => strip ln <> []) (splitlines page).

(** Lines 87-89. *)
Definition count_line (counts : gmap str nat) (ln : str) : gmap str nat :=
  if (3 <=? length ln)%nat && (length ln <=? 120)%nat
  then <[ln := (default 0 (counts !! ln) + 1)%nat]> counts
  else counts.

(** Lines 81-89. *)
Definition candidate_counts (pages : list str) : gmap str nat :=
  foldl (fun counts page => foldl count_line counts (page_lines page)) ∅ pages.

(** Line 91. *)
Definition threshold (pages : list str) : nat :=
  Nat.max 2 (length pages / 6).

Definition repeated (pages : list str) : gset str :=
  dom (filter (fun kv => (threshold pages <= kv.2)%nat) (candidate_counts pages)).

(** [pattern.search(ln)] for the alternation of the escaped repeated
    lines: some alternative occurs somewhere in [ln]. *)
Definition pattern_search (repeated : gset str) (ln : str) : bool :=
  existsb (fun r => contains r ln) (elements repeated).

(** Lines 99-112, one page. *)
Definition clean_page (repeated : gset str) (lines : list str) : str :=
  match lines with
  | [] => []
  | _ =>
      if decide (repeated = ∅) then join [NEWLINE] lines
      else join [NEWLINE] (filter (fun ln => pattern_search repeated ln = false) lines)
  end.

Definition _remove_repeated_headers (pages : list str) : str :=
  join [NEWLINE; NEWLINE] (clean_page (repeated pages) <$> (page_lines <$> pages)).

End Normalizer.

(** ** Text clean-up ([ingest.py], [_fix_hyphenation_and_broken_lines],
    [extract_text_from_txt], [extract_text_from_pdf]) *)

Module Cleaner.
Import PyStr.

Definition HYPHEN : char := 45%N.
Definition CR : char := 13%N.

(** [s.replace('\r\n', '\n')] *)
Fixpoint replace_crlf (s : str) : str :=
  match s with
  | [] => []
  | c :: s' =>
      match s' with
      | d :: s'' =>
          if ((c =? 13) && (d =? 10))%N then NEWLINE :: replace_crlf s''
          else c :: replace_crlf s'
      | [] => [c]
      end
  end.

(** [s.replace('\r', '\n')] *)
Definition replace_cr (s : str) : str :=
  (fun c => if (c =? 13)%N then NEWLINE else c) <$> s.

(** Length of the run of newlines at the head of [s]. *)
Fixpoint nl_run (s : str) : nat :=
  match s with
  | c :: s' => if (c =? 10)%N then S (nl_run s') else O
  | [] => O
  end.

(** [re.sub(r'\n{3,}', '\n\n', s)]: a run of three or more newlines,
    taken whole, becomes two. [skip] counts the newlines of the current
    run that are still to be passed over. *)
Fixpoint squeeze_go (skip : nat) (s : str) : str :=
  match s with
  | [] => []
  | c :: s' =>
      match skip with
      | S k => squeeze_go k s'
      | O =>
          if (3 <=? nl_run s)%nat
          then NEWLINE :: NEWLINE :: squeeze_go (nl_run s') s'
          else c :: squeeze_go O s'
      end
  end.

Definition squeeze_newlines (s : str) : str := squeeze_go O s.

(** The class of the search in line 128: full stop, exclamation mark,
    question mark, colon, double quote, closing round and square
    bracket. *)
Definition is_closing (c : char) : bool :=
  ((c =? 46) || (c =? 33) || (c =? 63) || (c =? 58)
   || (c =? 34) || (c =? 41) || (c =? 93))%N.

(** That search succeeds exactly when the last character of [ln] that is
    not whitespace is of the class: the class holds no whitespace, and
    [\s*$] lets only whitespace follow. *)
Definition ends_closed (ln : str) : bool :=
  match reverse (rstrip ln) with
  | c :: _ => is_closing c
  | [] => false
  end.

Section Cleaner.

(** The class [\w], and [str.islower] and [str.isdigit] on one
    character: tables of the Unicode database. *)
Variable isword : char -> bool.
Variable islower : char -> bool.
Variable isdigit : char -> bool.

(** Length of the run of word characters at the head of [s]. *)
Fixpoint word_run (s : str) : nat :=
  match s with
  | c :: s' => if isword c then S (word_run s') else O
  | [] => O
  end.

(** One attempt of [(\w+)-\n(\w+)] at the head of [s]: the lengths of
    the two groups. The first [\w+] is greedy and backtracks, so its
    lengths are tried from the whole run down to 1; the second takes its
    whole run. *)
Definition match_hyphen (s : str) : option (nat * nat) :=
  match List.find (fun m => bool_decide (s !! m = Some HYPHEN)
                            && bool_decide (s !! S m = Some NEWLINE)
                            && (1 <=? word_run (drop (S (S m)) s))%nat)
                  (reverse (seq 1 (word_run s))) with
  | Some m => Some (m, word_run (drop (S (S m)) s))
  | None => None
  end.

(** [re.sub(r'(\w+)-\n(\w+)', r'\1\2', text)]: matches are found from
    left to right, each after the end of the one before. Inside a match
    [keep1] characters are still to be copied, then [del] to be dropped,
    then [keep2] to be copied. *)
Fixpoint dehyphenate_go (keep1 del keep2 : nat) (s : str) : str :=
  match s with
  | [] => []
  | c :: s' =>
      match keep1, del, keep2 with
      | S k, _, _ => c :: dehyphenate_go k del keep2 s'
      | O, S d, _ => dehyphenate_go O d keep2 s'
      | O, O, S k => c :: dehyphenate_go O O k s'
      | O, O, O =>
          match match_hyphen s with
          | Some (S m, r2) => c :: dehyphenate_go m 2 r2 s'
          | _ => c :: dehyphenate_go O O O s'
          end
      end
  end.

Definition dehyphenate (text : str) : str := dehyphenate_go O O O text.

(** Line 128, the test on a line and the one after it. *)
Definition joins (ln nxt : str) : bool :=
  negb (bool_decide (ln = []))
  && negb (ends_closed ln)
  && match nxt with
     | c :: _ => islower c || isdigit c
     | [] => false
     end.

(** Lines 121-134, the loop over [lines]: [i] moves on by two after a
    join and by one otherwise. *)
Fixpoint join_broken (lines : list str) : list str :=
  match lines with
  | [] => []
  | l0 :: rest =>
      let ln := rstrip l0 in
      match rest with
      | l1 :: rest' =>
          let nxt := lstrip l1 in
          if joins ln nxt
          then (ln ++ [SPACE] ++ nxt) :: join_broken rest'
          else ln :: join_broken rest
      | [] => [ln]
      end
  end.

Definition _fix_hyphenation_and_broken_lines (text : str) : str :=
  let text := dehyphenate text in
  let lines := splitlines text in
  let out_lines := join_broken lines in
  let s := join [NEWLINE] out_lines in
  let s := squeeze_newlines s in
  strip s.

(** Lines 69-72; [raw] is what [f.read()] returned. *)
Definition extract_text_from_txt (raw : str) : str :=
  let raw := replace_cr (replace_crlf raw) in
  let raw := squeeze_newlines raw in
  _fix_hyphenation_and_broken_lines raw.

(** Lines 51-58. *)
Definition clean_pdf_page (p : str) : str :=
  match p with
  | [] => []
  | _ => strip (squeeze_newlines (replace_cr (replace_crlf p)))
  end.

(** Lines 49-64; [text_pages] is the list that lines 30-47 built: the
    texts the PDF library gave for the pages, the empty string for a
    page without text. *)
Definition extract_text_from_pdf (text_pages : list str) : str :=
  let pages_clean := clean_pdf_page <$> text_pages in
  let full := Normalizer._remove_repeated_headers pages_clean in
  _fix_hyphenation_and_broken_lines full.

End Cleaner.

(** [str.islower] and [str.isdigit] restricted to ASCII, where they
    agree with Python. *)
Definition ascii_islower (c : char) : bool := ((97 <=? c) && (c <=? 122))%N.
Definition ascii_isdigit (c : char) : bool := ((48 <=? c) && (c <=? 57))%N.

End Cleaner.

(** ** From files to the index ([ingest.py], [index_documents],
    lines 239-282) *)

Module Ingest.
Import PyStr.

Section Ingest.

Variable config : Chunker.Config.
Variable TOKEN_ENCODER : option (str -> option (list N)).
Variable isword : char -> bool.
Variable islower : char -> bool.
Variable isdigit : char -> bool.
Variable vec : Type.
Variable dim : vec -> nat.
Variable normalize_L2 : vec -> vec.
Variable embed_texts : list str -> outcome (list vec).

(** The file system as the function sees it: whether
    [Path(p).suffix.lower()] is [.pdf], [Path(p).name], the list of page
    texts lines 30-47 build from a PDF, and what [f.read()] returns for
    a text file. Reading can raise. *)
Variable is_pdf : str -> bool.
Variable name : str -> str.
Variable read_pages : str -> outcome (list str).
Variable read : str -> outcome str.

(** Lines 239-247. *)
Fixpoint load_docs (file_paths : list str) : outcome (list (str * str)) :=
  match file_paths with
  | [] => Done []
  | p :: rest =>
      text ← (if is_pdf p
              then text_pages ← read_pages p;
                   Done (Cleaner.extract_text_from_pdf isword islower isdigit text_pages)
              else raw ← read p;
                   Done (Cleaner.extract_text_from_txt isword islower isdigit raw));
      docs ← load_docs rest;
      Done ((name p, text) :: docs)
  end.

Definition index_documents (file_paths : list str)
    : outcome (list vec * list IndexBuilder.Meta) :=
  docs ← load_docs file_paths;
  IndexBuilder.index_documents config TOKEN_ENCODER vec dim normalize_L2
    embed_texts docs.

End Ingest.

End Ingest.

(** ** The system prompt ([response_formatter.py]) *)

Module Formatter.
Import PyStr.

(** [str(n)] for an [int], which is how an f-string shows it. *)
Definition str_of_int (n : Z) : str :=
  lit (DecimalString.NilZero.string_of_int (Z.to_int n)).

Definition BASE_SYSTEM_INSTRUCTION : str :=
  lit "You are the company's Compliance Helper assistant. Answer employee questions using ONLY the provided policy context. Always cite the source(s) you used inline in square brackets using the format [FILENAME#chunk_id]. If you cannot find a definitive answer in the provided policies, say exactly: 'I couldn't find a definitive answer in the provided policies.' Then suggest who to contact (for example: HR) or next steps to get the official guidance.".

Definition default_max_chars_per_snippet : Z := 1200.

(** Line 18. *)
Definition label (r : Retriever.Result) : str :=
  lit "[" ++ Retriever.r_doc_id r ++ lit "#"
  ++ str_of_int (Retriever.r_chunk_id r) ++ lit "]".

(** Lines 19-21. *)
Definition snippet (max_chars_per_snippet : Z) (r : Retriever.Result) : str :=
  let snippet := strip (Retriever.r_text r) in
  if max_chars_per_snippet <? Z.of_nat (length snippet)
  then Py.prefix snippet max_chars_per_snippet ++ lit " ... (truncated)"
  else snippet.

(** Line 22. *)
Definition part (max_chars_per_snippet : Z) (r : Retriever.Result) : str :=
  label r ++ [NEWLINE] ++ snippet max_chars_per_snippet r.

Definition build_system_prompt (retrieved : list Retriever.Result)
    (max_chars_per_snippet : Z) : str :=
  let context_block :=
    match retrieved with
    | [] => lit "No policy context found."
    | _ => join ([NEWLINE; NEWLINE] ++ lit "---" ++ [NEWLINE; NEWLINE])
                (part max_chars_per_snippet <$> retrieved)
    end in
  BASE_SYSTEM_INSTRUCTION ++ [NEWLINE; NEWLINE] ++ lit "Context:" ++ [NEWLINE]
  ++ context_block ++ [NEWLINE; NEWLINE]
  ++ lit "When you answer, cite the source labels inline where appropriate.".

End Formatter.

(** ** Vocabulary of the statements *)

Module Spec.
Import PyStr.

(** Empty or made of whitespace only. *)
Definition whitespace_only (s : str) : bool := forallb isspace s.

(** [ws] are the words of [s] in their order: the maximal runs of
    characters of [s] that are not whitespace. Before every word stands
    a gap of whitespace, empty at most before the first word; after the
    word comes the end of the text or whitespace. *)
Inductive text_words : str -> list str -> Prop :=
  | text_words_end gap :
      whitespace_only gap = true -> text_words gap []
  | text_words_next gap w rest ws :
      whitespace_only gap = true ->
      w <> [] ->
      Forall (fun c => isspace c = false) w ->
      (forall c r, rest = c :: r -> isspace c = true) ->
      text_words rest ws ->
      text_words (gap ++ w ++ rest) (w :: ws).

(** One of the marks [. ! ?]. *)
Definition terminal_mark (c : char) : Prop := (c = 46 \/ c = 33 \/ c = 63)%N.

(** An ASCII capital letter, an ASCII digit, the double or the single
    straight quote. *)
Definition ascii_sentence_start (c : char) : Prop :=
  (65 <= c <= 90 \/ 48 <= c <= 57 \/ c = 34 \/ c = 39)%N.

(** Position [i] of [t] holds whitespace that follows a terminal mark
    and, when [need_start] is set, is followed by a character that can
    start a sentence. *)
Definition split_point (need_start : bool) (t : str) (i : nat) : Prop :=
  exists p c s,
    i = S p
    /\ t !! p = Some c /\ terminal_mark c
    /\ t !! i = Some s /\ isspace s = true
    /\ (need_start = true ->
        exists d, t !! S i = Some d /\ ascii_sentence_start d).

(** [w] is a word token of [s]: a run of word characters of [s] that
    is not empty and cannot be extended, since neither the character
    before it nor the character after it is a word character. *)
Definition token (isword : char -> bool) (s w : str) : Prop :=
  w <> []
  /\ Forall (fun c => isword c = true) w
  /\ exists pre suf,
       s = pre ++ w ++ suf
       /\ (forall p c, pre = p ++ [c] -> isword c = false)
       /\ (forall c r, suf = c :: r -> isword c = false).

(** [n] is the number of distinct word tokens that the lower-cased
    query and the lower-cased text share. *)
Definition shared_tokens (lower : str -> str) (isword : char -> bool)
    (query text : str) (n : nat) : Prop :=
  exists ws,
    NoDup ws /\ length ws = n
    /\ forall w, w ∈ ws <->
         token isword (lower query) w /\ token isword (lower text) w.

Definition zsum (l : list Z) : Z := foldr Z.add 0 l.

(** [l[a:b]] for integers that are known not to be negative. *)
Definition zslice {A} (l : list A) (a b : Z) : list A :=
  Py.slice l (Z.to_nat a) (Z.to_nat b).

(** The chunk made of the sentences [i] to [j - 1]. *)
Definition render (sentences : list str) (sp : Z * Z) : str :=
  strip (join [SPACE] (zslice sentences sp.1 sp.2)).

(** The successive spans of a run that starts at sentence [i], when the
    chunk before it ended at [jp]: every span is non-empty and within the
    [n] sentences, the next one starts after the start and not after the
    end of this one, ends are non-decreasing, and the last one ends at
    [n]. *)
Inductive chain (n : Z) : Z -> Z -> list (Z * Z) -> Prop :=
  | chain_last i jp :
      0 <= i < n -> i <= jp <= n -> chain n i jp [(i, n)]
  | chain_step i jp j i' rest :
      0 <= i < j -> i <= jp <= j -> j < n -> i < i' <= j ->
      chain n i' j rest -> chain n i jp ((i, j) :: rest).

(** Accumulation from [i] does not stop before [jp]. *)
Definition budget_left (sent_tokens : list Z) (chunk_size : Z) (i jp : Z) : Prop :=
  forall m, i <= m < jp -> zsum (zslice sent_tokens i m) < chunk_size.

(** The part of every span that lies after the end of the span before
    it, that is, outside the overlap; [prev_end] is that end. *)
Fixpoint fresh_parts (sentences : list str) (prev_end : Z)
    (spans : list (Z * Z)) : list (list str) :=
  match spans with
  | [] => []
  | (i, j) :: rest =>
      zslice sentences (Z.max i prev_end) j :: fresh_parts sentences j rest
  end.

(** The metadata records of one document: its chunks numbered from 0. *)
Definition records_of (d : str * list str) : list IndexBuilder.Meta :=
  imap (fun idx c => {| IndexBuilder.doc_id := d.1;
                        IndexBuilder.chunk_id := Z.of_nat idx;
                        IndexBuilder.text := c |}) d.2.

(** The slices of [batch_size] texts that start at [starts]. *)
Definition batches_of {A} (l : list A) (starts : list nat) : list (list A) :=
  (fun i => Py.slice l i (i + IndexBuilder.batch_size)) <$> starts.

(** [a] may stand before [b] in a descending order: the key of [a] is
    not smaller. *)
Definition not_below {A K} (key : A -> K) (lt : K -> K -> bool) (a b : A) : Prop :=
  lt (key a) (key b) = false.

(** The key of [a] equals [v] as far as [lt] can tell. *)
Definition tied {A K} (key : A -> K) (lt : K -> K -> bool) (v : K) (a : A) : bool :=
  negb (lt v (key a)) && negb (lt (key a) v).

(** [idx] is a position of [metadata]. *)
Definition in_range (metadata : list IndexBuilder.Meta) (idx : Z) : bool :=
  (0 <=? idx) && (idx <? Z.of_nat (length metadata)).

(** The results made of the hits whose index is a position of
    [metadata], in the order of the hits. *)
Definition valid_results (metadata : list IndexBuilder.Meta)
    (hits : list (Q * Z)) : list Retriever.Result :=
  omap (fun h => if in_range metadata h.2
                 then Retriever.result_of h.1 <$> metadata !! Z.to_nat h.2
                 else None) hits.

(** The key by which results are told apart. *)
Definition meta_key (m : IndexBuilder.Meta) : list N * Z :=
  (IndexBuilder.doc_id m, IndexBuilder.chunk_id m).

(** The result the fallback makes of a ranked record. *)
Definition lexical_result (c : nat * IndexBuilder.Meta) : Retriever.Result :=
  Retriever.result_of (Z.of_nat c.1 # 100) c.2.



End Spec.

(** ** Concrete inputs used by the examples *)

Module Demo.
Import PyStr.

(** A text whose third sentence starts with a capital E with acute
    accent (U+00C9). *)
Definition accented : str := lit "One. Two. " ++ [201%N] ++ lit "tude three.".

Definition config : Chunker.Config :=
  {| Chunker.CHUNK_SIZE := 3; Chunker.CHUNK_OVERLAP := 0 |}.

(** A stand-in for the embedding client: one vector per text. *)
Definition embed_texts (texts : list str) : outcome (list (list Z)) :=
  Done ((fun t => [Z.of_nat (length t); 1]) <$> texts).

(** An embedding client that answers every batch with the vector of its
    first text only: [embed_texts] returns the provider's embeddings as
    they are when their number differs from the number of texts
    ([embeddings.py], lines 96-97). *)
Definition embed_first (texts : list str) : outcome (list (list Z)) :=
  Done ((fun t => [Z.of_nat (length t); 1]) <$> take 1 texts).

(** A stand-in for the row normalisation. *)
Definition normalize_L2 (v : list Z) : list Z := Z.sgn <$> v.

(** Two documents; the first one has 25 sentences of three words. *)
Definition docs : list (str * str) :=
  [(lit "leave.txt", concat (replicate 25 (lit "Ask your manager. ")));
   (lit "travel.txt", lit "Book early. Keep all receipts.")].

Definition build : outcome (list (list Z) * list IndexBuilder.Meta) :=
  IndexBuilder.index_documents config None (list Z) length normalize_L2
    embed_texts docs.

Definition built_index : list (list Z) :=
  Eval vm_compute in match build with Done r => r.1 | _ => [] end.

Definition built_metadata : list IndexBuilder.Meta :=
  Eval vm_compute in match build with Done r => r.2 | _ => [] end.

(** An older pair on disk and a newer pair to be saved over it. *)
Definition old_metadata : list IndexBuilder.Meta :=
  [{| IndexBuilder.doc_id := lit "old.txt"; IndexBuilder.chunk_id := 0;
      IndexBuilder.text := lit "Old rule." |}].

Definition new_metadata : list IndexBuilder.Meta :=
  [{| IndexBuilder.doc_id := lit "new.txt"; IndexBuilder.chunk_id := 0;
      IndexBuilder.text := lit "New rule." |}].

Definition old_index : list (list Z) := [[1; 0]].
Definition new_index : list (list Z) := [[0; 1]].

Definition old_files : IndexBuilder.Files (list (list Z)) :=
  {| IndexBuilder.index_file := IndexBuilder.Stored old_index;
     IndexBuilder.metadata_file := IndexBuilder.Stored old_metadata;
     IndexBuilder.debug_file := IndexBuilder.Missing |}.

(** A small store, a query, and a search whose best hit is weak and
    whose other hits point outside the metadata. *)
Definition metadata : list IndexBuilder.Meta :=
  [{| IndexBuilder.doc_id := lit "expenses.txt"; IndexBuilder.chunk_id := 0;
      IndexBuilder.text := lit "Employees must submit expense reports within 30 days." |};
   {| IndexBuilder.doc_id := lit "expenses.txt"; IndexBuilder.chunk_id := 1;
      IndexBuilder.text := lit "Late submissions require manager approval." |};
   {| IndexBuilder.doc_id := lit "travel.txt"; IndexBuilder.chunk_id := 0;
      IndexBuilder.text := lit "Travel must be booked early." |}].

Definition query : str := lit "Which expense reports are late?".

Definition hits : list (Q * Z) := [(10 # 100, 2); (5 # 100, 7); (1 # 100, -1)].

Definition search (q : str) (k : Z) : outcome (list (Q * Z)) := Done hits.

(** A search that finds nothing: faiss pads the missing hits with -1. *)
Definition no_hits : list (Q * Z) := [(0 # 1, -1); (0 # 1, -1)].

Definition search_nothing (q : str) (k : Z) : outcome (list (Q * Z)) := Done no_hits.

(** Metadata in which two records share their key, as built from two
    uploaded files of one name. *)
Definition twin_metadata : list IndexBuilder.Meta :=
  [{| IndexBuilder.doc_id := lit "policy.txt"; IndexBuilder.chunk_id := 0;
      IndexBuilder.text := lit "Expense reports are due monthly." |};
   {| IndexBuilder.doc_id := lit "policy.txt"; IndexBuilder.chunk_id := 0;
      IndexBuilder.text := lit "Late reports need approval." |}].

Definition retrieve :=
  Retriever.retrieve 6 Retriever.ascii_lower Retriever.ascii_isword search.

Definition retrieve_nothing :=
  Retriever.retrieve 6 Retriever.ascii_lower Retriever.ascii_isword search_nothing.

(** Two uploaded files without text: a scanned PDF of two pages and a
    text file of blank lines. *)
Definition blank_pdf : str := lit "scan.pdf".
Definition blank_txt : str := lit "notes.txt".

Definition is_pdf (p : str) : bool := bool_decide (p = blank_pdf).

Definition read_pages (p : str) : outcome (list str) := Done [[]; [32; 13; 10]%N].

Definition read (p : str) : outcome str := Done [10; 32; 10]%N.

End Demo.

(** ** Further vocabulary *)

Module SpecMore.
Import PyStr.

(** Not empty, and neither the first nor the last character is
    whitespace. *)
Definition trimmed (p : str) : Prop :=
  (exists c r, p = c :: r /\ isspace c = false)
  /\ (exists r c, p = r ++ [c] /\ isspace c = false).

(** The only whitespace characters are spaces. *)
Definition spaces_only (p : str) : Prop :=
  Forall (fun c => isspace c = true -> c = SPACE) p.

(** The span [i, j) is what greedy accumulation from [i] gives: without
    its last sentence it is below the size, and unless it ends the [n]
    sentences it reaches the size. *)
Definition stop_at (tokens : list Z) (size n i j : Z) : Prop :=
  i < j <= n
  /\ Spec.zsum (Spec.zslice tokens i (j - 1)) < size
  /\ (j < n -> size <= Spec.zsum (Spec.zslice tokens i j)).

(** [i'] is where the chunk after the span [i, j) starts. Without
    overlap it is [j]. With overlap it lies after [i] and not after [j];
    the sentences from [i'] to [j - 1] hold at least [overlap] tokens
    unless [i'] is [i + 1], and those after [i'] hold less. *)
Definition restart (tokens : list Z) (overlap i j i' : Z) : Prop :=
  if decide (overlap <= 0) then i' = j
  else i + 1 <= i' <= j
       /\ (i' = i + 1 \/ overlap <= Spec.zsum (Spec.zslice tokens i' j))
       /\ Spec.zsum (Spec.zslice tokens (i' + 1) j) < overlap.

(** The spans of the iterations from start index [i] on, each related
    to the next as the loop computes them. *)
Inductive steps (tokens : list Z) (size overlap n : Z) : Z -> list (Z * Z) -> Prop :=
  | steps_last i :
      0 <= i -> stop_at tokens size n i n -> steps tokens size overlap n i [(i, n)]
  | steps_next i j i' rest :
      0 <= i -> j < n -> stop_at tokens size n i j -> restart tokens overlap i j i' ->
      steps tokens size overlap n i' rest ->
      steps tokens size overlap n i ((i, j) :: rest).

(** Every line boundary is a newline. *)
Definition linebreaks_normal (s : str) : Prop :=
  Forall (fun c => islinebreak c = true -> c = NEWLINE) s.

(** Nowhere more than two newlines in a row, that is, never more than
    one blank line. *)
Definition no_blank_run (s : str) : Prop :=
  forall i, (Cleaner.nl_run (drop i s) <= 2)%nat.

(** What cleaned text looks like. *)
Definition clean_text (s : str) : Prop :=
  (s = [] \/ trimmed s) /\ linebreaks_normal s /\ no_blank_run s.

(** A hyphen and a newline stand between two word characters. *)
Definition repairable (isword : char -> bool) (s : str) : Prop :=
  exists pre c d suf,
    s = pre ++ [c; Cleaner.HYPHEN; NEWLINE; d] ++ suf
    /\ isword c = true /\ isword d = true.

(** The text with every newline written as carriage return and newline,
    and with every newline written as carriage return. *)
Fixpoint to_crlf (s : str) : str :=
  match s with
  | [] => []
  | c :: s' => if (c =? 10)%N then Cleaner.CR :: NEWLINE :: to_crlf s' else c :: to_crlf s'
  end.

Definition to_cr (s : str) : str :=
  (fun c => if (c =? 10)%N then Cleaner.CR else c) <$> s.

(** The characters of [s] that are neither whitespace nor hyphens, in
    their order. *)
Definition ink (s : str) : str :=
  filter (fun c => isspace c = false /\ c <> Cleaner.HYPHEN) s.


(** The file under [p] can be read and holds no text. *)
Definition blank_file (is_pdf : str -> bool)
    (read_pages : str -> outcome (list str)) (read : str -> outcome str)
    (p : str) : Prop :=
  if is_pdf p
  then exists text_pages,
         read_pages p = Done text_pages
         /\ Forall (fun page => Spec.whitespace_only page = true) text_pages
  else exists raw, read p = Done raw /\ Spec.whitespace_only raw = true.

(** The characters of a printed integer: digits and the minus sign. *)
Definition numeric (c : char) : Prop := (c = 45 \/ 48 <= c <= 57)%N.

End SpecMore.

(** * Properties *)

(** ** Python strings *)

Module PyStrFacts.
Import PyStr Spec.

Lemma lstrip_suffix s : exists pre, s = pre ++ lstrip s /\ forallb isspace pre = true.
Proof.
  induction s as [|c s IH]; simpl.
  - exists []. done.
  - destruct (isspace c) eqn:Hc.
    + destruct IH as (pre & Heq & Hpre). exists (c :: pre). simpl.
      rewrite Hc, Hpre. split; [by f_equal | done].
    + exists []. done.
Qed.

Lemma lstrip_nil_iff s : lstrip s = [] <-> whitespace_only s = true.
Proof.
  unfold whitespace_only. induction s as [|c s IH]; simpl; [done|].
  destruct (isspace c); simpl; [done|]. split; discriminate.
Qed.

Lemma lstrip_head s c s' : lstrip s = c :: s' -> isspace c = false.
Proof.
  induction s as [|d s IH]; simpl; [done|].
  destruct (isspace d) eqn:Hd; [done|]. intros [= -> ->]. done.
Qed.

Lemma whitespace_only_app s1 s2 :
  whitespace_only (s1 ++ s2) = whitespace_only s1 && whitespace_only s2.
Proof. unfold whitespace_only. apply forallb_app. Qed.

Lemma whitespace_only_reverse s : whitespace_only (reverse s) = whitespace_only s.
Proof.
  unfold whitespace_only. induction s as [|c s IH]; [done|].
  rewrite reverse_cons, forallb_app, IH. simpl. rewrite andb_true_r. apply andb_comm.
Qed.

Lemma rstrip_prefix s : exists suf, s = rstrip s ++ suf /\ forallb isspace suf = true.
Proof.
  unfold rstrip. destruct (lstrip_suffix (reverse s)) as (pre & Heq & Hpre).
  exists (reverse pre). split.
  - rewrite <- reverse_app, <- Heq. by rewrite reverse_involutive.
  - change (whitespace_only (reverse pre) = true).
    by rewrite whitespace_only_reverse.
Qed.

(** [s.strip()] is falsy exactly when [s] is empty or whitespace only. *)
Lemma strip_nil_iff s : strip s = [] <-> whitespace_only s = true.
Proof.
  unfold strip, rstrip. split.
  - intros H. apply (f_equal reverse) in H. rewrite reverse_involutive in H.
    change (reverse []) with (@nil char) in H.
    apply lstrip_nil_iff in H. rewrite whitespace_only_reverse in H.
    destruct (lstrip_suffix s) as (pre & Heq & Hpre).
    rewrite Heq, whitespace_only_app. unfold whitespace_only at 1. by rewrite Hpre, H.
  - intros H. destruct (lstrip_suffix s) as (pre & Heq & Hpre).
    rewrite Heq, whitespace_only_app in H. apply andb_true_iff in H as [_ H].
    rewrite <- whitespace_only_reverse in H. apply lstrip_nil_iff in H.
    by rewrite H.
Qed.

Lemma strip_not_whitespace s : strip s <> [] -> whitespace_only (strip s) = false.
Proof.
  intros Hne. unfold strip, rstrip in *.
  destruct (lstrip (reverse (lstrip s))) as [|c r] eqn:Hr; [done|].
  pose proof (lstrip_head _ _ _ Hr) as Hc.
  rewrite whitespace_only_reverse. simpl. by rewrite Hc.
Qed.

End PyStrFacts.

(** ** Sentence segmenter *)

Module SegmenterFacts.
Import PyStr Spec PyStrFacts Segmenter.

Lemma single_spaced_app_r pre s : single_spaced (pre ++ s) -> single_spaced s.
Proof.
  induction pre as [|a pre IH]; simpl; [done|].
  destruct (pre ++ s) eqn:E; [|by intros [_ H]; apply IH].
  intros _. destruct pre; [|done]. simpl in E. by subst.
Qed.

Lemma single_spaced_app_l pre s : single_spaced (pre ++ s) -> single_spaced pre.
Proof.
  induction pre as [|a pre IH]; simpl; [done|].
  destruct pre as [|b pre]; [done|]. simpl in *. intros [H1 H2]. split; [done|].
  by apply IH.
Qed.

Lemma collapse_ws_single b s :
  single_spaced (collapse_ws b s) /\
  (b = true -> forall c r, collapse_ws b s = c :: r -> isspace c = false).
Proof.
  revert b. induction s as [|c s IH]; intros b; simpl; [done|].
  destruct (isspace c) eqn:Hc.
  - destruct b.
    + apply IH.
    + split; [|done]. destruct (IH true) as [H1 H2].
      destruct (collapse_ws true s) as [|d r] eqn:E; [done|].
      split; [|done]. intros [_ Hd]. by rewrite (H2 eq_refl d r eq_refl) in Hd.
  - split.
    + destruct (IH false) as [H1 _].
      destruct (collapse_ws false s) as [|d r] eqn:E; [done|].
      split; [|done]. intros [Hc' _]. congruence.
    + intros _ c' r [= <- _]. done.
Qed.

Lemma normalized_single_spaced text : single_spaced (strip (sub_ws text)).
Proof.
  pose proof (proj1 (collapse_ws_single false text)) as H. fold (sub_ws text) in H.
  destruct (lstrip_suffix (sub_ws text)) as (pre & Heq & _).
  rewrite Heq in H. apply single_spaced_app_r in H.
  unfold strip. destruct (rstrip_prefix (lstrip (sub_ws text))) as (suf & Heq' & _).
  rewrite Heq' in H. by apply single_spaced_app_l in H.
Qed.

(** On single-spaced text a match is one character long. *)
Lemma match_here_single ahead prev c s :
  single_spaced (c :: s) ->
  match_here ahead prev (c :: s) =
  if from_option is_terminal false prev && isspace c && ahead (s !! 0%nat)
  then Some 1%nat else None.
Proof.
  intros Hs. unfold match_here.
  destruct (from_option is_terminal false prev); simpl; [|done].
  destruct (isspace c) eqn:Hc; simpl; [|done].
  assert (ws_run s = 0%nat) as ->.
  { destruct s as [|d s]; [done|]. simpl in *. destruct Hs as [Hs _].
    destruct (isspace d); [|done]. by destruct Hs. }
  simpl. change (reverse [1%nat]) with [1%nat]. simpl.
  by destruct (ahead (s !! 0%nat)).
Qed.

Lemma boundary_at ahead pre c s :
  boundary ahead (pre ++ c :: s) (length pre) =
  from_option is_terminal false (last pre) && isspace c && ahead (s !! 0%nat).
Proof.
  destruct (decide (pre = [])) as [->|Hne]; [done|].
  destruct (exists_last Hne) as (pre' & p & ->).
  rewrite last_snoc.
  assert (length (pre' ++ [p]) = S (length pre')) as Hlen
    by (rewrite length_app; simpl; lia).
  rewrite Hlen. unfold boundary.
  assert (((pre' ++ [p]) ++ c :: s) !! length pre' = Some p) as ->.
  { rewrite <- app_assoc. by apply list_lookup_middle. }
  assert (((pre' ++ [p]) ++ c :: s) !! S (length pre') = Some c) as ->.
  { by apply list_lookup_middle. }
  assert (((pre' ++ [p]) ++ c :: s) !! S (S (length pre')) = s !! 0%nat) as ->.
  { rewrite lookup_app_r by lia. rewrite Hlen.
    by replace (S (S (length pre')) - S (length pre'))%nat with 1%nat by lia. }
  done.
Qed.

(** The pattern splits single-spaced text exactly at the boundaries. *)
Lemma re_split_go_cut ahead t :
  single_spaced t ->
  forall s pre cur, t = pre ++ s ->
    re_split_go ahead (last pre) 0 cur s = cut_go (boundary ahead t) (length pre) cur s.
Proof.
  intros Ht s. induction s as [|c s IH]; intros pre cur Heq; simpl; [done|].
  assert (single_spaced (c :: s)) as Hcs.
  { rewrite Heq in Ht. by apply single_spaced_app_r in Ht. }
  pose proof (match_here_single ahead (last pre) c s Hcs) as Hm.
  simpl in Hm. rewrite Hm. clear Hm.
  rewrite Heq at 1. rewrite boundary_at.
  assert (t = (pre ++ [c]) ++ s) as Heq' by (by rewrite <- app_assoc).
  specialize (IH (pre ++ [c])). rewrite last_snoc, length_app in IH. simpl in IH.
  rewrite Nat.add_1_r in IH.
  destruct (from_option is_terminal false (last pre) && isspace c && ahead (s !! 0%nat));
    [f_equal|]; by apply IH.
Qed.

Lemma re_split_cut ahead t :
  single_spaced t -> re_split ahead t = cut_at (boundary ahead t) t.
Proof. intros Ht. by apply (re_split_go_cut ahead t Ht t [] []). Qed.

Lemma trim_nonempty_spec parts :
  trim_nonempty parts = strip <$> filter (fun p => whitespace_only p = false) parts.
Proof.
  unfold trim_nonempty. f_equal. apply list_filter_iff. intros p.
  rewrite <- not_true_iff_false. by rewrite strip_nil_iff.
Qed.

Lemma trim_nonempty_Forall parts :
  Forall (fun p => p <> [] /\ whitespace_only p = false) (trim_nonempty parts).
Proof.
  unfold trim_nonempty. apply Forall_fmap, Forall_forall. intros p Hp.
  apply list_elem_of_filter in Hp as [Hp _]. simpl.
  split; [done|]. by apply strip_not_whitespace.
Qed.

Lemma split_into_sentences_trim text :
  exists parts, _split_into_sentences text = trim_nonempty parts.
Proof.
  unfold _split_into_sentences. destruct text; [by exists [] | eauto].
Qed.

(** Every sentence holds a character that is not whitespace. *)
Lemma split_into_sentences_filled text :
  Forall (fun p => whitespace_only p = false) (_split_into_sentences text).
Proof.
  destruct (split_into_sentences_trim text) as [parts ->].
  eapply Forall_impl; [apply trim_nonempty_Forall|]. by intros p [_ Hp].
Qed.

(** The pieces of a cut, joined by the characters that were cut out, are
    the text again. *)
Lemma cut_go_join (b : nat -> bool) (t : list N) :
  (forall i c, t !! i = Some c -> b i = true -> c = SPACE) ->
  forall s pre cur, t = pre ++ s ->
    join [SPACE] (cut_go b (length pre) cur s) = reverse cur ++ s.
Proof.
  intros Hb s. induction s as [|c s IH]; intros pre cur Heq; simpl.
  - by rewrite app_nil_r.
  - assert (t = (pre ++ [c]) ++ s) as Heq' by (by rewrite <- app_assoc).
    specialize (IH (pre ++ [c])). rewrite length_app in IH. simpl in IH.
    rewrite Nat.add_1_r in IH.
    destruct (b (length pre)) eqn:Hbi.
    + assert (c = SPACE) as ->.
      { apply (Hb (length pre)); [|done]. rewrite Heq. by apply list_lookup_middle. }
      specialize (IH [] Heq').
      destruct (cut_go b (S (length pre)) [] s) as [|p ps] eqn:Hcut.
      { by destruct s; simpl in Hcut; [|destruct (b _)]. }
      change (join [SPACE] (reverse cur :: p :: ps))
        with (reverse cur ++ [SPACE] ++ join [SPACE] (p :: ps)).
      by rewrite IH.
    + rewrite (IH (c :: cur) Heq'). rewrite reverse_cons, <- app_assoc. done.
Qed.

(** *** Whitespace normalisation, in terms of the words of the text *)

Lemma collapse_ws_gap gap s :
  whitespace_only gap = true -> collapse_ws true (gap ++ s) = collapse_ws true s.
Proof.
  induction gap as [|c gap IH]; [done|]. cbn [whitespace_only forallb].
  intros [Hc Hgap]%andb_prop. cbn [app collapse_ws]. rewrite Hc. by apply IH.
Qed.

Lemma collapse_ws_word w s : forall in_ws,
  Forall (fun c => isspace c = false) w ->
  collapse_ws in_ws (w ++ s)
  = w ++ collapse_ws (match w with [] => in_ws | _ => false end) s.
Proof.
  induction w as [|c w IH]; intros in_ws Hw; [done|].
  apply Forall_cons in Hw as [Hc Hw]. cbn [app collapse_ws]. rewrite Hc.
  rewrite (IH false Hw). by destruct w.
Qed.

Lemma text_words_nil ws : text_words [] ws -> ws = [].
Proof.
  intros H. remember [] as s eqn:Hs. destruct H as [|gap w rest ws Hgap Hne]; [done|].
  apply app_eq_nil in Hs as [_ Hs]. apply app_eq_nil in Hs as [Hs _]. done.
Qed.

Lemma lstrip_idem' s : lstrip (lstrip s) = lstrip s.
Proof.
  induction s as [|c s IH]; [done|]. cbn [lstrip].
  destruct (isspace c) eqn:Hc; [done|]. cbn [lstrip]. by rewrite Hc.
Qed.

Lemma text_words_exist (text : list N) : exists ws, text_words text ws.
Proof.
  assert (forall s : list N, exists w rest,
            s = w ++ rest /\ Forall (fun c => isspace c = false) w
            /\ forall c r, rest = c :: r -> isspace c = true) as Hspan.
  { induction s as [|c s (w & rest & -> & Hw & Hrest)]; [by exists [], []|].
    destruct (isspace c) eqn:Hc.
    - exists [], (c :: w ++ rest). split; [done|]. split; [done|].
      by intros c' r [= <- _].
    - exists (c :: w), rest. split; [done|]. split; [by constructor | done]. }
  assert (forall n (s : list N), (length s <= n)%nat -> exists ws, text_words s ws)
    as Hall; [|by apply (Hall (length text))].
  induction n as [|n IH]; intros s Hlen.
  - destruct s; [|cbn in Hlen; lia]. exists []. by apply text_words_end.
  - destruct (lstrip_suffix s) as (gap & Heq & Hgap).
    destruct (Hspan (lstrip s)) as (w & rest & Hsplit & Hw & Hrest).
    destruct w as [|c w].
    + exists []. apply text_words_end. rewrite Heq. unfold whitespace_only.
      rewrite forallb_app, Hgap. cbn [andb]. apply lstrip_nil_iff.
      rewrite lstrip_idem'. destruct (lstrip s) as [|c l] eqn:Hl; [done|]. exfalso.
      cbn in Hsplit. pose proof (lstrip_head _ _ _ Hl) as Hc.
      rewrite (Hrest c l) in Hc by done. done.
    + destruct (IH rest) as [ws Hws].
      { rewrite Heq, Hsplit, !length_app in Hlen. cbn in Hlen. lia. }
      exists ((c :: w) :: ws). rewrite Heq, Hsplit. by apply text_words_next.
Qed.

Lemma collapse_ws_words s ws :
  text_words s ws ->
  exists trail,
    (trail = [] \/ trail = [SPACE]) /\ (ws = [] -> trail = [])
    /\ collapse_ws true s = join [SPACE] ws ++ trail.
Proof.
  induction 1 as [gap Hgap|gap w rest ws Hgap Hne Hw Hrest Hws (trail & Htrail & Hnil & IH)].
  - exists []. split; [by left|]. split; [done|].
    rewrite <- (app_nil_r gap). by rewrite collapse_ws_gap.
  - rewrite (collapse_ws_gap gap _ Hgap), (collapse_ws_word w rest true Hw).
    destruct w as [|c0 w0] eqn:Hweq; [done|]. rewrite <- Hweq in *. clear Hweq c0 w0.
    destruct rest as [|c r].
    + apply text_words_nil in Hws as ->. exists []. split; [by left|].
      split; [done|]. cbn. by rewrite app_nil_r.
    + cbn [collapse_ws] in *. rewrite (Hrest c r eq_refl) in *. rewrite IH.
      destruct ws as [|w' ws'].
      * rewrite (Hnil eq_refl). exists [SPACE]. split; [by right|]. split; [done|].
        cbn. done.
      * exists trail. split; [done|]. split; [done|].
        change (join [SPACE] (w :: w' :: ws'))
          with (w ++ [SPACE] ++ join [SPACE] (w' :: ws')).
        by rewrite <- !app_assoc.
Qed.

Lemma text_words_filled s ws :
  text_words s ws ->
  Forall (fun w => w <> [] /\ Forall (fun c => isspace c = false) w) ws.
Proof. induction 1; by constructor. Qed.

Lemma lstrip_gap gap s : whitespace_only gap = true -> lstrip (gap ++ s) = lstrip s.
Proof.
  induction gap as [|c gap IH]; [done|]. cbn [whitespace_only forallb].
  intros [Hc Hgap]%andb_prop. cbn [app lstrip]. rewrite Hc. by apply IH.
Qed.

Lemma rstrip_gap s gap : whitespace_only gap = true -> rstrip (s ++ gap) = rstrip s.
Proof.
  intros Hgap. unfold rstrip. rewrite reverse_app, lstrip_gap; [done|].
  by rewrite whitespace_only_reverse.
Qed.

Lemma lstrip_fixed s t : lstrip s = s -> s <> [] -> lstrip (s ++ t) = s ++ t.
Proof.
  intros Hs Hne. destruct s as [|c r]; [done|].
  pose proof (lstrip_head _ _ _ Hs) as Hc. cbn [app lstrip]. by rewrite Hc.
Qed.

Lemma join_cons_filled (sep w : list N) ws : w <> [] -> join sep (w :: ws) <> [].
Proof. intros Hw. destruct w; [done|]. by destruct ws. Qed.

Lemma join_words_ends ws :
  Forall (fun w => w <> [] /\ Forall (fun c => isspace c = false) w) ws ->
  lstrip (join [SPACE] ws) = join [SPACE] ws
  /\ lstrip (reverse (join [SPACE] ws)) = reverse (join [SPACE] ws).
Proof.
  induction 1 as [|w ws [Hne Hw] Hall [IH1 IH2]]; [done|].
  assert (lstrip w = w) as Hl.
  { destruct w as [|c w']; [done|]. apply Forall_cons in Hw as [Hc _].
    cbn [lstrip]. by rewrite Hc. }
  assert (lstrip (reverse w) = reverse w) as Hr.
  { destruct (reverse w) as [|c r] eqn:Hrev; [done|].
    assert (isspace c = false) as Hc.
    { rewrite Forall_forall in Hw. apply Hw. apply elem_of_reverse.
      rewrite Hrev. by left. }
    cbn [lstrip]. by rewrite Hc. }
  destruct ws as [|w' ws']; [done|].
  change (join [SPACE] (w :: w' :: ws'))
    with (w ++ [SPACE] ++ join [SPACE] (w' :: ws')).
  split; [by apply lstrip_fixed|].
  rewrite !reverse_app, <- app_assoc. apply lstrip_fixed; [done|].
  apply Forall_cons in Hall as [[Hne' _] _].
  pose proof (join_cons_filled [SPACE] w' ws' Hne') as Hj. intros Hrev.
  apply Hj. apply (f_equal reverse) in Hrev. by rewrite reverse_involutive in Hrev.
Qed.

(** The text with every run of whitespace turned into one space and the
    ends stripped is the words of the text joined by single spaces. *)
Lemma normalized_words text ws :
  text_words text ws -> strip (sub_ws text) = join [SPACE] ws.
Proof.
  intros Hws.
  assert (exists lead trail,
            whitespace_only lead = true /\ whitespace_only trail = true
            /\ sub_ws text = lead ++ join [SPACE] ws ++ trail)
    as (lead & trail & Hlead & Htrail & ->).
  { destruct (collapse_ws_words text ws Hws) as (trail & Htrail & _ & Heq).
    assert (whitespace_only trail = true) as Hws_trail by (by destruct Htrail as [->| ->]).
    unfold sub_ws. destruct text as [|c r].
    - apply text_words_nil in Hws as ->. by exists [], [].
    - cbn [collapse_ws] in *. destruct (isspace c) eqn:Hc.
      + exists [SPACE], trail. split; [done|]. split; [done|]. by rewrite Heq.
      + exists [], trail. split; [done|]. split; [done|].
        cbn [app]. rewrite <- Heq. done. }
  destruct (join_words_ends ws (text_words_filled _ _ Hws)) as [H1 H2].
  unfold strip. rewrite (lstrip_gap lead _ Hlead).
  destruct (decide (join [SPACE] ws = [])) as [Hnil|Hne].
  - rewrite Hnil. cbn [app]. apply lstrip_nil_iff in Htrail. by rewrite Htrail.
  - rewrite (lstrip_fixed _ trail H1 Hne), (rstrip_gap _ trail Htrail).
    unfold rstrip. by rewrite H2, reverse_involutive.
Qed.

Lemma split_into_sentences_blocks (text : str) :
  let t := strip (sub_ws text) in
  let primary := cut_at (boundary ahead_start t) t in
  let blocks :=
    if decide (length primary = 1%nat)
    then cut_at (boundary ahead_any t) t else primary in
  _split_into_sentences text
    = strip <$> filter (fun p => whitespace_only p = false) blocks
  /\ Forall (fun p => p <> [] /\ whitespace_only p = false)
            (_split_into_sentences text).
Proof.
  intros t primary blocks.
  assert (_split_into_sentences text = trim_nonempty blocks) as ->.
  { pose proof (normalized_single_spaced text) as Hs. fold t in Hs.
    subst blocks primary. unfold _split_into_sentences.
    destruct text as [|c text'] eqn:Htext.
    - vm_compute. done.
    - fold t. rewrite !re_split_cut by done.
      destruct (decide _) as [Heq|Hne].
      + by rewrite Heq.
      + by apply Nat.eqb_neq in Hne as ->. }
  split; [apply trim_nonempty_spec | apply trim_nonempty_Forall].
Qed.

Lemma span_unique (P : N -> bool) (a1 b1 a2 b2 : list N) :
  Forall (fun c => P c = true) a1 -> Forall (fun c => P c = true) a2 ->
  (forall c r, b1 = c :: r -> P c = false) ->
  (forall c r, b2 = c :: r -> P c = false) ->
  a1 ++ b1 = a2 ++ b2 -> a1 = a2 /\ b1 = b2.
Proof.
  intros H1. revert a2. induction H1 as [|x a1 Hx _ IH]; intros a2 H2 Hb1 Hb2 Heq.
  - destruct H2 as [|y a2 Hy _]; [done|]. cbn in Heq.
    rewrite (Hb1 y _ Heq) in Hy. done.
  - destruct H2 as [|y a2 Hy H2].
    + cbn in Heq. symmetry in Heq. rewrite (Hb2 x _ Heq) in Hx. done.
    + injection Heq as -> Heq. by destruct (IH a2 H2 Hb1 Hb2 Heq) as [-> ->].
Qed.

Lemma text_words_unique s ws1 : text_words s ws1 ->
  forall ws2, text_words s ws2 -> ws2 = ws1.
Proof.
  assert (Hgap_P : forall gap, whitespace_only gap = true ->
                     Forall (fun c => isspace c = true) gap).
  { intros gap Hgap. apply Forall_forall. intros c Hc.
    unfold whitespace_only in Hgap. rewrite forallb_forall in Hgap.
    apply Hgap. by apply list_elem_of_In. }
  assert (Hword_head : forall (w rest : list N), w <> [] ->
            Forall (fun c => isspace c = false) w ->
            forall c r, w ++ rest = c :: r -> isspace c = false).
  { intros w rest Hne Hw c r Heq. destruct w as [|x w]; [done|].
    injection Heq as <- _. by apply Forall_cons in Hw as [Hx _]. }
  assert (Hword_P : forall w : list N, Forall (fun c => isspace c = false) w ->
            Forall (fun c => negb (isspace c) = true) w).
  { intros w Hw. eapply Forall_impl; [exact Hw|]. by intros c ->. }
  assert (Hrest_P : forall rest : list N,
            (forall c r, rest = c :: r -> isspace c = true) ->
            forall c r, rest = c :: r -> negb (isspace c) = false).
  { intros rest Hrest c r Heq. by rewrite (Hrest c r Heq). }
  assert (Hclash : forall gap gap' w rest : list N,
            whitespace_only gap = true -> w <> [] ->
            Forall (fun c => isspace c = false) w ->
            gap = gap' ++ w ++ rest -> False).
  { intros gap gap' w rest Hgap Hne Hw ->. apply Hgap_P in Hgap.
    destruct w as [|x w]; [done|]. apply Forall_cons in Hw as [Hx _].
    rewrite Forall_forall in Hgap. rewrite (Hgap x) in Hx; [done|]. set_solver. }
  induction 1 as [gap Hgap|gap w rest ws Hgap Hne Hw Hrest Hws IH]; intros ws2 H2.
  - inversion H2 as [|gap' w' rest' ws' Hgap' Hne' Hw' Hrest' Hws' Heq]; [done|].
    exfalso. symmetry in Heq. exact (Hclash gap gap' w' rest' Hgap Hne' Hw' Heq).
  - inversion H2 as [gap' Hgap' Heq|gap' w' rest' ws' Hgap' Hne' Hw' Hrest' Hws' Heq].
    + exfalso. subst gap'. exact (Hclash _ gap w rest Hgap' Hne Hw eq_refl).
    + apply (span_unique isspace) in Heq as [-> Heq];
        [|by apply Hgap_P|by apply Hgap_P|by apply Hword_head|by apply Hword_head].
      apply (span_unique (fun c => negb (isspace c))) in Heq as [-> ->];
        [|by apply Hword_P|by apply Hword_P|by apply Hrest_P|by apply Hrest_P].
      f_equal. by apply IH.
Qed.

Lemma boundary_split_point next_ok need_start t i :
  (forall d, next_ok d = true <->
     (need_start = true -> exists c, d = Some c /\ ascii_sentence_start c)) ->
  boundary next_ok t i = true <-> split_point need_start t i.
Proof.
  intros Hok. unfold boundary, split_point. destruct i as [|p].
  - split; [done|]. by intros (p & c & s & Hi & _).
  - rewrite !andb_true_iff, Hok. split.
    + intros [[Hterm Hws] Hnext].
      destruct (t !! p) as [c|] eqn:Hc; [|done].
      destruct (t !! S p) as [s|] eqn:Hs; [|done].
      exists p, c, s. split; [done|]. split; [done|]. split.
      { cbn in Hterm. unfold is_terminal in Hterm. unfold terminal_mark.
        rewrite !orb_true_iff, !N.eqb_eq in Hterm. tauto. }
      split; [done|]. split; [exact Hws | exact Hnext].
    + intros (p' & c & s & [= <-] & Hc & Hterm & Hs & Hws & Hnext).
      rewrite Hc, Hs. cbn. split; [split; [|exact Hws] | exact Hnext].
      unfold is_terminal, terminal_mark in *.
      rewrite !orb_true_iff, !N.eqb_eq. tauto.
Qed.

Lemma ahead_start_spec d :
  ahead_start d = true <->
  (true = true -> exists c, d = Some c /\ ascii_sentence_start c).
Proof.
  unfold ahead_start, ascii_sentence_start. destruct d as [c|]; cbn.
  - unfold is_sentence_start.
    rewrite !orb_true_iff, !andb_true_iff, !N.leb_le, !N.eqb_eq. split.
    + intros H _. exists c. split; [done|]. lia.
    + intros H. destruct (H eq_refl) as (c' & [= <-] & Hc). lia.
  - split; [done|]. intros H. by destruct (H eq_refl) as (c & Hc & _).
Qed.

Lemma ahead_any_spec d :
  ahead_any d = true <->
  (false = true -> exists c, d = Some c /\ ascii_sentence_start c).
Proof. unfold ahead_any. split; [done | done]. Qed.

(** C9, as the code has it: the segmenter works on the words of the
    text joined by single spaces. It splits that text exactly at the
    spaces that stand between a terminal mark [. ! ?] and one of the
    ASCII characters [A-Z], [0-9], double quote, single quote; when that
    leaves a single block it splits instead at every space after a
    terminal mark, whatever follows; and of the blocks it keeps,
    stripped, exactly those that are neither empty nor whitespace
    only. *)
Theorem split_into_sentences_rule (text : str) :
  exists ws,
    text_words text ws
    /\ (forall ws', text_words text ws' -> ws' = ws)
    /\ let t := join [SPACE] ws in
       let primary := cut_at (boundary ahead_start t) t in
       let blocks :=
         if decide (length primary = 1%nat)
         then cut_at (boundary ahead_any t) t else primary in
       (forall i, boundary ahead_start t i = true <-> split_point true t i)
       /\ (forall i, boundary ahead_any t i = true <-> split_point false t i)
       /\ _split_into_sentences text
           = strip <$> filter (fun p => whitespace_only p = false) blocks
       /\ Forall (fun p => p <> [] /\ whitespace_only p = false)
                 (_split_into_sentences text).
Proof.
  destruct (text_words_exist text) as [ws Hws]. exists ws. split; [done|].
  split; [by apply text_words_unique|]. cbv zeta.
  split; [intros i; apply boundary_split_point, ahead_start_spec|].
  split; [intros i; apply boundary_split_point, ahead_any_spec|].
  rewrite <- (normalized_words text ws Hws).
  apply split_into_sentences_blocks.
Qed.

(** C9, as stated it fails: an uppercase letter outside ASCII does not
    start a sentence. In the text below a full stop and a space stand
    before the capital E with acute accent (U+00C9), and the segmenter
    does not split there: it returns two sentences, not three. *)
Lemma split_into_sentences_ascii_only :
  Demo.accented !! 8%nat = Some 46%N
  /\ Demo.accented !! 9%nat = Some SPACE
  /\ Demo.accented !! 10%nat = Some 201%N
  /\ _split_into_sentences Demo.accented
     = [lit "One."; lit "Two. " ++ [201%N] ++ lit "tude three."].
Proof. repeat split; vm_compute; reflexivity. Qed.

End SegmenterFacts.
Example seg_ex1 :
  Segmenter._split_into_sentences (PyStr.lit "Hello world.  This is it! ok then. 3 more") =
  [PyStr.lit "Hello world."; PyStr.lit "This is it! ok then."; PyStr.lit "3 more"].
Proof. vm_compute. reflexivity. Qed.

Example seg_ex2 :
  Segmenter._split_into_sentences (PyStr.lit "one. two? three") =
  [PyStr.lit "one."; PyStr.lit "two?"; PyStr.lit "three"].
Proof. vm_compute. reflexivity. Qed.

(** ** Python lists *)

Module PyFacts.
Import Spec.

Lemma zsum_app l1 l2 : zsum (l1 ++ l2) = zsum l1 + zsum l2.
Proof. unfold zsum. induction l1 as [|x l1 IH]; simpl; lia. Qed.

Lemma zsum_nonneg l : Forall (fun t => 0 <= t) l -> 0 <= zsum l.
Proof. unfold zsum. induction 1; simpl; lia. Qed.

Lemma slice_nil {A} (l : list A) a b : (b <= a)%nat -> Py.slice l a b = [].
Proof. intros H. unfold Py.slice. by replace (b - a)%nat with 0%nat by lia. Qed.

Lemma slice_snoc {A} (l : list A) a b x :
  (a <= b)%nat -> l !! b = Some x -> Py.slice l a (S b) = Py.slice l a b ++ [x].
Proof.
  intros Hab Hx. unfold Py.slice.
  replace (S b - a)%nat with (S (b - a)) by lia.
  apply take_S_r. rewrite lookup_drop. by replace (a + (b - a))%nat with b by lia.
Qed.

Lemma slice_app {A} (l : list A) a b c :
  (a <= b <= c)%nat -> Py.slice l a b ++ Py.slice l b c = Py.slice l a c.
Proof.
  intros H. unfold Py.slice.
  replace (drop b l) with (drop (b - a) (drop a l))
    by (rewrite drop_drop; f_equal; lia).
  rewrite take_take_drop. f_equal. lia.
Qed.

Lemma slice_all {A} (l : list A) : Py.slice l 0 (length l) = l.
Proof. unfold Py.slice. rewrite drop_0, Nat.sub_0_r. by apply take_ge. Qed.

Lemma slice_Forall {A} (P : A -> Prop) (l : list A) a b :
  Forall P l -> Forall P (Py.slice l a b).
Proof. intros H. unfold Py.slice. by apply Forall_take, Forall_drop. Qed.

Lemma slice_length {A} (l : list A) a b :
  (a <= b <= length l)%nat -> length (Py.slice l a b) = (b - a)%nat.
Proof. intros H. unfold Py.slice. rewrite length_take, length_drop. lia. Qed.

Lemma slice_lookup {A} (l : list A) a b p :
  (a <= p < b)%nat -> Py.slice l a b !! (p - a)%nat = l !! p.
Proof.
  intros H. unfold Py.slice. rewrite lookup_take_lt by lia.
  rewrite lookup_drop. f_equal. lia.
Qed.

Lemma getitem_in_range {A} (l : list A) (i : Z) :
  0 <= i < Z.of_nat (length l) ->
  exists x, l !! Z.to_nat i = Some x /\ Py.getitem l i = Done x.
Proof.
  intros H. unfold Py.getitem.
  destruct (i <? 0) eqn:E; [lia|].
  assert ((0 <=? i) && (i <? Z.of_nat (length l)) = true) as ->.
  { apply andb_true_iff. split; [apply Z.leb_le | apply Z.ltb_lt]; lia. }
  destruct (lookup_lt_is_Some_2 l (Z.to_nat i)) as [x Hx]; [lia|].
  exists x. by rewrite Hx.
Qed.

Lemma getitem_Done {A} (l : list A) (i : Z) x :
  Py.getitem l i = Done x -> 0 <= i -> l !! Z.to_nat i = Some x.
Proof.
  unfold Py.getitem. intros H Hi.
  destruct (i <? 0) eqn:E; [lia|].
  destruct ((0 <=? i) && (i <? Z.of_nat (length l))); [|done].
  destruct (l !! Z.to_nat i); [|done]. by injection H as ->.
Qed.

End PyFacts.

(** ** Chunker *)

Module ChunkerFacts.
Import PyStr Spec PyStrFacts PyFacts Chunker.

Lemma slice_cons {A} (l : list A) a b x :
  (a < b)%nat -> l !! a = Some x -> Py.slice l a b = x :: Py.slice l (S a) b.
Proof.
  intros Hab Hx. unfold Py.slice. rewrite (drop_S l x a Hx).
  by replace (b - a)%nat with (S (b - S a)) by lia.
Qed.

Lemma zslice_cons {A} (l : list A) (a b : Z) x :
  0 <= a < b -> l !! Z.to_nat a = Some x -> zslice l a b = x :: zslice l (a + 1) b.
Proof.
  intros H Hx. unfold zslice. rewrite (slice_cons l _ _ x) by (done || lia).
  do 2 f_equal. lia.
Qed.

Lemma zslice_nil {A} (l : list A) (a b : Z) : b <= a -> zslice l a b = [].
Proof. intros H. apply slice_nil. lia. Qed.

Lemma zslice_app {A} (l : list A) (a b c : Z) :
  0 <= a <= b -> b <= c -> zslice l a b ++ zslice l b c = zslice l a c.
Proof. intros H1 H2. apply slice_app. lia. Qed.

Lemma join_not_whitespace sep parts :
  parts <> [] -> Forall (fun p => whitespace_only p = false) parts ->
  whitespace_only (join sep parts) = false.
Proof.
  intros Hne Hall. destruct parts as [|p rest]; [done|].
  apply Forall_cons in Hall as [Hp _]. simpl.
  destruct rest; [done|]. rewrite whitespace_only_app. by rewrite Hp.
Qed.

Lemma render_nonempty (sentences : list (list N)) i j :
  Forall (fun p => whitespace_only p = false) sentences ->
  0 <= i < j -> j <= Z.of_nat (length sentences) -> render sentences (i, j) <> [].
Proof.
  intros Hfilled Hi Hj. unfold render. simpl. rewrite strip_nil_iff.
  rewrite join_not_whitespace; [done | | by apply slice_Forall].
  intros Hnil. apply (f_equal length) in Hnil. unfold zslice in Hnil.
  rewrite slice_length in Hnil by lia. simpl in Hnil. lia.
Qed.

Section Loops.

Variable sentences : list (list N).
Variable sent_tokens : list Z.
Variables chunk_size overlap : Z.

Hypothesis tokens_length : length sent_tokens = length sentences.
Hypothesis tokens_nonneg : Forall (fun t => 0 <= t) sent_tokens.
Hypothesis size_pos : 0 < chunk_size.
Hypothesis sentences_filled : Forall (fun p => whitespace_only p = false) sentences.

Let n : Z := Z.of_nat (length sentences).

Lemma accumulate_spec fuel : forall j acc cs,
  0 <= j <= n -> n - j <= Z.of_nat fuel ->
  exists j' acc',
    accumulate fuel sentences sent_tokens chunk_size j acc cs
      = Done (j', acc', cs ++ zslice sentences j j')
    /\ j <= j' <= n
    /\ acc' = acc + zsum (zslice sent_tokens j j')
    /\ ~ (j' < n /\ acc' < chunk_size)
    /\ (forall m, j <= m < j' -> acc + zsum (zslice sent_tokens j m) < chunk_size).
Proof.
  induction fuel as [|fuel IH]; intros j acc cs Hj Hfuel.
  - exists j, acc. simpl. fold n.
    destruct ((j <? n) && (acc <? chunk_size)) eqn:Hc.
    + apply andb_true_iff in Hc as [Hc _]. apply Z.ltb_lt in Hc. lia.
    + rewrite zslice_nil, app_nil_r by lia. rewrite zslice_nil by lia.
      repeat split; simpl; lia.
  - simpl. fold n.
    destruct ((j <? n) && (acc <? chunk_size)) eqn:Hc.
    + apply andb_true_iff in Hc as [Hc1 Hc2].
      apply Z.ltb_lt in Hc1. apply Z.ltb_lt in Hc2.
      destruct (getitem_in_range sentences j) as (s & Hs & ->); [lia|].
      destruct (getitem_in_range sent_tokens j) as (t & Ht & ->);
        [rewrite tokens_length; lia|].
      simpl.
      destruct (IH (j + 1) (acc + t) (cs ++ [s])) as (j' & acc' & -> & Hr & Hacc & Hex & Hall);
        [lia | lia |].
      exists j', acc'.
      rewrite (zslice_cons sentences j j' s) by (done || lia).
      rewrite (zslice_cons sent_tokens j j' t) by (done || lia).
      rewrite <- app_assoc. simpl. repeat split; try lia; try done.
      intros m Hm. destruct (decide (m = j)) as [->|Hne].
      * rewrite zslice_nil by lia. simpl. lia.
      * rewrite (zslice_cons sent_tokens j m t) by (done || lia). simpl.
        specialize (Hall m). lia.
    + exists j, acc.
      rewrite zslice_nil, app_nil_r by lia. rewrite zslice_nil by lia.
      repeat split; simpl; lia.
Qed.

Lemma walk_back_spec i j fuel : forall k ov_acc,
  0 <= k -> j <= n -> j - k <= Z.of_nat fuel ->
  exists k', walk_back fuel sent_tokens overlap i j k ov_acc = Done k' /\ k <= k'.
Proof.
  induction fuel as [|fuel IH]; intros k ov_acc Hk Hj Hfuel; simpl.
  - destruct ((0 <=? j - 1 - k) && (ov_acc <? overlap)) eqn:Hc.
    + apply andb_true_iff in Hc as [Hc _]. apply Z.leb_le in Hc. lia.
    + exists k. split; [done | lia].
  - destruct ((0 <=? j - 1 - k) && (ov_acc <? overlap)) eqn:Hc.
    + apply andb_true_iff in Hc as [Hc _]. apply Z.leb_le in Hc.
      destruct (getitem_in_range sent_tokens (j - 1 - k)) as (t & _ & ->);
        [rewrite tokens_length; fold n; lia|].
      simpl. destruct (j - (k + 1) <=? i).
      * exists (k + 1). split; [done | lia].
      * destruct (IH (k + 1) (ov_acc + t)) as (k' & -> & Hk'); [lia | lia | lia |].
        exists k'. split; [done | lia].
    + exists k. split; [done | lia].
Qed.

Lemma next_start_spec i j :
  0 <= i < j -> j <= n ->
  exists next, next_start sent_tokens overlap i j = Done next /\ i + 1 <= next <= j.
Proof.
  intros Hi Hj. unfold next_start. destruct (overlap <=? 0).
  - exists j. split; [done | lia].
  - destruct (walk_back_spec i j (length sent_tokens) 0 0) as (k & -> & Hk);
      [lia | lia | rewrite tokens_length; fold n; lia |].
    simpl. eexists. split; [done | lia].
Qed.

Lemma chunk_loop_spec fuel : forall i jp chunks spans,
  0 <= i < n -> i <= jp <= n -> budget_left sent_tokens chunk_size i jp -> n - i <= Z.of_nat fuel ->
  exists spans',
    chunk_loop fuel sentences sent_tokens chunk_size overlap i chunks spans
      = Done (chunks ++ (render sentences <$> spans'), spans ++ spans')
    /\ chain n i jp spans'.
Proof.
  induction fuel as [|fuel IH]; intros i jp chunks spans Hi Hjp Hinv Hfuel; [lia|].
  simpl. fold n. assert ((i <? n) = true) as -> by (apply Z.ltb_lt; lia).
  destruct (accumulate_spec (length sentences) i 0 [])
    as (j & acc & -> & Hj & Hacc & Hexit & Hall); [lia | fold n; lia |].
  simpl in *.
  assert (i < j) as Hij.
  { destruct (decide (i = j)) as [<-|]; [|lia].
    rewrite zslice_nil in Hacc by lia. simpl in Hacc. lia. }
  assert (jp <= j) as Hjpj.
  { destruct (decide (jp <= j)); [done|]. exfalso. apply Hexit.
    split; [lia|]. rewrite Hacc. apply Hinv. lia. }
  pose proof (render_nonempty sentences i j sentences_filled
                ltac:(lia) ltac:(fold n; lia)) as Hne.
  unfold render in Hne. simpl in Hne.
  destruct (strip (join [SPACE] (zslice sentences i j))) as [|c0 r0] eqn:Hr; [done|].
  destruct (n <=? j) eqn:Hend.
  - apply Z.leb_le in Hend. assert (j = n) as -> by lia.
    exists [(i, n)]. split; [|by constructor].
    simpl. unfold render. simpl. by rewrite Hr.
  - apply Z.leb_gt in Hend.
    destruct (next_start_spec i j) as (next & -> & Hnext); [lia | lia |].
    simpl.
    destruct (IH next j (chunks ++ [c0 :: r0]) (spans ++ [(i, j)]))
      as (spans' & -> & Hchain); [lia | lia | | lia |].
    { intros m Hm.
      assert (zsum (zslice sent_tokens i m) < chunk_size) as Hlt by (apply Hall; lia).
      rewrite <- (zslice_app sent_tokens i next m) in Hlt by lia.
      rewrite zsum_app in Hlt.
      pose proof (zsum_nonneg (zslice sent_tokens i next)
                    (slice_Forall _ _ _ _ tokens_nonneg)). lia. }
    exists ((i, j) :: spans').
    split; [|apply (chain_step n i jp j next); (lia || done)].
    simpl. unfold render at 2. simpl. rewrite Hr.
    by rewrite <- !app_assoc.
Qed.

End Loops.


Section Chain.

Variable sentences : list (list N).

Let n : Z := Z.of_nat (length sentences).

Lemma chain_length i jp spans :
  chain n i jp spans -> Z.of_nat (length spans) <= n - i.
Proof. induction 1; simpl length; lia. Qed.

Lemma chain_bounds i jp spans :
  chain n i jp spans -> Forall (fun sp => 0 <= sp.1 < sp.2 /\ sp.2 <= n) spans.
Proof.
  induction 1 as [i jp Hi Hjp | i jp j i' rest Hi Hjp Hj Hi' Hrest IH].
  - repeat constructor; simpl; lia.
  - constructor; [simpl; lia | done].
Qed.

Lemma chain_head i jp spans :
  chain n i jp spans -> exists j rest, spans = (i, j) :: rest.
Proof. destruct 1; eauto. Qed.

(** Consecutive spans: the later one starts after the start of the
    earlier one, inside it or right at its end, and does not end before
    it. *)
Lemma chain_consecutive i jp spans :
  chain n i jp spans ->
  forall m a b, spans !! m = Some a -> spans !! S m = Some b ->
    a.1 < b.1 /\ b.1 <= a.2 /\ a.2 <= b.2.
Proof.
  induction 1 as [i jp Hi Hjp | i jp j i' rest Hi Hjp Hj Hi' Hrest IH];
    intros m a b Ha Hb.
  - by destruct m.
  - destruct m as [|m].
    + simpl in Ha, Hb. injection Ha as <-.
      destruct (chain_head _ _ _ Hrest) as (j' & rest' & ->).
      simpl in Hb. injection Hb as <-. simpl.
      inversion Hrest; subst; lia.
    + simpl in Ha, Hb. by apply (IH m).
Qed.

Lemma chain_fresh i jp spans :
  chain n i jp spans ->
  concat (fresh_parts sentences jp spans) = zslice sentences jp n.
Proof.
  induction 1 as [i jp Hi Hjp | i jp j i' rest Hi Hjp Hj Hi' Hrest IH]; simpl.
  - rewrite app_nil_r. by replace (Z.max i jp) with jp by lia.
  - rewrite IH. replace (Z.max i jp) with jp by lia.
    apply zslice_app; lia.
Qed.

Lemma chain_cover i jp spans :
  chain n i jp spans ->
  forall p, i <= p < n -> exists sp, sp ∈ spans /\ sp.1 <= p < sp.2.
Proof.
  induction 1 as [i jp Hi Hjp | i jp j i' rest Hi Hjp Hj Hi' Hrest IH];
    intros p Hp.
  - exists (i, n). split; [apply list_elem_of_here | simpl; lia].
  - destruct (decide (p < j)) as [Hlt|Hge].
    + exists (i, j). split; [apply list_elem_of_here | simpl; lia].
    + destruct (IH p) as (sp & Hin & Hsp); [lia|].
      exists sp. split; [by apply list_elem_of_further | done].
Qed.

End Chain.

Lemma count_tokens_nonneg enc sentences :
  Forall (fun t => 0 <= t) (_count_tokens enc <$> sentences).
Proof.
  apply Forall_fmap, Forall_forall. intros s _. simpl.
  unfold _count_tokens. destruct enc as [encode|]; [destruct (encode s)|]; lia.
Qed.

(** With a positive size the chunker returns, and its spans form a chain
    from sentence 0. *)
Lemma chunk_text_spans_chain config enc text chunk_size overlap :
  0 < Py.or_default chunk_size (CHUNK_SIZE config) ->
  Segmenter._split_into_sentences text <> [] ->
  let sentences := Segmenter._split_into_sentences text in
  exists spans,
    chunk_text_spans config enc text chunk_size overlap
      = Done (render sentences <$> spans, spans)
    /\ chain (Z.of_nat (length sentences)) 0 0 spans.
Proof.
  intros Hsize Hne sentences. unfold chunk_text_spans.
  destruct (Z.leb_spec (Py.or_default chunk_size (CHUNK_SIZE config)) 0) as [|_]; [lia|].
  fold sentences. fold sentences in Hne.
  destruct sentences as [|s0 rest] eqn:Hs; [done|]. rewrite <- Hs.
  assert (0 < Z.of_nat (length sentences)) as Hlen by (rewrite Hs; simpl; lia).
  destruct (chunk_loop_spec sentences (_count_tokens enc <$> sentences)
              (Py.or_default chunk_size (CHUNK_SIZE config))
              (Py.or_default overlap (CHUNK_OVERLAP config))
              (length_fmap _ _) (count_tokens_nonneg enc sentences) Hsize
              (SegmenterFacts.split_into_sentences_filled text) (length sentences) 0 0 [] [])
    as (spans & Hrun & Hchain); [lia | lia | intros m Hm; lia | lia |].
  exists spans. split; [|done]. rewrite Hs in Hrun |- *. exact Hrun.
Qed.


(** X1: a size that is not positive once the default of line 178 is
    applied is rejected with [ValueError] before the text is looked at;
    this covers every negative argument, and an absent or zero argument
    when [config.CHUNK_SIZE] is not positive. *)
Theorem chunk_text_rejects_nonpositive config enc text chunk_size overlap :
  Py.or_default chunk_size (CHUNK_SIZE config) <= 0 ->
  chunk_text config enc text chunk_size overlap = Raise ValueError.
Proof.
  intros H. unfold chunk_text, chunk_text_spans.
  by destruct (Z.leb_spec (Py.or_default chunk_size (CHUNK_SIZE config)) 0); [|lia].
Qed.

Lemma chunk_text_rejects_nonpositive_witness :
  chunk_text {| CHUNK_SIZE := 1200; CHUNK_OVERLAP := 200 |} None
             (lit "One. Two.") (Some (-5)) None
  = Raise ValueError.
Proof.
  apply (chunk_text_rejects_nonpositive
           {| CHUNK_SIZE := 1200; CHUNK_OVERLAP := 200 |} None
           (lit "One. Two.") (Some (-5)) None).
  simpl. lia.
Defined.

(** An explicit size of 0 is the same call as one without a size. *)
Lemma chunk_text_zero_is_default config enc text overlap :
  chunk_text config enc text (Some 0) overlap = chunk_text config enc text None overlap.
Proof. reflexivity. Qed.

(** C4: a call with [chunk_size = 0] does not fail. The [or] of line 178
    replaces the 0 by [config.CHUNK_SIZE], here 1200, before the guard
    of line 180 is reached, and the call returns a chunk, against the
    guard's own message that the size must be positive. *)
Theorem chunk_text_zero_size_returns :
  chunk_text {| CHUNK_SIZE := 1200; CHUNK_OVERLAP := 200 |} None
             (lit "One. Two.") (Some 0) None
  = Done [lit "One. Two."].
Proof. vm_compute. reflexivity. Qed.

(** C3: with a positive chunk size the chunker returns after at most one
    iteration of its outer loop per sentence, one chunk is emitted per
    iteration, and every iteration starts at least one sentence after
    the start of the iteration before it. *)
Theorem chunk_text_forward_progress config enc text chunk_size overlap :
  0 < Py.or_default chunk_size (CHUNK_SIZE config) ->
  exists chunks spans,
    chunk_text_spans config enc text chunk_size overlap = Done (chunks, spans)
    /\ chunk_text config enc text chunk_size overlap = Done chunks
    /\ (length spans <= length (Segmenter._split_into_sentences text))%nat
    /\ length chunks = length spans
    /\ forall m a b, spans !! m = Some a -> spans !! S m = Some b -> a.1 + 1 <= b.1.
Proof.
  intros Hsize.
  destruct (decide (Segmenter._split_into_sentences text = [])) as [Hnil|Hne].
  - exists [], []. unfold chunk_text, chunk_text_spans.
    destruct (Z.leb_spec (Py.or_default chunk_size (CHUNK_SIZE config)) 0); [lia|].
    rewrite Hnil. simpl. repeat split; done.
  - destruct (chunk_text_spans_chain config enc text chunk_size overlap Hsize Hne)
      as (spans & Hrun & Hchain).
    eexists _, spans. split; [exact Hrun|]. unfold chunk_text. rewrite Hrun.
    split; [done|]. split; [|split].
    + pose proof (chain_length _ _ _ _ Hchain). lia.
    + by rewrite length_fmap.
    + intros m a b Ha Hb.
      pose proof (chain_consecutive _ _ _ _ Hchain m a b Ha Hb). lia.
Qed.

Lemma chunk_text_forward_progress_witness :
  exists chunks spans,
    chunk_text_spans {| CHUNK_SIZE := 1200; CHUNK_OVERLAP := 200 |} None
      (lit "Aa bb cc. Dd ee ff gg hh ii jj kk ll mm. Nn. Oo pp. Qq rr ss tt. Uu")
      (Some 3) (Some 2) = Done (chunks, spans)
    /\ chunk_text {| CHUNK_SIZE := 1200; CHUNK_OVERLAP := 200 |} None
      (lit "Aa bb cc. Dd ee ff gg hh ii jj kk ll mm. Nn. Oo pp. Qq rr ss tt. Uu")
      (Some 3) (Some 2) = Done chunks
    /\ (length spans <= length (Segmenter._split_into_sentences
          (lit "Aa bb cc. Dd ee ff gg hh ii jj kk ll mm. Nn. Oo pp. Qq rr ss tt. Uu")))%nat
    /\ length chunks = length spans
    /\ forall m a b, spans !! m = Some a -> spans !! S m = Some b -> a.1 + 1 <= b.1.
Proof.
  apply (chunk_text_forward_progress {| CHUNK_SIZE := 1200; CHUNK_OVERLAP := 200 |}
           None _ (Some 3) (Some 2)).
  simpl. lia.
Defined.

(** C7: with a positive chunk size every chunk is the non-empty join of
    a non-empty run of consecutive sentences; the runs follow each other
    without a gap (each starts inside or right at the end of the one
    before and ends no earlier), so every sentence is in some chunk; and
    the parts of the runs that lie outside the overlap with the run
    before, put end to end, are the sentence sequence itself. *)
Theorem chunk_text_coverage config enc text chunk_size overlap :
  0 < Py.or_default chunk_size (CHUNK_SIZE config) ->
  let sentences := Segmenter._split_into_sentences text in
  exists chunks spans,
    chunk_text config enc text chunk_size overlap = Done chunks
    /\ chunk_text_spans config enc text chunk_size overlap = Done (chunks, spans)
    /\ chunks = render sentences <$> spans
    /\ Forall (fun c => c <> []) chunks
    /\ Forall (fun sp => 0 <= sp.1 < sp.2 /\ sp.2 <= Z.of_nat (length sentences)) spans
    /\ (forall p s, sentences !! p = Some s ->
          exists sp, sp ∈ spans /\ sp.1 <= Z.of_nat p < sp.2)
    /\ (forall m a b, spans !! m = Some a -> spans !! S m = Some b ->
          a.1 < b.1 /\ b.1 <= a.2 /\ a.2 <= b.2)
    /\ concat (fresh_parts sentences 0 spans) = sentences.
Proof.
  intros Hsize sentences.
  destruct (decide (sentences = [])) as [Hnil|Hne].
  - exists [], []. unfold chunk_text, chunk_text_spans.
    destruct (Z.leb_spec (Py.or_default chunk_size (CHUNK_SIZE config)) 0); [lia|].
    fold sentences. rewrite Hnil. simpl. repeat split; try done.
  - destruct (chunk_text_spans_chain config enc text chunk_size overlap Hsize Hne)
      as (spans & Hrun & Hchain).
    fold sentences in Hrun, Hchain.
    pose proof (chain_bounds _ _ _ _ Hchain) as Hb.
    exists (render sentences <$> spans), spans.
    unfold chunk_text. rewrite Hrun. repeat split; try done.
    + apply Forall_fmap. eapply Forall_impl; [exact Hb|].
      intros [i j] [Hi Hj]. simpl in *.
      apply render_nonempty;
        [apply SegmenterFacts.split_into_sentences_filled | lia | lia].
    + intros p s Hp. apply lookup_lt_Some in Hp.
      apply (chain_cover _ _ _ _ Hchain). lia.
    + by apply (chain_consecutive _ _ _ _ Hchain m a b).
    + by apply (chain_consecutive _ _ _ _ Hchain m a b).
    + by apply (chain_consecutive _ _ _ _ Hchain m a b).
    + rewrite (chain_fresh sentences _ _ _ Hchain).
      unfold zslice. simpl. rewrite Nat2Z.id. apply slice_all.
Qed.

Lemma chunk_text_coverage_witness :
  let text := lit "Aa bb cc. Dd ee ff gg hh ii jj kk ll mm. Nn. Oo pp. Qq rr ss tt. Uu" in
  let config := {| CHUNK_SIZE := 3; CHUNK_OVERLAP := 2 |} in
  let sentences := Segmenter._split_into_sentences text in
  exists chunks spans,
    chunk_text config None text None None = Done chunks
    /\ chunk_text_spans config None text None None = Done (chunks, spans)
    /\ chunks = render sentences <$> spans
    /\ Forall (fun c => c <> []) chunks
    /\ Forall (fun sp => 0 <= sp.1 < sp.2 /\ sp.2 <= Z.of_nat (length sentences)) spans
    /\ (forall p s, sentences !! p = Some s ->
          exists sp, sp ∈ spans /\ sp.1 <= Z.of_nat p < sp.2)
    /\ (forall m a b, spans !! m = Some a -> spans !! S m = Some b ->
          a.1 < b.1 /\ b.1 <= a.2 /\ a.2 <= b.2)
    /\ concat (fresh_parts sentences 0 spans) = sentences.
Proof.
  apply (chunk_text_coverage {| CHUNK_SIZE := 3; CHUNK_OVERLAP := 2 |} None _ None None).
  simpl. lia.
Defined.

Example chunk_text_overlap_example :
  chunk_text_spans {| CHUNK_SIZE := 3; CHUNK_OVERLAP := 2 |} None
    (lit "Aa bb cc. Dd ee ff gg hh ii jj kk ll mm. Nn. Oo pp. Qq rr ss tt. Uu")
    None None
  = Done ([lit "Aa bb cc."; lit "Dd ee ff gg hh ii jj kk ll mm."; lit "Nn. Oo pp.";
           lit "Oo pp. Qq rr ss tt."; lit "Qq rr ss tt."; lit "Uu"],
          [(0, 1); (1, 2); (2, 4); (3, 5); (4, 5); (5, 6)]).
Proof. vm_compute. reflexivity. Qed.

End ChunkerFacts.

(** ** Index builder *)

Module IndexBuilderFacts.
Import PyStr Spec PyFacts IndexBuilder.

Section Build.

Variable config : Chunker.Config.
Variable TOKEN_ENCODER : option (list N -> option (list N)).
Variable vec : Type.
Variable dim : vec -> nat.
Variable normalize_L2 : vec -> vec.
Variable embed_texts : list (list N) -> outcome (list vec).

Lemma to_matrix_Done embeddings xb :
  to_matrix vec dim embeddings = Done xb -> xb = embeddings.
Proof.
  unfold to_matrix. destruct embeddings as [|v rest]; [done|].
  destruct (forallb _ _); [|done]. by intros [= <-].
Qed.

Lemma add_chunks_from doc_name chunks : forall k acc,
  foldl (fun '(all_chunks, metadata) '(idx, c) =>
           (all_chunks ++ [c],
            metadata ++ [{| doc_id := doc_name; chunk_id := Z.of_nat idx; text := c |}]))
        acc (imap (fun i x => ((k + i)%nat, x)) chunks)
  = (acc.1 ++ chunks,
     acc.2 ++ imap (fun i c => {| doc_id := doc_name;
                                  chunk_id := Z.of_nat (k + i); text := c |}) chunks).
Proof.
  induction chunks as [|c chunks IH]; intros k [ac md]; simpl.
  - by rewrite !app_nil_r.
  - rewrite (imap_ext _ (fun i x => ((S k + i)%nat, x)))
      by (intros; simpl; f_equal; lia).
    rewrite IH. simpl. rewrite <- !app_assoc. simpl. do 3 f_equal.
    apply imap_ext. intros. simpl. do 2 f_equal. lia.
Qed.

Lemma add_chunks_spec doc_name chunks acc :
  add_chunks doc_name chunks acc
  = (acc.1 ++ chunks, acc.2 ++ records_of (doc_name, chunks)).
Proof. unfold add_chunks, Py.enumerate. apply (add_chunks_from doc_name chunks 0). Qed.

Lemma collect_spec docs : forall acc r,
  collect config TOKEN_ENCODER docs acc = Done r ->
  exists chunkss,
    Forall2 (fun d cs =>
               Chunker.chunk_text config TOKEN_ENCODER d.2 None None = Done cs)
            docs chunkss
    /\ r = (acc.1 ++ concat chunkss,
            acc.2 ++ concat (records_of <$> zip (fst <$> docs) chunkss)).
Proof.
  induction docs as [|[doc_name text] docs IH]; intros acc r Hr; simpl in Hr.
  - injection Hr as <-. exists []. split; [constructor|].
    destruct acc. simpl. by rewrite !app_nil_r.
  - destruct (Chunker.chunk_text config TOKEN_ENCODER text None None)
      as [chunks| |] eqn:Hc; try done.
    simpl in Hr. apply IH in Hr as (chunkss & Hall & ->).
    exists (chunks :: chunkss). split; [by constructor|].
    rewrite add_chunks_spec. simpl. by rewrite <- !app_assoc.
Qed.

Lemma embed_batches_spec all_chunks starts : forall embeddings r,
  embed_batches vec embed_texts starts all_chunks embeddings = Done r ->
  exists outs,
    Forall2 (fun b o => embed_texts b = Done o) (batches_of all_chunks starts) outs
    /\ r = embeddings ++ concat outs.
Proof.
  induction starts as [|i starts IH]; intros embeddings r Hr; simpl in Hr.
  - injection Hr as <-. exists []. split; [constructor | by rewrite app_nil_r].
  - destruct (embed_texts (Py.slice all_chunks i (i + batch_size)))
      as [out| |] eqn:He; try done.
    simpl in Hr. apply IH in Hr as (outs & Hall & ->).
    exists (out :: outs). split; [by constructor|].
    simpl. by rewrite <- app_assoc.
Qed.

Lemma batches_concat {A} (l : list A) (k : nat) :
  concat (batches_of l ((fun q => q * batch_size)%nat <$> seq 0 k))
  = Py.slice l 0 (k * batch_size).
Proof.
  unfold batches_of. induction k as [|k IH].
  - by rewrite slice_nil by lia.
  - rewrite seq_S, !fmap_app, concat_app, IH. simpl concat. rewrite app_nil_r.
    replace (S k * batch_size)%nat with (k * batch_size + batch_size)%nat by lia.
    apply slice_app. lia.
Qed.

Lemma batches_cover {A} (l : list A) :
  concat (batches_of l (Py.range_step (length l) batch_size)) = l.
Proof.
  unfold Py.range_step. rewrite batches_concat.
  unfold Py.slice. rewrite drop_0. apply take_ge.
  unfold batch_size.
  pose proof (Nat.div_mod_eq (length l + 20 - 1) 20).
  pose proof (Nat.mod_upper_bound (length l + 20 - 1) 20). lia.
Qed.

Lemma text_imap doc_name (g : nat -> Z) (chunks : list (list N)) :
  text <$> imap (fun i c => {| doc_id := doc_name; chunk_id := g i; text := c |}) chunks
  = chunks.
Proof.
  revert g. induction chunks as [|c chunks IH]; intros g; simpl; [done|].
  f_equal. apply (IH (g ∘ S)).
Qed.

Lemma text_records_of doc_name chunks :
  text <$> records_of (doc_name, chunks) = chunks.
Proof. apply (text_imap doc_name Z.of_nat). Qed.

Lemma text_records docs chunkss :
  length docs = length chunkss ->
  text <$> concat (records_of <$> zip docs chunkss) = concat chunkss.
Proof.
  revert chunkss. induction docs as [|d docs IH]; intros [|cs chunkss] Hlen;
    simpl in *; try done.
  rewrite fmap_app, text_records_of, IH by lia. done.
Qed.

Lemma Forall2_impl_elem {A B} (P Q : A -> B -> Prop) l k :
  Forall2 P l k -> (forall x y, x ∈ l -> P x y -> Q x y) -> Forall2 Q l k.
Proof.
  induction 1 as [|x y l k Hxy _ IH]; intros HPQ; constructor.
  - apply HPQ; [by left | done].
  - apply IH. intros x' y' Hin. apply HPQ. by right.
Qed.

(** Blocks of pairwise equal lengths put the same positions side by
    side once concatenated. *)
Lemma concat_aligned {A B} (bs : list (list A)) (os : list (list B)) :
  Forall2 (fun b o => length o = length b) bs os ->
  length (concat os) = length (concat bs)
  /\ forall p x, concat bs !! p = Some x ->
       exists q r b o y,
         bs !! q = Some b /\ os !! q = Some o
         /\ b !! r = Some x /\ o !! r = Some y /\ concat os !! p = Some y.
Proof.
  induction 1 as [|b o bs os Hlen Hall [IHlen IH]]; simpl.
  - split; [done|]. intros p x Hp. by rewrite lookup_nil in Hp.
  - split; [rewrite !length_app; lia|].
    intros p x Hp. destruct (decide (p < length b)%nat) as [Hlt|Hge].
    + rewrite lookup_app_l in Hp by done.
      destruct (lookup_lt_is_Some_2 o p) as [y Hy]; [lia|].
      exists 0%nat, p, b, o, y. repeat split; try done.
      by rewrite lookup_app_l by lia.
    + rewrite lookup_app_r in Hp by lia.
      destruct (IH _ _ Hp) as (q & r & b' & o' & y & Hb & Ho & Hx & Hy & Hc).
      exists (S q), r, b', o', y. repeat split; try done.
      rewrite lookup_app_r by lia. by rewrite Hlen.
Qed.

(** C1, as the code has it: when the embedding client returned one
    vector per text for every batch of the build, which the builder
    never checks, a successful build yields an index as long as the
    metadata; the
    metadata is, document after document, the chunks of the document
    numbered from 0; the chunk texts are cut in input order into
    consecutive batches of at most [batch_size], the vectors returned for
    the batches are put end to end, and so position [i] of the index
    holds the normalised vector returned for the text of [metadata[i]]. *)
Theorem index_documents_aligned docs index metadata :
  (forall b vs,
     b ∈ batches_of (text <$> metadata) (Py.range_step (length metadata) batch_size) ->
     embed_texts b = Done vs -> length vs = length b) ->
  index_documents config TOKEN_ENCODER vec dim normalize_L2 embed_texts docs
    = Done (index, metadata) ->
  length index = length metadata
  /\ (exists chunkss,
       Forall2 (fun d cs =>
                  Chunker.chunk_text config TOKEN_ENCODER d.2 None None = Done cs)
               docs chunkss
       /\ metadata = concat (records_of <$> zip (fst <$> docs) chunkss))
  /\ (exists outs,
       let batches :=
         batches_of (text <$> metadata) (Py.range_step (length metadata) batch_size) in
       concat batches = text <$> metadata
       /\ Forall2 (fun b o => embed_texts b = Done o) batches outs
       /\ index = normalize_L2 <$> concat outs
       /\ forall i m, metadata !! i = Some m ->
            exists q r b o v,
              batches !! q = Some b /\ outs !! q = Some o
              /\ b !! r = Some (text m) /\ o !! r = Some v
              /\ index !! i = Some (normalize_L2 v)).
Proof.
  intros Hcontract Hrun. unfold index_documents in Hrun.
  destruct (collect config TOKEN_ENCODER docs ([], [])) as [[all_chunks md]| |] eqn:Hc;
    try done.
  simpl in Hrun. apply collect_spec in Hc as (chunkss & Hchunks & Hacc).
  simpl in Hacc. injection Hacc as -> ->.
  assert (text <$> concat (records_of <$> zip (fst <$> docs) chunkss) = concat chunkss)
    as Htexts.
  { apply text_records. rewrite length_fmap. by eapply Forall2_length. }
  destruct (concat chunkss) as [|c0 all'] eqn:Hall; [done|]. rewrite <- Hall in *.
  clear Hall c0 all'.
  destruct (embed_batches vec embed_texts _ (concat chunkss) []) as [embeddings| |] eqn:He;
    try done.
  simpl in Hrun.
  destruct (to_matrix vec dim embeddings) as [xb| |] eqn:Hxb; try done.
  apply to_matrix_Done in Hxb as ->.
  simpl in Hrun. injection Hrun as <- <-.
  apply embed_batches_spec in He as (outs & Houts & ->). simpl.
  assert (length (concat (records_of <$> zip (fst <$> docs) chunkss))
          = length (concat chunkss)) as Hlen.
  { by rewrite <- Htexts, length_fmap. }
  rewrite Htexts, Hlen in Hcontract.
  assert (Forall2 (fun b o => length o = length b)
            (batches_of (concat chunkss)
               (Py.range_step (length (concat chunkss)) batch_size)) outs) as Hsame.
  { eapply Forall2_impl_elem; [exact Houts|]. intros b o Hin Hb. by apply Hcontract. }
  destruct (concat_aligned _ _ Hsame) as [Hl Hpos].
  rewrite batches_cover in Hl, Hpos.
  split; [rewrite length_fmap; lia|].
  split; [by exists chunkss|].
  exists outs. rewrite Htexts, Hlen.
  split; [apply batches_cover|]. split; [done|]. split; [done|].
  intros i m Hm.
  assert (concat chunkss !! i = Some (text m)) as Hi.
  { rewrite <- Htexts, list_lookup_fmap, Hm. done. }
  destruct (Hpos _ _ Hi) as (q & r & b & o & y & Hb & Ho & Hx & Hy & Hcy).
  exists q, r, b, o, y. repeat split; try done.
  by rewrite list_lookup_fmap, Hcy.
Qed.

End Build.


Lemma demo_embed_contract texts vs :
  Demo.embed_texts texts = Done vs -> length vs = length texts.
Proof. unfold Demo.embed_texts. intros [= <-]. apply length_fmap. Qed.

Lemma index_documents_aligned_witness :
  length Demo.built_index = length Demo.built_metadata
  /\ (exists chunkss,
       Forall2 (fun d cs =>
                  Chunker.chunk_text Demo.config None d.2 None None = Done cs)
               Demo.docs chunkss
       /\ Demo.built_metadata = concat (records_of <$> zip (fst <$> Demo.docs) chunkss))
  /\ (exists outs,
       let batches :=
         batches_of (text <$> Demo.built_metadata)
                    (Py.range_step (length Demo.built_metadata) batch_size) in
       concat batches = text <$> Demo.built_metadata
       /\ Forall2 (fun b o => Demo.embed_texts b = Done o) batches outs
       /\ Demo.built_index = Demo.normalize_L2 <$> concat outs
       /\ forall i m, Demo.built_metadata !! i = Some m ->
            exists q r b o v,
              batches !! q = Some b /\ outs !! q = Some o
              /\ b !! r = Some (text m) /\ o !! r = Some v
              /\ Demo.built_index !! i = Some (Demo.normalize_L2 v)).
Proof.
  apply (index_documents_aligned Demo.config None (list Z) length
           Demo.normalize_L2 Demo.embed_texts Demo.docs).
  - intros b vs _. apply demo_embed_contract.
  - vm_compute. reflexivity.
Defined.

(** C1, as stated it fails: the builder does not compare the number of
    vectors with the number of texts, so with a client that returns
    fewer vectors than texts the build succeeds with an index of 2 rows
    beside 26 metadata records. *)
Lemma index_documents_misaligned :
  exists index metadata,
    index_documents Demo.config None (list Z) length Demo.normalize_L2
      Demo.embed_first Demo.docs = Done (index, metadata)
    /\ length index = 2%nat /\ length metadata = 26%nat
    /\ length index <> length metadata.
Proof.
  eexists; eexists. split; [vm_compute; reflexivity|].
  split; [reflexivity|]. split; [reflexivity|]. discriminate.
Qed.

(** *** Persisting the pair *)

(** C2, as the code has it: saving writes the index file and then the
    metadata file, each in place at its final path, where opening the
    file truncates it. In every state of the files during the call the
    metadata file holds what it held before unless the index file holds
    the complete new index; the states in which the index file is
    incomplete, in which the new index stands beside the old metadata,
    and in which it stands beside an incomplete metadata file all
    occur; and when the call is over the stored pair is the new pair.
    Without [save_index] no file is touched. *)
Theorem save_writes_index_then_metadata {Index : Type} (fs : Files Index)
    (index : Index) (metadata : list Meta) (debug : bool) :
  let states := observable fs (save_ops index metadata true debug) in
  (forall s, s ∈ states ->
     (index_file s = index_file fs /\ metadata_file s = metadata_file fs)
     \/ (index_file s = Torn /\ metadata_file s = metadata_file fs)
     \/ (index_file s = Stored index /\ metadata_file s = metadata_file fs)
     \/ (index_file s = Stored index /\ metadata_file s = Torn)
     \/ (index_file s = Stored index /\ metadata_file s = Stored metadata))
  /\ (exists s1 s2 s3,
        s1 ∈ states /\ s2 ∈ states /\ s3 ∈ states
        /\ (index_file s1 = Torn /\ metadata_file s1 = metadata_file fs)
        /\ (index_file s2 = Stored index /\ metadata_file s2 = metadata_file fs)
        /\ (index_file s3 = Stored index /\ metadata_file s3 = Torn))
  /\ (exists final, last states = Some final
        /\ load_index_and_meta final = Some (index, metadata))
  /\ observable fs (save_ops index metadata false debug) = [fs].
Proof.
  cbv zeta. split; [|split; [|split; [|done]]].
  - intros s Hs. destruct debug; cbn in Hs;
      repeat (apply elem_of_cons in Hs as [->|Hs]; [cbn; tauto|]);
      by apply elem_of_nil in Hs.
  - exists (apply_op fs OpenIndex),
           (apply_op (apply_op fs OpenIndex) (CloseIndex index)),
           (apply_op (apply_op (apply_op fs OpenIndex) (CloseIndex index)) OpenMetadata).
    destruct debug; cbn; repeat split; set_solver.
  - destruct debug; cbn; eexists; (split; [reflexivity|done]).
Qed.

(** C2, atomicity does not hold: while the new pair is saved over an
    old one, the files pass through a state from which a reader loads
    the new index together with the old metadata. *)
Lemma save_is_not_atomic :
  ~ (forall s,
       s ∈ observable Demo.old_files
             (save_ops Demo.new_index Demo.new_metadata true true) ->
       load_index_and_meta s = Some (Demo.old_index, Demo.old_metadata)
       \/ load_index_and_meta s = Some (Demo.new_index, Demo.new_metadata)).
Proof.
  intros H.
  destruct (H (apply_op (apply_op Demo.old_files OpenIndex)
                        (CloseIndex Demo.new_index))) as [Hs|Hs].
  - cbn. do 2 apply list_elem_of_further. apply list_elem_of_here.
  - discriminate Hs.
  - discriminate Hs.
Qed.

Example save_mixed_state :
  load_index_and_meta (apply_op (apply_op Demo.old_files OpenIndex)
                                (CloseIndex Demo.new_index))
  = Some (Demo.new_index, Demo.old_metadata).
Proof. reflexivity. Qed.

(** While a file is written a reader gets nothing. *)
Example save_torn_state :
  load_index_and_meta
    (apply_op (apply_op (apply_op Demo.old_files OpenIndex)
                        (CloseIndex Demo.new_index)) OpenMetadata)
  = None.
Proof. reflexivity. Qed.

End IndexBuilderFacts.

(** ** The stable descending sort *)

Module SortFacts.
Import Retriever.

Section Sort.

Context {A K : Type} (key : A -> K) (lt : K -> K -> bool).

Hypothesis lt_asym : forall a b, lt a b = true -> lt b a = false.
Hypothesis lt_negtrans : forall a b c, lt a b = false -> lt b c = false -> lt a c = false.

Local Abbreviation not_below := (Spec.not_below key lt).
Local Abbreviation tied := (Spec.tied key lt).

Lemma insert_desc_perm x l : insert_desc key lt x l ≡ₚ x :: l.
Proof.
  induction l as [|y l IH]; simpl; [done|].
  destruct (lt (key x) (key y)); [|done].
  rewrite IH. apply Permutation_swap.
Qed.

Lemma sort_reverse_perm l : sort_reverse key lt l ≡ₚ l.
Proof.
  induction l as [|x l IH]; simpl; [done|].
  by rewrite insert_desc_perm, IH.
Qed.

Lemma insert_desc_sorted x l :
  StronglySorted not_below l -> StronglySorted not_below (insert_desc key lt x l).
Proof.
  induction 1 as [|y l Hs IH Hy]; simpl.
  - repeat constructor.
  - destruct (lt (key x) (key y)) eqn:Hxy.
    + constructor; [done|].
      rewrite insert_desc_perm. constructor; [|done].
      by apply lt_asym.
    + constructor; [by constructor|].
      constructor; [done|].
      eapply Forall_impl; [exact Hy|]. intros z Hz. unfold Spec.not_below in *.
      by eapply lt_negtrans.
Qed.

Lemma sort_reverse_sorted l : StronglySorted not_below (sort_reverse key lt l).
Proof.
  induction l as [|x l IH]; simpl; [constructor|].
  by apply insert_desc_sorted.
Qed.

Lemma insert_desc_stable v x l :
  List.filter (tied v) (insert_desc key lt x l) = List.filter (tied v) (x :: l).
Proof.
  induction l as [|y l IH]; [done|].
  cbn [insert_desc]. destruct (lt (key x) (key y)) eqn:Hxy; [|done].
  cbn [List.filter] in *. rewrite IH.
  destruct (tied v x) eqn:Hx; [|done].
  destruct (tied v y) eqn:Hy; [|done].
  unfold Spec.tied in Hx, Hy.
  apply andb_true_iff in Hx as [_ Hx]. apply andb_true_iff in Hy as [Hy _].
  apply negb_true_iff in Hx, Hy.
  by rewrite (lt_negtrans _ _ _ Hx Hy) in Hxy.
Qed.

(** Elements with equal keys keep their relative order. *)
Lemma sort_reverse_stable v l :
  List.filter (tied v) (sort_reverse key lt l) = List.filter (tied v) l.
Proof.
  induction l as [|x l IH]; [done|].
  cbn [sort_reverse]. rewrite insert_desc_stable.
  cbn [List.filter]. by rewrite IH.
Qed.

End Sort.

(** *** The two orders the retriever sorts by *)

Lemma Qltb_lt x y : Qltb x y = true <-> (x < y)%Q.
Proof.
  unfold Qltb. rewrite negb_true_iff, <- not_true_iff_false, Qle_bool_iff.
  split; [apply Qnot_le_lt | apply Qlt_not_le].
Qed.

Lemma Qltb_ge x y : Qltb x y = false <-> (y <= x)%Q.
Proof. unfold Qltb. by rewrite negb_false_iff, Qle_bool_iff. Qed.

Lemma Qltb_asym a b : Qltb a b = true -> Qltb b a = false.
Proof. rewrite Qltb_lt, Qltb_ge. apply Qlt_le_weak. Qed.

Lemma Qltb_negtrans a b c : Qltb a b = false -> Qltb b c = false -> Qltb a c = false.
Proof. rewrite !Qltb_ge. intros H1 H2. by eapply Qle_trans. Qed.

Lemma tied_Qeq (q : Q) (r : Result) :
  Spec.tied score Qltb q r = Qeq_bool (score r) q.
Proof.
  unfold Spec.tied. apply eq_true_iff_eq.
  rewrite andb_true_iff, !negb_true_iff, !Qltb_ge, Qeq_bool_iff.
  split.
  - intros [H1 H2]. by apply Qle_antisym.
  - intros H. rewrite H. split; apply Qle_refl.
Qed.

Lemma ltb_asym (a b : nat) : (a <? b)%nat = true -> (b <? a)%nat = false.
Proof. rewrite Nat.ltb_lt, Nat.ltb_ge. lia. Qed.

Lemma ltb_negtrans (a b c : nat) :
  (a <? b)%nat = false -> (b <? c)%nat = false -> (a <? c)%nat = false.
Proof. rewrite !Nat.ltb_ge. lia. Qed.

End SortFacts.

(** ** Hybrid retriever *)

Module RetrieverFacts.
Import PyStr Spec PyFacts IndexBuilder Retriever SortFacts.

Lemma prefix_nonneg {A} (l : list A) (b : Z) :
  0 <= b -> Py.prefix l b = take (Z.to_nat b) l.
Proof. intros H. unfold Py.prefix. by destruct (Z.ltb_spec b 0); [lia|]. Qed.

Lemma prefix_all {A} (l : list A) (b : Z) :
  Z.of_nat (length l) <= b -> Py.prefix l b = l.
Proof. intros H. rewrite prefix_nonneg by lia. apply take_ge. lia. Qed.

Lemma prefix_subseteq {A} (l : list A) (b : Z) : Py.prefix l b ⊆ l.
Proof. unfold Py.prefix. destruct (b <? 0); apply subseteq_take. Qed.

Section Retrieve.

Variable MAX_RETRIEVALS : Z.
Variable lower : list N -> list N.
Variable isword : N -> bool.
Variable search : list N -> Z -> outcome (list (Q * Z)).

Local Abbreviation words_of := (Retriever.words_of lower isword).
Local Abbreviation _keyword_score := (Retriever._keyword_score lower isword).
Local Abbreviation lex_scores := (Retriever.lex_scores lower isword).
Local Abbreviation lexical_fallback := (Retriever.lexical_fallback lower isword).
Local Abbreviation retrieve := (Retriever.retrieve MAX_RETRIEVALS lower isword search).

(** The score counts the distinct tokens of the query that occur among
    the tokens of the text. *)
Lemma keyword_score_count query text :
  _keyword_score query text
  = length (filter (fun w => w ∈ findall_words isword [] (lower text))
                   (remove_dups (findall_words isword [] (lower query)))).
Proof.
  unfold Retriever._keyword_score, Retriever.words_of.
  set (A := findall_words isword [] (lower query)).
  set (B := findall_words isword [] (lower text)).
  rewrite <- (size_list_to_set (C := gset (list N)))
    by apply NoDup_filter, NoDup_remove_dups.
  f_equal. apply set_eq. intros w.
  rewrite elem_of_intersection, !elem_of_list_to_set, list_elem_of_filter,
    elem_of_remove_dups. tauto.
Qed.

(** *** The tokens that [findall] finds *)

Lemma word_run_whole (u w : list N) :
  Forall (fun c => isword c = true) u ->
  token isword u w <-> u <> [] /\ w = u.
Proof.
  intros Hu. split.
  - intros (Hne & Hw & pre & suf & Heq & Hpre & Hsuf).
    assert (pre = []) as ->.
    { destruct pre as [|x p _] using rev_ind; [done|]. exfalso.
      specialize (Hpre p x eq_refl). rewrite Forall_forall in Hu.
      rewrite (Hu x) in Hpre; [done|]. rewrite Heq. set_solver. }
    assert (suf = []) as ->.
    { destruct suf as [|x r]; [done|]. exfalso.
      specialize (Hsuf x r eq_refl). rewrite Forall_forall in Hu.
      rewrite (Hu x) in Hsuf; [done|]. rewrite Heq. set_solver. }
    cbn in Heq. rewrite app_nil_r in Heq. subst u. done.
  - intros [Hne ->]. split; [done|]. split; [done|].
    exists [], []. split; [by rewrite app_nil_r|]. split.
    + intros p c Heq. by destruct p.
    + done.
Qed.

Lemma token_after_word (u : list N) (c : N) (s w : list N) :
  Forall (fun x => isword x = true) u -> isword c = false ->
  token isword (u ++ c :: s) w <-> (u <> [] /\ w = u) \/ token isword s w.
Proof.
  intros Hu Hc. rewrite Forall_forall in Hu. split.
  - intros (Hne & Hw & pre & suf & Heq & Hpre & Hsuf).
    rewrite Forall_forall in Hw.
    assert (c ∉ w) as Hcw.
    { intros Hin. specialize (Hw c Hin). congruence. }
    apply app_eq_app in Heq as [l [[Hu_eq Hrest]|[Hpre_eq Hrest]]].
    + (* the token starts inside [u] *)
      left.
      assert (pre = []) as ->.
      { destruct pre as [|x p _] using rev_ind; [done|]. exfalso.
        specialize (Hpre p x eq_refl).
        rewrite (Hu x) in Hpre; [done|]. rewrite Hu_eq. set_solver. }
      cbn in Hu_eq. subst l.
      apply app_eq_app in Hrest as [l2 [[Hw_eq Hs]|[Hu_eq Hs]]].
      * destruct l2 as [|x l2].
        -- rewrite app_nil_r in Hw_eq. subst w. done.
        -- exfalso. injection Hs as <- _. apply Hcw. rewrite Hw_eq. set_solver.
      * destruct l2 as [|x l2].
        -- rewrite app_nil_r in Hu_eq. subst u. done.
        -- exfalso. specialize (Hsuf x _ Hs).
           rewrite (Hu x) in Hsuf; [done|]. rewrite Hu_eq. set_solver.
    + (* the token starts after [u] *)
      destruct l as [|x l].
      * exfalso. cbn in Hrest. destruct w as [|y w']; [done|].
        injection Hrest as <- _. apply Hcw. by left.
      * right. injection Hrest as <- Hs.
        split; [done|]. split; [by apply Forall_forall|].
        exists l, suf. split; [done|]. split; [|done].
        intros p y Hl. apply (Hpre (u ++ c :: p) y).
        rewrite Hpre_eq, Hl. by rewrite <- app_assoc.
  - intros [[Hne ->]|(Hne & Hw & pre & suf & -> & Hpre & Hsuf)].
    + split; [done|]. split; [by apply Forall_forall|].
      exists [], (c :: s). split; [done|]. split.
      * intros p y Heq. by destruct p.
      * by intros y r [= <- _].
    + split; [done|]. split; [done|].
      exists (u ++ c :: pre), suf. split; [by rewrite <- app_assoc|]. split; [|done].
      intros p y Heq. destruct pre as [|z pre' _] using rev_ind.
      * apply app_inj_tail in Heq as [_ <-]. done.
      * apply (Hpre pre' y).
        replace (u ++ c :: pre' ++ [z]) with ((u ++ c :: pre') ++ [z]) in Heq
          by (by rewrite <- app_assoc).
        apply app_inj_tail in Heq as [_ ->]. done.
Qed.

(** [findall] returns exactly the word tokens of the text. *)
Lemma findall_words_token (w : list N) (s : list N) : forall cur,
  Forall (fun c => isword c = true) cur ->
  w ∈ findall_words isword cur s <-> token isword (reverse cur ++ s) w.
Proof.
  induction s as [|c s IH]; intros cur Hcur.
  - rewrite app_nil_r, word_run_whole by by apply Forall_reverse.
    cbn [findall_words]. destruct cur as [|x cur'].
    + rewrite elem_of_nil. split; [done | by intros [? _]].
    + rewrite list_elem_of_singleton. split; [|by intros [_ ->]].
      intros ->. split; [|done]. rewrite reverse_cons. by destruct (reverse cur').
  - cbn [findall_words]. destruct (isword c) eqn:Hc.
    + rewrite IH by by constructor. by rewrite reverse_cons, <- app_assoc.
    + rewrite token_after_word by (by apply Forall_reverse || done).
      destruct cur as [|x cur'].
      * rewrite (IH [] ltac:(constructor)). cbn. split; [by right|].
        by intros [[? _]|?].
      * rewrite elem_of_cons, (IH [] ltac:(constructor)). cbn [reverse app].
        split.
        -- intros [->|Ht]; [left|by right]. split; [|done].
           rewrite reverse_cons. by destruct (reverse cur').
        -- intros [[_ ->]|Ht]; [by left | by right].
Qed.

(** The score is the number of distinct word tokens shared by the
    lower-cased query and the lower-cased text. *)
Lemma keyword_score_shared query text :
  shared_tokens lower isword query text (_keyword_score query text).
Proof.
  exists (elements (words_of query ∩ words_of text)).
  split; [apply NoDup_elements|]. split; [done|].
  intros w. unfold Retriever.words_of.
  rewrite elem_of_elements, elem_of_intersection, !elem_of_list_to_set.
  by rewrite !(findall_words_token w _ [] ltac:(constructor)).
Qed.

Lemma semantic_spec metadata hits : forall results,
  semantic hits metadata results = Done (results ++ valid_results metadata hits).
Proof.
  induction hits as [|[sc idx] hits IH]; intros results; simpl.
  - by rewrite app_nil_r.
  - unfold in_range. simpl.
    destruct (Z.ltb_spec idx 0) as [Hneg|Hpos]; simpl.
    + destruct (Z.leb_spec 0 idx); [lia|]. simpl. apply IH.
    + destruct (Z.leb_spec (Z.of_nat (length metadata)) idx) as [Hhi|Hlo]; simpl.
      * destruct (Z.leb_spec 0 idx); [|lia].
        destruct (Z.ltb_spec idx (Z.of_nat (length metadata))); [lia|]. simpl. apply IH.
      * destruct (Z.leb_spec 0 idx); [|lia].
        destruct (Z.ltb_spec idx (Z.of_nat (length metadata))); [|lia]. simpl.
        destruct (getitem_in_range metadata idx) as (m & Hm & ->); [lia|].
        simpl. rewrite Hm. simpl. rewrite IH. by rewrite <- app_assoc.
Qed.

Lemma valid_results_elem metadata hits r :
  r ∈ valid_results metadata hits <->
  exists sc idx m,
    (sc, idx) ∈ hits /\ 0 <= idx < Z.of_nat (length metadata)
    /\ metadata !! Z.to_nat idx = Some m /\ r = result_of sc m.
Proof.
  unfold valid_results. rewrite list_elem_of_omap. split.
  - intros ([sc idx] & Hin & Hr). simpl in Hr. unfold in_range in Hr.
    destruct (Z.leb_spec 0 idx); simpl in Hr; [|done].
    destruct (Z.ltb_spec idx (Z.of_nat (length metadata))); simpl in Hr; [|done].
    destruct (metadata !! Z.to_nat idx) as [m|] eqn:Hm; simpl in Hr; [|done].
    injection Hr as <-. by exists sc, idx, m.
  - intros (sc & idx & m & Hin & Hr & Hm & ->). exists (sc, idx). split; [done|].
    simpl. unfold in_range.
    destruct (Z.leb_spec 0 idx); [|lia].
    destruct (Z.ltb_spec idx (Z.of_nat (length metadata))); [|lia].
    simpl. by rewrite Hm.
Qed.

(** When the search gives its hits best first, the first valid result
    holds the best score. *)
Lemma valid_results_top metadata hits :
  StronglySorted (fun a b => (b.1 <= a.1)%Q) hits ->
  forall r, r ∈ valid_results metadata hits ->
    (score r <= top_score (valid_results metadata hits))%Q.
Proof.
  induction 1 as [|h hits Hs IH Hh]; intros r Hr.
  - by apply elem_of_nil in Hr.
  - unfold valid_results in *. simpl in *.
    destruct (if in_range metadata h.2
              then result_of h.1 <$> metadata !! Z.to_nat h.2 else None)
      as [r0|] eqn:Hr0; [|by apply IH].
    assert (score r0 = h.1) as Hsc.
    { destruct (in_range metadata h.2); [|done].
      destruct (metadata !! Z.to_nat h.2); [|done].
      simpl in Hr0. by injection Hr0 as <-. }
    simpl. apply elem_of_cons in Hr as [->|Hr]; [apply Qle_refl|].
    apply valid_results_elem in Hr as (sc & idx & m & Hin & _ & _ & ->).
    rewrite Hsc. simpl. rewrite Forall_forall in Hh. by apply (Hh (sc, idx)).
Qed.

Lemma lex_scores_spec query metadata :
  lex_scores query metadata
  = (fun m => (_keyword_score query (text m), m))
      <$> filter (fun m => (0 < _keyword_score query (text m))%nat) metadata.
Proof.
  induction metadata as [|m metadata IH]; simpl; [done|].
  rewrite filter_cons. destruct (Nat.ltb_spec 0 (_keyword_score query (text m))).
  - rewrite decide_True by done. simpl. by rewrite IH.
  - rewrite decide_False by lia. done.
Qed.

Lemma add_lexical_spec (lexical_k : Z) (keys : gset (list N * Z)) cands :
  forall (added : Z) (results : list Result),
    Z.of_nat (length cands) + added <= lexical_k ->
    add_lexical lexical_k keys cands added results
    = results ++ (lexical_result
                    <$> filter (fun c => (doc_id c.2, chunk_id c.2) ∉ keys) cands).
Proof.
  induction cands as [|[sc m] cands IH]; intros added results Hk; simpl.
  - by rewrite app_nil_r.
  - rewrite filter_cons. simpl.
    destruct (decide ((doc_id m, chunk_id m) ∈ keys)) as [Hin|Hout].
    + rewrite decide_False by (intros H; by apply H). apply IH. simpl in Hk. lia.
    + rewrite decide_True by done. simpl in Hk |- *.
      destruct (Z.leb_spec lexical_k (added + 1)).
      * destruct cands; [done | simpl in Hk; lia].
      * rewrite IH by lia. by rewrite <- app_assoc.
Qed.

Lemma add_lexical_elem (lexical_k : Z) (keys : gset (list N * Z)) cands r :
  forall (added : Z) (results : list Result),
    r ∈ add_lexical lexical_k keys cands added results ->
    r ∈ results \/ exists c, c ∈ cands /\ r = lexical_result c.
Proof.
  induction cands as [|[sc m] cands IH]; intros added results Hr; simpl in Hr.
  - by left.
  - destruct (decide ((doc_id m, chunk_id m) ∈ keys)).
    + apply IH in Hr as [Hr|(c & Hc & ->)]; [by left|].
      right. exists c. split; [by apply list_elem_of_further | done].
    + assert (r ∈ results ++ [result_of (pseudo_score sc) m] ->
              r ∈ results \/ exists c, c ∈ (sc, m) :: cands /\ r = lexical_result c) as Hone.
      { intros H. apply elem_of_app in H as [H|H]; [by left|].
        apply list_elem_of_singleton in H as ->. right. exists (sc, m).
        split; [apply list_elem_of_here | done]. }
      destruct (lexical_k <=? added + 1); [by apply Hone|].
      apply IH in Hr as [Hr|(c & Hc & ->)]; [by apply Hone|].
      right. exists c. split; [by apply list_elem_of_further | done].
Qed.

Lemma lexical_fallback_spec query metadata lexical_k results :
  0 <= lexical_k ->
  lexical_fallback query metadata lexical_k results
  = results
    ++ (lexical_result
          <$> filter (fun c => (doc_id c.2, chunk_id c.2) ∉ key_of <$> results)
                (take (Z.to_nat lexical_k)
                   (sort_reverse fst Nat.ltb (lex_scores query metadata)))).
Proof.
  intros Hk. unfold Retriever.lexical_fallback.
  rewrite prefix_nonneg by done.
  rewrite add_lexical_spec by (rewrite length_take; lia).
  do 2 f_equal. apply list_filter_iff. intros c.
  by rewrite elem_of_list_to_set.
Qed.

Lemma lexical_fallback_elem query metadata lexical_k results r :
  r ∈ lexical_fallback query metadata lexical_k results ->
  r ∈ results
  \/ exists m, m ∈ metadata
      /\ (0 < _keyword_score query (text m))%nat
      /\ r = result_of (pseudo_score (_keyword_score query (text m))) m.
Proof.
  unfold Retriever.lexical_fallback. intros Hr.
  apply add_lexical_elem in Hr as [Hr|(c & Hc & ->)]; [by left|]. right.
  apply prefix_subseteq in Hc.
  rewrite (sort_reverse_perm fst Nat.ltb) in Hc.
  rewrite lex_scores_spec in Hc.
  apply list_elem_of_fmap in Hc as (m & -> & Hm).
  apply list_elem_of_filter in Hm as [Hpos Hm]. by exists m.
Qed.

Lemma retrieve_unfold query metadata k lexical_k sim_threshold hits :
  search query (Py.or_default k MAX_RETRIEVALS) = Done hits ->
  retrieve query metadata k lexical_k sim_threshold
  = Done (sort_reverse score Qltb
            (merged lower isword query metadata lexical_k sim_threshold
                    (valid_results metadata hits))).
Proof.
  intros Hs. unfold Retriever.retrieve. rewrite Hs. simpl.
  rewrite semantic_spec. simpl. f_equal. apply prefix_all. lia.
Qed.

Lemma snd_lex_scores query metadata :
  snd <$> lex_scores query metadata
  = filter (fun m => (0 < _keyword_score query (text m))%nat) metadata.
Proof.
  rewrite lex_scores_spec, <- list_fmap_compose.
  rewrite <- (list_fmap_id (filter _ metadata)) at 2. done.
Qed.

(** Records with distinct keys give additions with distinct keys. *)
Lemma chosen_keys_NoDup query metadata (n : nat) (P : nat * Meta -> Prop)
    `{!forall c, Decision (P c)} :
  NoDup (meta_key <$> metadata) ->
  NoDup (key_of <$> (lexical_result
           <$> filter P (take n (sort_reverse fst Nat.ltb (lex_scores query metadata))))).
Proof.
  intros Hnd. rewrite <- list_fmap_compose.
  change (key_of ∘ lexical_result) with (meta_key ∘ (snd : nat * Meta -> Meta)).
  rewrite list_fmap_compose.
  assert (snd <$> filter P (take n (sort_reverse fst Nat.ltb (lex_scores query metadata)))
          ⊆+ metadata) as Hsub.
  { transitivity (snd <$> lex_scores query metadata).
    - apply fmap_submseteq.
      rewrite <- (sort_reverse_perm fst Nat.ltb (lex_scores query metadata)) at 2.
      apply sublist_submseteq.
      transitivity (take n (sort_reverse fst Nat.ltb (lex_scores query metadata)));
        [apply sublist_filter | apply sublist_take].
    - rewrite snd_lex_scores. apply sublist_submseteq, sublist_filter. }
  apply (fmap_submseteq meta_key) in Hsub.
  apply submseteq_Permutation in Hsub as [rest Hrest].
  rewrite Hrest in Hnd. by apply NoDup_app in Hnd as [Hnd _].
Qed.

Lemma sorted_by_score l :
  StronglySorted (not_below score Qltb) l ->
  StronglySorted (fun a b => (score b <= score a)%Q) l.
Proof.
  induction 1 as [|x l Hs IH Hx]; constructor; [done|].
  eapply Forall_impl; [exact Hx|]. intros y Hy. by apply Qltb_ge.
Qed.

Lemma sorted_by_count (l : list (nat * Meta)) :
  StronglySorted (not_below fst Nat.ltb) l ->
  StronglySorted (fun a b => (b.1 <= a.1)%nat) l.
Proof.
  induction 1 as [|x l Hs IH Hx]; constructor; [done|].
  eapply Forall_impl; [exact Hx|]. intros y Hy. by apply Nat.ltb_ge.
Qed.

(** X23: the fallback runs exactly when the score of
    the first semantic result, the best one when the search lists its
    hits best first (0 if there is none), is below the threshold. It
    scores every record by the number of distinct word tokens, maximal
    runs of word characters, that the lower-cased query and the
    lower-cased text share, ranks the records with a positive score in
    descending order, and of the first [lexical_k] of them adds those
    whose (doc_id, chunk_id) is not the key of a semantic result, with
    score count/100. The returned list holds exactly the results found,
    with their scores, in descending order of score, results of equal
    score in the order they were found; and it repeats no key when the
    semantic results and the metadata repeat none. *)
Theorem retrieve_hybrid query metadata k lexical_k sim_threshold hits :
  search query (Py.or_default k MAX_RETRIEVALS) = Done hits ->
  StronglySorted (fun a b => (b.1 <= a.1)%Q) hits ->
  0 <= lexical_k ->
  let sem := valid_results metadata hits in
  let ranked := sort_reverse fst Nat.ltb (lex_scores query metadata) in
  let chosen :=
    filter (fun c => (doc_id c.2, chunk_id c.2) ∉ key_of <$> sem)
           (take (Z.to_nat lexical_k) ranked) in
  let found :=
    if Qlt_le_dec (top_score sem) sim_threshold
    then sem ++ (lexical_result <$> chosen) else sem in
  (forall r, r ∈ sem -> (score r <= top_score sem)%Q)
  /\ (forall m, shared_tokens lower isword query (text m)
                              (_keyword_score query (text m)))
  /\ lex_scores query metadata
      = (fun m => (_keyword_score query (text m), m))
          <$> filter (fun m => (0 < _keyword_score query (text m))%nat) metadata
  /\ ranked ≡ₚ lex_scores query metadata
  /\ StronglySorted (fun a b => (b.1 <= a.1)%nat) ranked
  /\ exists results,
       retrieve query metadata k lexical_k sim_threshold = Done results
       /\ results ≡ₚ found
       /\ StronglySorted (fun a b => (score b <= score a)%Q) results
       /\ (forall q,
            List.filter (fun r => Qeq_bool (score r) q) results
            = List.filter (fun r => Qeq_bool (score r) q) found)
       /\ (NoDup (key_of <$> sem) -> NoDup (meta_key <$> metadata) ->
           NoDup (key_of <$> results)).
Proof.
  intros Hs Hsorted Hk sem ranked chosen found.
  split; [by apply valid_results_top|].
  split; [intros m; apply keyword_score_shared|].
  split; [apply lex_scores_spec|].
  split; [apply sort_reverse_perm|].
  split; [apply sorted_by_count, sort_reverse_sorted;
          [apply ltb_asym | apply ltb_negtrans]|].
  rewrite (retrieve_unfold query metadata k lexical_k sim_threshold hits Hs).
  fold sem.
  assert (merged lower isword query metadata lexical_k sim_threshold sem = found) as ->.
  { unfold merged, found. destruct (Qlt_le_dec (top_score sem) sim_threshold) as [Hlt|Hge].
    - apply Qltb_lt in Hlt. rewrite Hlt. by apply lexical_fallback_spec.
    - apply Qltb_ge in Hge. by rewrite Hge. }
  eexists. split; [done|].
  split; [apply sort_reverse_perm|].
  split; [apply sorted_by_score, sort_reverse_sorted;
          [apply Qltb_asym | apply Qltb_negtrans]|].
  split.
  - intros q.
    rewrite <- !(List.filter_ext _ _ (tied_Qeq q)).
    apply (sort_reverse_stable score Qltb Qltb_negtrans q found).
  - intros Hsem Hmeta. rewrite (sort_reverse_perm score Qltb).
    unfold found. destruct (Qlt_le_dec (top_score sem) sim_threshold); [|done].
    rewrite fmap_app. apply NoDup_app. split; [done|]. split.
    + intros key Hkey Hin.
      apply list_elem_of_fmap in Hin as (r & -> & Hr).
      apply list_elem_of_fmap in Hr as (c & -> & Hc).
      apply list_elem_of_filter in Hc as [Hc _]. by apply Hc.
    + by apply chosen_keys_NoDup.
Qed.

(** C8: a hit whose index is negative or not below the length of the
    metadata is skipped and the metadata is never read out of range: the
    semantic results are those of the hits in range, and every returned
    result is one of them or was made by the fallback from a record of
    the metadata. *)
Theorem retrieve_discards_out_of_range query metadata k lexical_k sim_threshold hits :
  search query (Py.or_default k MAX_RETRIEVALS) = Done hits ->
  semantic hits metadata [] = Done (valid_results metadata hits)
  /\ (forall r, r ∈ valid_results metadata hits <->
        exists sc idx m,
          (sc, idx) ∈ hits /\ 0 <= idx < Z.of_nat (length metadata)
          /\ metadata !! Z.to_nat idx = Some m /\ r = result_of sc m)
  /\ exists results,
       retrieve query metadata k lexical_k sim_threshold = Done results
       /\ forall r, r ∈ results ->
            r ∈ valid_results metadata hits
            \/ exists m, m ∈ metadata
                /\ (0 < _keyword_score query (text m))%nat
                /\ r = result_of (pseudo_score (_keyword_score query (text m))) m.
Proof.
  intros Hs. split; [apply (semantic_spec metadata hits [])|].
  split; [intros r; apply valid_results_elem|].
  rewrite (retrieve_unfold query metadata k lexical_k sim_threshold hits Hs).
  eexists. split; [done|]. intros r Hr.
  rewrite (sort_reverse_perm score Qltb) in Hr. unfold merged in Hr.
  destruct (Qltb _ _); [|by left].
  by apply lexical_fallback_elem in Hr.
Qed.

Lemma valid_results_none metadata hits :
  Forall (fun h => in_range metadata h.2 = false) hits ->
  valid_results metadata hits = [].
Proof.
  unfold valid_results. induction 1 as [|h hits Hh Hall IH]; simpl; [done|].
  by rewrite Hh.
Qed.

Lemma lex_scores_none query metadata :
  (forall m, m ∈ metadata -> _keyword_score query (text m) = 0%nat) ->
  lex_scores query metadata = [].
Proof.
  intros H. induction metadata as [|m metadata IH]; simpl; [done|].
  rewrite (H m) by apply list_elem_of_here. simpl.
  apply IH. intros m' Hm'. by apply H, list_elem_of_further.
Qed.

(** C10: when no hit of the search is a position of the metadata there
    is no semantic result and the best score counts as 0, which is below
    the default threshold 0.18; so for that threshold, as for any
    positive one, what [retrieve] returns is the sorted outcome of the
    lexical fallback; when moreover no record shares a word with the
    query, it returns the empty list and raises nothing. *)
Theorem retrieve_without_semantic_results query metadata k lexical_k sim_threshold hits :
  search query (Py.or_default k MAX_RETRIEVALS) = Done hits ->
  Forall (fun h => in_range metadata h.2 = false) hits ->
  (0 < sim_threshold)%Q ->
  semantic hits metadata [] = Done []
  /\ top_score [] = 0%Q
  /\ (top_score [] < default_sim_threshold)%Q
  /\ retrieve query metadata k lexical_k sim_threshold
      = Done (sort_reverse score Qltb (lexical_fallback query metadata lexical_k []))
  /\ ((forall m, m ∈ metadata -> _keyword_score query (text m) = 0%nat) ->
      retrieve query metadata k lexical_k sim_threshold = Done []).
Proof.
  intros Hs Hnone Hthr.
  pose proof (valid_results_none metadata hits Hnone) as Hv.
  split; [by rewrite (semantic_spec metadata hits []), Hv|].
  split; [done|]. split; [done|].
  rewrite (retrieve_unfold query metadata k lexical_k sim_threshold hits Hs).
  rewrite Hv. unfold merged. simpl top_score.
  apply Qltb_lt in Hthr. rewrite Hthr. split; [done|].
  intros Hzero.
  unfold Retriever.lexical_fallback. rewrite (lex_scores_none query metadata Hzero).
  simpl sort_reverse at 2.
  assert (Py.prefix (@nil (nat * Meta)) lexical_k = []) as ->.
  { unfold Py.prefix. destruct (lexical_k <? 0); apply take_nil. }
  done.
Qed.

End Retrieve.

Lemma demo_hits_sorted : StronglySorted (fun a b => (b.1 <= a.1)%Q) Demo.hits.
Proof. repeat constructor; unfold Qle; simpl; lia. Qed.

Lemma retrieve_hybrid_witness :
  let sem := valid_results Demo.metadata Demo.hits in
  let ranked :=
    sort_reverse fst Nat.ltb
      (lex_scores ascii_lower ascii_isword Demo.query Demo.metadata) in
  let chosen :=
    filter (fun c => (doc_id c.2, chunk_id c.2) ∉ key_of <$> sem)
           (take (Z.to_nat 10) ranked) in
  let found :=
    if Qlt_le_dec (top_score sem) default_sim_threshold
    then sem ++ (lexical_result <$> chosen) else sem in
  (forall r, r ∈ sem -> (score r <= top_score sem)%Q)
  /\ (forall m, shared_tokens ascii_lower ascii_isword Demo.query (text m)
                  (_keyword_score ascii_lower ascii_isword Demo.query (text m)))
  /\ lex_scores ascii_lower ascii_isword Demo.query Demo.metadata
      = (fun m => (_keyword_score ascii_lower ascii_isword Demo.query (text m), m))
          <$> filter (fun m => (0 < _keyword_score ascii_lower ascii_isword
                                     Demo.query (text m))%nat) Demo.metadata
  /\ ranked ≡ₚ lex_scores ascii_lower ascii_isword Demo.query Demo.metadata
  /\ StronglySorted (fun a b => (b.1 <= a.1)%nat) ranked
  /\ exists results,
       Demo.retrieve Demo.query Demo.metadata None 10 default_sim_threshold
         = Done results
       /\ results ≡ₚ found
       /\ StronglySorted (fun a b => (score b <= score a)%Q) results
       /\ (forall q,
            List.filter (fun r => Qeq_bool (score r) q) results
            = List.filter (fun r => Qeq_bool (score r) q) found)
       /\ (NoDup (key_of <$> sem) -> NoDup (meta_key <$> Demo.metadata) ->
           NoDup (key_of <$> results)).
Proof.
  apply (retrieve_hybrid 6 ascii_lower ascii_isword Demo.search Demo.query
           Demo.metadata None 10 default_sim_threshold Demo.hits).
  - reflexivity.
  - exact demo_hits_sorted.
  - lia.
Defined.

(** C6: the lexical results are not deduplicated by (doc_id, chunk_id).
    The keys of the semantic results are collected once, in line 62,
    and the results added by the loop of lines 63-75 are never added to
    them; so of two records of the metadata that share their key, here
    as built from two uploaded files of one name, both are returned,
    against the comment of line 60 (add into results if not already
    present). *)
Theorem retrieve_repeats_key :
  Demo.retrieve_nothing (lit "reports") Demo.twin_metadata None 10
    default_sim_threshold
  = Done (result_of (1 # 100) <$> Demo.twin_metadata)
  /\ key_of <$> (result_of (1 # 100) <$> Demo.twin_metadata)
     = [(lit "policy.txt", 0); (lit "policy.txt", 0)]
  /\ ~ NoDup (key_of <$> (result_of (1 # 100) <$> Demo.twin_metadata)).
Proof.
  split; [vm_compute; reflexivity|]. split; [reflexivity|].
  intros H. apply NoDup_cons in H as [H _]. apply H. by left.
Qed.

Lemma retrieve_discards_out_of_range_witness :
  semantic Demo.hits Demo.metadata [] = Done (valid_results Demo.metadata Demo.hits)
  /\ (forall r, r ∈ valid_results Demo.metadata Demo.hits <->
        exists sc idx m,
          (sc, idx) ∈ Demo.hits /\ 0 <= idx < Z.of_nat (length Demo.metadata)
          /\ Demo.metadata !! Z.to_nat idx = Some m /\ r = result_of sc m)
  /\ exists results,
       Demo.retrieve Demo.query Demo.metadata None 10 default_sim_threshold
         = Done results
       /\ forall r, r ∈ results ->
            r ∈ valid_results Demo.metadata Demo.hits
            \/ exists m, m ∈ Demo.metadata
                /\ (0 < _keyword_score ascii_lower ascii_isword Demo.query (text m))%nat
                /\ r = result_of
                         (pseudo_score (_keyword_score ascii_lower ascii_isword
                                          Demo.query (text m))) m.
Proof.
  apply (retrieve_discards_out_of_range 6 ascii_lower ascii_isword Demo.search
           Demo.query Demo.metadata None 10 default_sim_threshold Demo.hits).
  reflexivity.
Defined.

Lemma retrieve_without_semantic_results_witness :
  semantic Demo.no_hits Demo.metadata [] = Done []
  /\ top_score [] = 0%Q
  /\ (top_score [] < default_sim_threshold)%Q
  /\ Demo.retrieve_nothing Demo.query Demo.metadata None 10 default_sim_threshold
      = Done (sort_reverse score Qltb
                (lexical_fallback ascii_lower ascii_isword Demo.query Demo.metadata 10 []))
  /\ ((forall m, m ∈ Demo.metadata ->
         _keyword_score ascii_lower ascii_isword Demo.query (text m) = 0%nat) ->
      Demo.retrieve_nothing Demo.query Demo.metadata None 10 default_sim_threshold
        = Done []).
Proof.
  apply (retrieve_without_semantic_results 6 ascii_lower ascii_isword
           Demo.search_nothing Demo.query Demo.metadata None 10
           default_sim_threshold Demo.no_hits).
  - reflexivity.
  - repeat constructor.
  - reflexivity.
Defined.

Example retrieve_weak_semantic_hit :
  (fun r => (score r, r_doc_id r, r_chunk_id r))
    <$> match Demo.retrieve Demo.query Demo.metadata None 10 default_sim_threshold with
        | Done results => results
        | _ => []
        end
  = [(10 # 100, lit "travel.txt", 0); (2 # 100, lit "expenses.txt", 0);
     (1 # 100, lit "expenses.txt", 1)].
Proof. vm_compute. reflexivity. Qed.

Example retrieve_nothing_found :
  Demo.retrieve_nothing (lit "zzz") Demo.metadata None 10 default_sim_threshold = Done [].
Proof. vm_compute. reflexivity. Qed.

End RetrieverFacts.

(** ** Repeated header removal *)

Module NormalizerFacts.
Import PyStr Spec Normalizer.








(** C5: two inputs on which header removal departs from its own
    description. A line that merely contains a repeated line is removed
    although it stands on one page only (first equation: ACME is on
    pages 1 and 2, and the only line of page 3 goes with it); and a line
    that stands twice on a single page counts as repeated (second
    equation). *)
Theorem remove_repeated_headers_overreach :
  _remove_repeated_headers
    [join [NEWLINE] [lit "ACME"; lit "First page text"];
     join [NEWLINE] [lit "ACME"; lit "Second"];
     lit "ACME Corp was founded."]
  = lit "First page text" ++ [NEWLINE; NEWLINE] ++ lit "Second" ++ [NEWLINE; NEWLINE]
  /\ _remove_repeated_headers [join [NEWLINE] [lit "Note"; lit "Note"; lit "body"]]
     = lit "body".
Proof. split; vm_compute; reflexivity. Qed.

(** The scenario of the confidentiality banner: the line stands on each
    of the three pages and is gone from the text. *)
Example remove_repeated_headers_banner :
  let banner := lit "INTERNAL " ++ [8212%N] ++ lit " CONFIDENTIAL" in
  _remove_repeated_headers
    [join [NEWLINE] [banner; lit "Alpha."];
     join [NEWLINE] [banner; lit "Beta."];
     join [NEWLINE] [banner; lit "Gamma."]]
  = join [NEWLINE; NEWLINE] [lit "Alpha."; lit "Beta."; lit "Gamma."].
Proof. vm_compute. reflexivity. Qed.

End NormalizerFacts.

(** ** Sentence segmenter: what the sentences keep of the text *)

Module SegmenterMore.
Import PyStr Spec SpecMore PyStrFacts Segmenter SegmenterFacts.

Lemma lstrip_head_id c r : isspace c = false -> lstrip (c :: r) = c :: r.
Proof. intros H. simpl. by rewrite H. Qed.

Lemma strip_trimmed p : trimmed p -> strip p = p.
Proof.
  intros [(c & r & -> & Hc) (r' & c' & Heq & Hc')].
  unfold strip, rstrip. rewrite (lstrip_head_id c r Hc), Heq.
  rewrite reverse_app. simpl. rewrite Hc'. simpl.
  by rewrite reverse_cons, reverse_involutive.
Qed.

Lemma trimmed_not_nil p : trimmed p -> p <> [].
Proof. by intros [(c & r & -> & _) _]. Qed.

Lemma strip_nil_or_trimmed s : strip s = [] \/ trimmed (strip s).
Proof.
  unfold strip, rstrip.
  destruct (lstrip (reverse (lstrip s))) as [|c v] eqn:Hv; [by left|]. right.
  pose proof (lstrip_head _ _ _ Hv) as Hc.
  destruct (lstrip_suffix (reverse (lstrip s))) as (pre & Heq & _).
  rewrite Hv in Heq. apply (f_equal reverse) in Heq.
  rewrite reverse_involutive, reverse_app in Heq.
  split.
  - destruct (reverse (c :: v)) as [|d w] eqn:Hd.
    { apply (f_equal length) in Hd. rewrite length_reverse in Hd. done. }
    exists d, w. split; [done|]. simpl in Heq.
    by apply (lstrip_head s d (w ++ reverse pre)).
  - exists (reverse v), c. split; [by rewrite reverse_cons | done].
Qed.

Lemma whitespace_only_collapse b s :
  whitespace_only (collapse_ws b s) = whitespace_only s.
Proof.
  revert b. unfold whitespace_only. induction s as [|c s IH]; intros b; simpl; [done|].
  destruct (isspace c) eqn:Hc.
  - destruct b; simpl; rewrite IH; done.
  - simpl. by rewrite Hc.
Qed.

Lemma collapse_spaces_only b s : spaces_only (collapse_ws b s).
Proof.
  revert b. induction s as [|c s IH]; intros b; simpl; [constructor|].
  destruct (isspace c) eqn:Hc.
  - destruct b; [apply IH|]. constructor; [done | apply IH].
  - constructor; [congruence | apply IH].
Qed.

Lemma normalized_spaces_only text : spaces_only (strip (sub_ws text)).
Proof.
  pose proof (collapse_spaces_only false text) as H. fold (sub_ws text) in H.
  destruct (lstrip_suffix (sub_ws text)) as (pre & Heq & _).
  rewrite Heq in H. apply Forall_app in H as [_ H].
  unfold strip. destruct (rstrip_prefix (lstrip (sub_ws text))) as (suf & Heq' & _).
  rewrite Heq' in H. by apply Forall_app in H as [H _].
Qed.

Lemma terminal_not_space c : is_terminal c = true -> isspace c = false.
Proof.
  unfold is_terminal. intros H.
  repeat (apply orb_true_iff in H as [H|H]); apply N.eqb_eq in H as ->; done.
Qed.

Section Cut.

Variable ahead : option N -> bool.
Variable t : list N.
Hypothesis t_single : single_spaced t.
Hypothesis t_trimmed : trimmed t.

Lemma cut_go_trimmed s : forall pre q,
  t = pre ++ s ->
  (exists pre0, pre = pre0 ++ q) ->
  (q = [] -> exists c s', s = c :: s' /\ isspace c = false) ->
  (q <> [] -> exists c r, q = c :: r /\ isspace c = false) ->
  Forall trimmed (cut_go (boundary ahead t) (length pre) (reverse q) s).
Proof.
  induction s as [|c s IH]; intros pre q Heq [pre0 Hpre] Hnil Hhead; simpl.
  - rewrite reverse_involutive. constructor; [|constructor].
    destruct (decide (q = [])) as [->|Hq]; [by destruct (Hnil eq_refl) as (? & ? & ? & _)|].
    split; [by apply Hhead|].
    destruct (exists_last Hq) as (q' & c' & ->).
    destruct t_trimmed as [_ (r & d & Ht & Hd)].
    rewrite app_nil_r in Heq. rewrite Heq, Hpre, app_assoc in Ht.
    apply app_inj_tail in Ht as [_ ->]. by exists q', d.
  - rewrite Heq at 1. rewrite boundary_at.
    assert (t = (pre ++ [c]) ++ s) as Heq' by (by rewrite <- app_assoc).
    specialize (IH (pre ++ [c])). rewrite length_app in IH. simpl in IH.
    rewrite Nat.add_1_r in IH.
    destruct (from_option is_terminal false (last pre) && isspace c && ahead (s !! 0%nat))
      eqn:Hb.
    + apply andb_true_iff in Hb as [Hb _]. apply andb_true_iff in Hb as [Hterm Hc].
      destruct (decide (q = [])) as [->|Hq].
      { destruct (Hnil eq_refl) as (c0 & s0 & [= <- <-] & Hc0). congruence. }
      rewrite reverse_involutive. constructor.
      * split; [by apply Hhead|].
        destruct (exists_last Hq) as (q' & c' & ->).
        exists q', c'. split; [done|].
        rewrite Hpre, app_assoc, last_snoc in Hterm. simpl in Hterm.
        by apply terminal_not_space.
      * apply (IH [] Heq'); [by exists (pre ++ [c]); rewrite app_nil_r | | done].
        intros _. destruct s as [|d s'].
        { destruct t_trimmed as [_ (r & e & Ht & He)].
          rewrite Heq in Ht. apply app_inj_tail in Ht as [_ ->]. congruence. }
        exists d, s'. split; [done|].
        rewrite Heq in t_single. apply single_spaced_app_r in t_single.
        simpl in t_single. destruct t_single as [Hadj _].
        destruct (isspace d); [|done]. by destruct Hadj.
    + change (c :: reverse q) with ([c] ++ reverse q).
      replace ([c] ++ reverse q) with (reverse (q ++ [c]))
        by (by rewrite reverse_app).
      apply (IH (q ++ [c]) Heq').
      * exists pre0. by rewrite Hpre, app_assoc.
      * intros H. by destruct q.
      * intros _. destruct (decide (q = [])) as [->|Hq].
        -- destruct (Hnil eq_refl) as (c0 & s0 & [= <- <-] & Hc0). by exists c, [].
        -- destruct (Hhead Hq) as (c0 & r & -> & Hc0). by exists c0, (r ++ [c]).
Qed.

Lemma cut_at_trimmed : Forall trimmed (cut_at (boundary ahead t) t).
Proof.
  apply (cut_go_trimmed t [] []); [done | by exists [] | | done].
  intros _. by destruct t_trimmed as [(c & r & -> & Hc) _]; exists c, r.
Qed.

End Cut.

Lemma trim_nonempty_id parts : Forall trimmed parts -> trim_nonempty parts = parts.
Proof.
  unfold trim_nonempty. induction 1 as [|p parts Hp Hall IH]; [done|].
  rewrite filter_cons, decide_True.
  - rewrite fmap_cons, IH. by rewrite strip_trimmed.
  - rewrite strip_trimmed by done. by apply trimmed_not_nil.
Qed.

Lemma cut_at_normalized ahead text :
  strip (sub_ws text) <> [] ->
  let t := strip (sub_ws text) in
  trim_nonempty (cut_at (boundary ahead t) t) = cut_at (boundary ahead t) t
  /\ join [SPACE] (cut_at (boundary ahead t) t) = t.
Proof.
  intros Hne t. split.
  - apply trim_nonempty_id, cut_at_trimmed; [apply normalized_single_spaced|].
    by destruct (strip_nil_or_trimmed (sub_ws text)).
  - apply (cut_go_join (boundary ahead t) t) with (pre := []) (cur := []); [|done].
    intros i c Hc Hb.
    pose proof (normalized_spaces_only text) as Hsp. fold t in Hsp.
    unfold spaces_only in Hsp. rewrite Forall_forall in Hsp. apply Hsp; [by eapply list_elem_of_lookup_2|].
    destruct i as [|i]; [done|]. simpl in Hb.
    rewrite Hc in Hb. simpl in Hb.
    apply andb_true_iff in Hb as [Hb _]. by apply andb_true_iff in Hb as [_ Hb].
Qed.

Lemma split_into_sentences_joined (text : list N) :
  join [SPACE] (_split_into_sentences text) = strip (sub_ws text)
  /\ (_split_into_sentences text = [] <-> whitespace_only text = true).
Proof.
  assert (strip (sub_ws text) = [] <-> whitespace_only text = true) as Hws.
  { rewrite strip_nil_iff. unfold sub_ws. by rewrite whitespace_only_collapse. }
  destruct (decide (strip (sub_ws text) = [])) as [Hnil|Hne].
  - assert (_split_into_sentences text = []) as Hs.
    { unfold _split_into_sentences. destruct text; [done|]. by rewrite Hnil. }
    rewrite Hs, Hnil. split; [done|]. split; [intros _; by apply Hws | done].
  - destruct text as [|c0 text'] eqn:Htext; [done|]. rewrite <- Htext in *.
    assert (exists ahead,
               _split_into_sentences text
               = trim_nonempty (cut_at (boundary ahead (strip (sub_ws text)))
                                       (strip (sub_ws text)))) as [ahead Hs].
    { unfold _split_into_sentences. rewrite Htext. rewrite <- Htext.
      rewrite !re_split_cut by apply normalized_single_spaced.
      destruct (_ =? _)%nat; eauto. }
    destruct (cut_at_normalized ahead text Hne) as [Hid Hjoin].
    rewrite Hs, Hid. split; [exact Hjoin|].
    split.
    + intros Hcut. rewrite Hcut in Hjoin. by symmetry in Hjoin.
    + intros H. by apply Hws in H.
Qed.


End SegmenterMore.

(** ** Chunker: budget and overlap *)

Module ChunkerMore.
Import PyStr Spec SpecMore PyStrFacts PyFacts Chunker ChunkerFacts.

Lemma zsum_slice_nonneg (tokens : list Z) a b :
  Forall (fun t => 0 <= t) tokens -> 0 <= zsum (zslice tokens a b).
Proof. intros H. apply zsum_nonneg. by apply slice_Forall. Qed.

Lemma zsum_slice_mono_l (tokens : list Z) a b c :
  Forall (fun t => 0 <= t) tokens ->
  0 <= a <= b -> b <= c ->
  zsum (zslice tokens b c) <= zsum (zslice tokens a c).
Proof.
  intros H H1 H2. rewrite <- (zslice_app tokens a b c) by lia.
  rewrite zsum_app. pose proof (zsum_slice_nonneg tokens a b H). lia.
Qed.


Section Loops.

Variable sentences : list (list N).
Variable sent_tokens : list Z.
Variables chunk_size overlap : Z.

Hypothesis tokens_length : length sent_tokens = length sentences.
Hypothesis tokens_nonneg : Forall (fun t => 0 <= t) sent_tokens.
Hypothesis size_pos : 0 < chunk_size.

Let n : Z := Z.of_nat (length sentences).

Lemma walk_back_restart i j fuel : forall k ov_acc,
  0 <= i -> 0 <= k -> i < j - k -> j <= n -> j - k <= Z.of_nat fuel ->
  ov_acc = zsum (zslice sent_tokens (j - k) j) ->
  exists k',
    walk_back fuel sent_tokens overlap i j k ov_acc = Done k'
    /\ k <= k' /\ i <= j - k'
    /\ (j - k' <= i \/ overlap <= zsum (zslice sent_tokens (j - k') j))
    /\ (k < k' -> zsum (zslice sent_tokens (j - k' + 1) j) < overlap).
Proof.
  induction fuel as [|fuel IH]; intros k ov_acc Hi Hk Hik Hj Hfuel Hov; [lia|].
  simpl. destruct ((0 <=? j - 1 - k) && (ov_acc <? overlap)) eqn:Hc.
  - apply andb_true_iff in Hc as [Hc1 Hc2].
    apply Z.leb_le in Hc1. apply Z.ltb_lt in Hc2.
    destruct (getitem_in_range sent_tokens (j - 1 - k)) as (t & Ht & ->);
      [rewrite tokens_length; fold n; lia|].
    simpl.
    assert (ov_acc + t = zsum (zslice sent_tokens (j - (k + 1)) j)) as Hov'.
    { replace (j - (k + 1)) with (j - 1 - k) by lia.
      rewrite (zslice_cons sent_tokens (j - 1 - k) j t) by (done || lia).
      replace (j - 1 - k + 1) with (j - k) by lia. simpl. lia. }
    destruct (Z.leb_spec (j - (k + 1)) i) as [Hbreak|Hgo].
    + exists (k + 1). split; [done|]. split; [lia|]. split; [lia|].
      split; [by left|]. intros _.
      replace (j - (k + 1) + 1) with (j - k) by lia. lia.
    + destruct (IH (k + 1) (ov_acc + t)) as (k' & -> & Hk' & Hik' & Hcause & Hmin);
        try lia.
      exists k'. split; [done|]. split; [lia|]. split; [done|]. split; [done|].
      intros _. destruct (decide (k + 1 = k')) as [<-|Hne]; [|apply Hmin; lia].
      replace (j - (k + 1) + 1) with (j - k) by lia. lia.
  - exists k. split; [done|]. split; [lia|]. split; [lia|]. split; [|lia].
    right. apply andb_false_iff in Hc as [Hc|Hc].
    + apply Z.leb_gt in Hc. lia.
    + apply Z.ltb_ge in Hc. lia.
Qed.

Lemma next_start_restart i j :
  0 <= i < j -> j <= n ->
  exists next,
    next_start sent_tokens overlap i j = Done next
    /\ i + 1 <= next <= j
    /\ restart sent_tokens overlap i j next.
Proof.
  intros Hi Hj. unfold next_start, restart.
  destruct (Z.leb_spec overlap 0) as [Hov|Hov].
  - exists j. case_decide; [|lia]. split; [done|]. split; [lia | done].
  - case_decide; [lia|].
    destruct (walk_back_restart i j (length sent_tokens) 0 0)
      as (k & -> & Hk & Hik & Hcause & Hmin);
      [lia | lia | lia | done | rewrite tokens_length; fold n; lia | |].
    { rewrite zslice_nil by lia. done. }
    simpl.
    assert (0 < k) as Hkpos.
    { destruct (decide (k = 0)) as [->|]; [|lia].
      destruct Hcause as [Hc|Hc]; [lia|].
      rewrite zslice_nil in Hc by lia. simpl in Hc. lia. }
    specialize (Hmin Hkpos).
    exists (Z.max (i + 1) (j - k)). split; [done|]. split; [lia|]. split; [lia|].
    destruct (decide (j - k <= i)) as [Hcap|Hfree].
    + assert (j - k = i) as Heq by lia.
      replace (Z.max (i + 1) (j - k)) with (i + 1) by lia.
      split; [by left|].
      replace (j - k + 1) with (i + 1) in Hmin by lia.
      pose proof (zsum_slice_mono_l sent_tokens (i + 1) (i + 1 + 1) j tokens_nonneg).
      destruct (decide (i + 1 + 1 <= j)); [lia|].
      rewrite zslice_nil by lia. simpl. lia.
    + replace (Z.max (i + 1) (j - k)) with (j - k) by lia.
      destruct Hcause as [Hc|Hc]; [lia|]. split; [by right | done].
Qed.

Lemma chunk_loop_steps fuel : forall i chunks spans,
  0 <= i < n -> n - i <= Z.of_nat fuel ->
  exists chunks' spans',
    chunk_loop fuel sentences sent_tokens chunk_size overlap i chunks spans
      = Done (chunks', spans ++ spans')
    /\ steps sent_tokens chunk_size overlap n i spans'.
Proof.
  induction fuel as [|fuel IH]; intros i chunks spans Hi Hfuel; [lia|].
  simpl. fold n. assert ((i <? n) = true) as -> by (apply Z.ltb_lt; lia).
  destruct (accumulate_spec sentences sent_tokens chunk_size tokens_length
              (length sentences) i 0 [])
    as (j & acc & -> & Hj & Hacc & Hexit & Hall); [lia | fold n; lia |].
  fold n in Hj, Hexit. simpl in *.
  assert (i < j) as Hij.
  { destruct (decide (i = j)) as [<-|]; [|lia].
    rewrite zslice_nil in Hacc by lia. simpl in Hacc. lia. }
  assert (stop_at sent_tokens chunk_size n i j) as Hstop.
  { split; [lia|]. split; [apply (Hall (j - 1)); lia|]. intros Hlt. lia. }
  set (chunks1 := if strip (join [SPACE] (zslice sentences i j)) is []
                  then chunks
                  else chunks ++ [strip (join [SPACE] (zslice sentences i j))]).
  assert (forall A (f : list (list N) -> A),
             f (match strip (join [SPACE] (zslice sentences i j)) with
                | [] => chunks
                | _ :: _ => chunks ++ [strip (join [SPACE] (zslice sentences i j))]
                end) = f chunks1) as Hfold by done.
  destruct (n <=? j) eqn:Hend.
  - apply Z.leb_le in Hend. assert (j = n) as -> by lia.
    exists chunks1, [(i, n)]. split; [|constructor; [lia | done]].
    by destruct (strip (join [SPACE] (zslice sentences i n))).
  - apply Z.leb_gt in Hend.
    destruct (next_start_restart i j) as (next & -> & Hnext & Hrestart); [lia | lia |].
    simpl.
    destruct (IH next chunks1 (spans ++ [(i, j)])) as (chunks' & spans' & Hrun & Hsteps);
      [lia | lia |].
    exists chunks', ((i, j) :: spans').
    split; [|by apply (steps_next _ _ _ _ i j next); try lia].
    rewrite <- app_assoc in Hrun. simpl in Hrun. rewrite <- Hrun.
    by destruct (strip (join [SPACE] (zslice sentences i j))).
Qed.

End Loops.

Section Steps.

Variable sentences : list (list N).
Variable tokens : list Z.
Variables size overlap : Z.

Let n : Z := Z.of_nat (length sentences).

Lemma steps_head i spans :
  steps tokens size overlap n i spans -> exists j rest, spans = (i, j) :: rest.
Proof. destruct 1; eauto. Qed.

Lemma steps_stop i spans :
  steps tokens size overlap n i spans ->
  Forall (fun sp => stop_at tokens size n sp.1 sp.2) spans.
Proof. induction 1; constructor; (done || by repeat constructor). Qed.

Lemma steps_consecutive i spans :
  steps tokens size overlap n i spans ->
  forall m a b, spans !! m = Some a -> spans !! S m = Some b ->
    restart tokens overlap a.1 a.2 b.1.
Proof.
  induction 1 as [i Hi Hstop | i j i' rest Hi Hj Hstop Hre Hrest IH]; intros m a b Ha Hb.
  - by destruct m.
  - destruct m as [|m]; simpl in Ha, Hb; [|by apply (IH m)].
    injection Ha as <-. destruct (steps_head _ _ Hrest) as (j' & rest' & ->).
    simpl in Hb. by injection Hb as <-.
Qed.

Lemma steps_partition i spans :
  overlap <= 0 -> 0 <= i ->
  steps tokens size overlap n i spans ->
  concat ((fun sp => zslice sentences sp.1 sp.2) <$> spans) = zslice sentences i n.
Proof.
  intros Hov Hi0 Hsteps. induction Hsteps as [i Hi Hstop | i j i' rest Hi Hj Hstop Hre Hrest IH].
  - simpl. by rewrite app_nil_r.
  - unfold restart in Hre. case_decide; [|lia]. subst i'.
    destruct Hstop as [Hij _]. rewrite fmap_cons. cbn [concat fst snd].
    rewrite IH by lia. apply zslice_app; lia.
Qed.

End Steps.

Lemma chunk_text_spans_steps config enc text chunk_size overlap :
  0 < Py.or_default chunk_size (CHUNK_SIZE config) ->
  Segmenter._split_into_sentences text <> [] ->
  let sentences := Segmenter._split_into_sentences text in
  exists spans,
    chunk_text_spans config enc text chunk_size overlap
      = Done (render sentences <$> spans, spans)
    /\ steps (_count_tokens enc <$> sentences)
             (Py.or_default chunk_size (CHUNK_SIZE config))
             (Py.or_default overlap (CHUNK_OVERLAP config))
             (Z.of_nat (length sentences)) 0 spans.
Proof.
  intros Hsize Hne sentences.
  destruct (chunk_text_spans_chain config enc text chunk_size overlap Hsize Hne)
    as (spans & Hrun & _).
  fold sentences in Hrun. exists spans. split; [done|].
  unfold chunk_text_spans in Hrun.
  destruct (Z.leb_spec (Py.or_default chunk_size (CHUNK_SIZE config)) 0) as [|_]; [lia|].
  fold sentences in Hrun, Hne.
  destruct sentences as [|s0 rest] eqn:Hs; [done|]. rewrite <- Hs in *.
  destruct (chunk_loop_steps sentences (_count_tokens enc <$> sentences)
              (Py.or_default chunk_size (CHUNK_SIZE config))
              (Py.or_default overlap (CHUNK_OVERLAP config))
              (length_fmap _ _) (count_tokens_nonneg enc sentences) Hsize
              (length sentences) 0 [] [])
    as (chunks' & spans' & Hrun' & Hsteps); [rewrite Hs; simpl; lia | lia |].
  rewrite Hrun' in Hrun. simpl in Hrun. by injection Hrun as _ ->.
Qed.



(** X5: with a positive chunk size every chunk but the last holds at
    least that many tokens, and no chunk would hold that many without
    its last sentence: a chunk exceeds the size by less than the tokens
    of one sentence. *)
Theorem chunk_text_budget config enc text chunk_size overlap :
  let sentences := Segmenter._split_into_sentences text in
  let tokens := _count_tokens enc <$> sentences in
  let size := Py.or_default chunk_size (CHUNK_SIZE config) in
  0 < size ->
  exists spans,
    chunk_text_spans config enc text chunk_size overlap
      = Done (render sentences <$> spans, spans)
    /\ Forall (fun sp =>
                 sp.1 < sp.2 <= Z.of_nat (length sentences)
                 /\ zsum (zslice tokens sp.1 (sp.2 - 1)) < size
                 /\ (sp.2 < Z.of_nat (length sentences) ->
                     size <= zsum (zslice tokens sp.1 sp.2))) spans.
Proof.
  intros sentences tokens size Hsize.
  destruct (decide (sentences = [])) as [Hnil|Hne].
  - exists []. split; [|constructor]. unfold chunk_text_spans.
    destruct (Z.leb_spec (Py.or_default chunk_size (CHUNK_SIZE config)) 0);
      [unfold size in Hsize; lia|].
    fold sentences. by rewrite Hnil.
  - destruct (chunk_text_spans_steps config enc text chunk_size overlap Hsize Hne)
      as (spans & Hrun & Hsteps).
    exists spans. split; [done|]. by apply steps_stop in Hsteps.
Qed.

Lemma chunk_text_budget_witness :
  let text := lit "Aa bb cc. Dd ee ff gg hh ii jj kk ll mm. Nn. Oo pp. Qq rr ss tt. Uu" in
  let config := {| CHUNK_SIZE := 3; CHUNK_OVERLAP := 2 |} in
  let sentences := Segmenter._split_into_sentences text in
  let tokens := _count_tokens None <$> sentences in
  exists spans,
    chunk_text_spans config None text None None
      = Done (render sentences <$> spans, spans)
    /\ Forall (fun sp =>
                 sp.1 < sp.2 <= Z.of_nat (length sentences)
                 /\ zsum (zslice tokens sp.1 (sp.2 - 1)) < 3
                 /\ (sp.2 < Z.of_nat (length sentences) ->
                     3 <= zsum (zslice tokens sp.1 sp.2))) spans.
Proof.
  apply (chunk_text_budget {| CHUNK_SIZE := 3; CHUNK_OVERLAP := 2 |} None _ None None).
  simpl. lia.
Defined.

(** X6: when the overlap in force is not positive, the chunks share no
    sentence: each chunk starts where the one before it ended, and the
    sentences of the chunks, put end to end, are the sentences of the
    text, each one once. *)
Theorem chunk_text_no_overlap config enc text chunk_size overlap :
  let sentences := Segmenter._split_into_sentences text in
  0 < Py.or_default chunk_size (CHUNK_SIZE config) ->
  Py.or_default overlap (CHUNK_OVERLAP config) <= 0 ->
  exists spans,
    chunk_text_spans config enc text chunk_size overlap
      = Done (render sentences <$> spans, spans)
    /\ (forall m a b, spans !! m = Some a -> spans !! S m = Some b -> b.1 = a.2)
    /\ concat ((fun sp => zslice sentences sp.1 sp.2) <$> spans) = sentences.
Proof.
  intros sentences Hsize Hov.
  destruct (decide (sentences = [])) as [Hnil|Hne].
  - exists []. unfold chunk_text_spans.
    destruct (Z.leb_spec (Py.or_default chunk_size (CHUNK_SIZE config)) 0); [lia|].
    fold sentences. rewrite Hnil. by repeat split.
  - destruct (chunk_text_spans_steps config enc text chunk_size overlap Hsize Hne)
      as (spans & Hrun & Hsteps).
    fold sentences in Hsteps.
    exists spans. split; [done|]. split.
    + intros m a b Ha Hb.
      pose proof (steps_consecutive _ _ _ _ _ _ Hsteps m a b Ha Hb) as Hre.
      unfold restart in Hre. by case_decide; [|lia].
    + rewrite (steps_partition sentences _ _ _ 0 spans Hov ltac:(lia) Hsteps).
      unfold zslice. simpl. rewrite Nat2Z.id. apply slice_all.
Qed.

Lemma chunk_text_no_overlap_witness :
  let text := lit "Aa bb cc. Dd ee ff gg hh ii jj kk ll mm. Nn. Oo pp. Qq rr ss tt. Uu" in
  let config := {| CHUNK_SIZE := 3; CHUNK_OVERLAP := 0 |} in
  let sentences := Segmenter._split_into_sentences text in
  exists spans,
    chunk_text_spans config None text None None
      = Done (render sentences <$> spans, spans)
    /\ (forall m a b, spans !! m = Some a -> spans !! S m = Some b -> b.1 = a.2)
    /\ concat ((fun sp => zslice sentences sp.1 sp.2) <$> spans) = sentences.
Proof.
  apply (chunk_text_no_overlap {| CHUNK_SIZE := 3; CHUNK_OVERLAP := 0 |} None _ None None).
  - simpl. lia.
  - simpl. lia.
Defined.

(** X7: when the overlap in force is positive, the chunk after a chunk
    of sentences [i] to [j - 1] starts at a sentence [i'] after [i] and
    not after [j]; the sentences it repeats, [i'] to [j - 1], hold at
    least the overlap in tokens unless forward progress stopped the walk
    back at [i + 1], and the walk goes back no further than needed: the
    sentences after [i'] hold less than the overlap. *)
Theorem chunk_text_overlap config enc text chunk_size overlap :
  let sentences := Segmenter._split_into_sentences text in
  let tokens := _count_tokens enc <$> sentences in
  let ov := Py.or_default overlap (CHUNK_OVERLAP config) in
  0 < Py.or_default chunk_size (CHUNK_SIZE config) ->
  0 < ov ->
  exists spans,
    chunk_text_spans config enc text chunk_size overlap
      = Done (render sentences <$> spans, spans)
    /\ forall m a b, spans !! m = Some a -> spans !! S m = Some b ->
         a.1 + 1 <= b.1 <= a.2
         /\ (b.1 = a.1 + 1 \/ ov <= zsum (zslice tokens b.1 a.2))
         /\ zsum (zslice tokens (b.1 + 1) a.2) < ov.
Proof.
  intros sentences tokens ov Hsize Hov.
  destruct (decide (sentences = [])) as [Hnil|Hne].
  - exists []. unfold chunk_text_spans.
    destruct (Z.leb_spec (Py.or_default chunk_size (CHUNK_SIZE config)) 0); [lia|].
    fold sentences. rewrite Hnil. by split.
  - destruct (chunk_text_spans_steps config enc text chunk_size overlap Hsize Hne)
      as (spans & Hrun & Hsteps).
    exists spans. split; [done|]. intros m a b Ha Hb.
    pose proof (steps_consecutive _ _ _ _ _ _ Hsteps m a b Ha Hb) as Hre.
    unfold restart in Hre. fold ov in Hre. by case_decide; [lia|].
Qed.

Lemma chunk_text_overlap_witness :
  let text := lit "Aa bb cc. Dd ee ff gg hh ii jj kk ll mm. Nn. Oo pp. Qq rr ss tt. Uu" in
  let config := {| CHUNK_SIZE := 3; CHUNK_OVERLAP := 2 |} in
  let sentences := Segmenter._split_into_sentences text in
  let tokens := _count_tokens None <$> sentences in
  exists spans,
    chunk_text_spans config None text None None
      = Done (render sentences <$> spans, spans)
    /\ forall m a b, spans !! m = Some a -> spans !! S m = Some b ->
         a.1 + 1 <= b.1 <= a.2
         /\ (b.1 = a.1 + 1 \/ 2 <= zsum (zslice tokens b.1 a.2))
         /\ zsum (zslice tokens (b.1 + 1) a.2) < 2.
Proof.
  apply (chunk_text_overlap {| CHUNK_SIZE := 3; CHUNK_OVERLAP := 2 |} None _ None None).
  - simpl. lia.
  - simpl. lia.
Defined.

End ChunkerMore.

(** ** Index builder: empty corpus and batch sizes *)

Module IndexBuilderMore.
Import PyStr Spec SpecMore PyFacts IndexBuilder IndexBuilderFacts.

Section Build.

Variable config : Chunker.Config.
Variable TOKEN_ENCODER : option (list N -> option (list N)).
Variable vec : Type.
Variable dim : vec -> nat.
Variable normalize_L2 : vec -> vec.
Variable embed_texts : list (list N) -> outcome (list vec).

Lemma chunk_text_blank text :
  0 < Chunker.CHUNK_SIZE config ->
  whitespace_only text = true ->
  Chunker.chunk_text config TOKEN_ENCODER text None None = Done [].
Proof.
  intros Hsize Hws. unfold Chunker.chunk_text, Chunker.chunk_text_spans. simpl.
  destruct (Z.leb_spec (Chunker.CHUNK_SIZE config) 0); [lia|].
  apply (SegmenterMore.split_into_sentences_joined text) in Hws. by rewrite Hws.
Qed.

Lemma collect_blank docs acc :
  0 < Chunker.CHUNK_SIZE config ->
  Forall (fun d => whitespace_only d.2 = true) docs ->
  collect config TOKEN_ENCODER docs acc = Done acc.
Proof.
  intros Hsize Hall. revert acc.
  induction Hall as [|[name text] docs Hd Hall IH]; intros acc; simpl; [done|].
  rewrite (chunk_text_blank text Hsize Hd). simpl.
  rewrite add_chunks_spec. simpl. rewrite !app_nil_r.
  destruct acc. apply IH.
Qed.

(** X8: when every document is empty or whitespace only, and so when
    there is no document at all, the build raises [RuntimeError] without
    the embedding client being called. *)
Theorem index_documents_empty_corpus docs :
  0 < Chunker.CHUNK_SIZE config ->
  Forall (fun d => whitespace_only d.2 = true) docs ->
  index_documents config TOKEN_ENCODER vec dim normalize_L2 embed_texts docs
  = Raise RuntimeError.
Proof.
  intros Hsize Hall. unfold index_documents.
  by rewrite (collect_blank docs ([], []) Hsize Hall).
Qed.

Lemma slice_length_min {A} (l : list A) a b :
  length (Py.slice l a b) = Nat.min (b - a) (length l - a).
Proof. unfold Py.slice. by rewrite length_take, length_drop. Qed.

Lemma batches_sizes {A} (l : list A) :
  Forall (fun b => (1 <= length b <= batch_size)%nat)
         (batches_of l (Py.range_step (length l) batch_size))
  /\ length (batches_of l (Py.range_step (length l) batch_size))
     = ((length l + batch_size - 1) / batch_size)%nat.
Proof.
  unfold batches_of, Py.range_step, batch_size. split.
  - apply Forall_fmap, Forall_fmap, Forall_forall. intros q Hq. simpl.
    apply elem_of_seq in Hq. rewrite slice_length_min.
    pose proof (Nat.div_mod_eq (length l + 20 - 1) 20).
    pose proof (Nat.mod_upper_bound (length l + 20 - 1) 20). lia.
  - by rewrite !length_fmap, length_seq.
Qed.

(** X9: a successful build has called the embedding client once per
    batch, on the chunk texts cut in order into slices of [batch_size];
    every batch holds between 1 and 20 texts and there are
    [ceil(n / 20)] batches for [n] chunks. *)
Theorem index_documents_batches docs index metadata :
  index_documents config TOKEN_ENCODER vec dim normalize_L2 embed_texts docs
    = Done (index, metadata) ->
  let batches :=
    batches_of (text <$> metadata) (Py.range_step (length metadata) batch_size) in
  (exists outs,
     Forall2 (fun b o => embed_texts b = Done o) batches outs
     /\ index = normalize_L2 <$> concat outs)
  /\ concat batches = text <$> metadata
  /\ Forall (fun b => (1 <= length b <= 20)%nat) batches
  /\ length batches = ((length metadata + 19) / 20)%nat.
Proof.
  intros Hrun batches. unfold index_documents in Hrun.
  destruct (collect config TOKEN_ENCODER docs ([], [])) as [[all_chunks md]| |] eqn:Hc;
    try done.
  simpl in Hrun. apply collect_spec in Hc as (chunkss & Hchunks & Hacc).
  simpl in Hacc. injection Hacc as -> ->.
  assert (text <$> concat (records_of <$> zip (fst <$> docs) chunkss) = concat chunkss)
    as Htexts.
  { apply text_records. rewrite length_fmap. by eapply Forall2_length. }
  destruct (concat chunkss) as [|c0 all'] eqn:Hall; [done|]. rewrite <- Hall in *.
  clear Hall c0 all'.
  destruct (embed_batches vec embed_texts _ (concat chunkss) []) as [embeddings| |] eqn:He;
    try done.
  simpl in Hrun.
  destruct (to_matrix vec dim embeddings) as [xb| |] eqn:Hxb; try done.
  apply to_matrix_Done in Hxb as ->.
  simpl in Hrun. injection Hrun as <- <-.
  apply embed_batches_spec in He as (outs & Houts & ->). simpl in *.
  assert (length (concat (records_of <$> zip (fst <$> docs) chunkss))
          = length (concat chunkss)) as Hlen.
  { by rewrite <- Htexts, length_fmap. }
  subst batches. rewrite Htexts, Hlen.
  split; [by exists outs|]. split; [apply batches_cover|].
  pose proof (batches_sizes (concat chunkss)) as [Hs Hn].
  unfold batch_size in Hs, Hn at 2 3. split; [exact Hs|].
  rewrite Hn.
  change (((length (concat chunkss) + 20 - 1) / 20)%nat
          = ((length (concat chunkss) + 19) / 20)%nat).
  f_equal. lia.
Qed.

End Build.

Lemma index_documents_empty_corpus_witness :
  index_documents Demo.config None (list Z) length Demo.normalize_L2 Demo.embed_texts
    [(lit "blank.txt", lit "   "); (lit "empty.txt", [])]
  = Raise RuntimeError.
Proof.
  apply (index_documents_empty_corpus Demo.config None (list Z) length
           Demo.normalize_L2 Demo.embed_texts).
  - reflexivity.
  - repeat constructor.
Defined.

Lemma index_documents_batches_witness :
  let batches :=
    batches_of (text <$> Demo.built_metadata)
               (Py.range_step (length Demo.built_metadata) batch_size) in
  (exists outs,
     Forall2 (fun b o => Demo.embed_texts b = Done o) batches outs
     /\ Demo.built_index = Demo.normalize_L2 <$> concat outs)
  /\ concat batches = text <$> Demo.built_metadata
  /\ Forall (fun b => (1 <= length b <= 20)%nat) batches
  /\ length batches = ((length Demo.built_metadata + 19) / 20)%nat.
Proof.
  apply (index_documents_batches Demo.config None (list Z) length
           Demo.normalize_L2 Demo.embed_texts Demo.docs).
  vm_compute. reflexivity.
Defined.

End IndexBuilderMore.

(** ** Hybrid retriever: scores and number of results *)

Module RetrieverMore.
Import PyStr Spec SpecMore PyFacts IndexBuilder Retriever SortFacts RetrieverFacts.

Section Retrieve.

Variable MAX_RETRIEVALS : Z.
Variable lower : list N -> list N.
Variable isword : N -> bool.
Variable search : list N -> Z -> outcome (list (Q * Z)).

Local Abbreviation words_of := (Retriever.words_of lower isword).
Local Abbreviation _keyword_score := (Retriever._keyword_score lower isword).
Local Abbreviation lex_scores := (Retriever.lex_scores lower isword).
Local Abbreviation lexical_fallback := (Retriever.lexical_fallback lower isword).
Local Abbreviation retrieve := (Retriever.retrieve MAX_RETRIEVALS lower isword search).

Lemma keyword_score_le_query query text :
  (_keyword_score query text <= size (words_of query))%nat.
Proof.
  unfold Retriever._keyword_score. apply subseteq_size, intersection_subseteq_l.
Qed.

Lemma pseudo_score_bounds (sc bound : nat) :
  (0 < sc <= bound)%nat ->
  (1 # 100 <= pseudo_score sc)%Q /\ (pseudo_score sc <= Z.of_nat bound # 100)%Q.
Proof. intros H. unfold pseudo_score, Qle. simpl. lia. Qed.

(** X10: every returned result that is not a semantic one carries a
    score between 1/100 and d/100, where d is the number of distinct
    word tokens of the query: its score is the count of shared tokens
    over 100. *)
Theorem retrieve_lexical_score_range query metadata k lexical_k sim_threshold hits :
  search query (Py.or_default k MAX_RETRIEVALS) = Done hits ->
  exists results,
    retrieve query metadata k lexical_k sim_threshold = Done results
    /\ forall r, r ∈ results ->
         r ∈ valid_results metadata hits
         \/ ((1 # 100 <= score r)%Q
             /\ (score r <= Z.of_nat (size (words_of query)) # 100)%Q).
Proof.
  intros Hs.
  rewrite (retrieve_unfold MAX_RETRIEVALS lower isword search
             query metadata k lexical_k sim_threshold hits Hs).
  eexists. split; [done|]. intros r Hr.
  rewrite (sort_reverse_perm score Qltb) in Hr. unfold merged in Hr.
  destruct (Qltb _ _); [|by left].
  apply lexical_fallback_elem in Hr as [Hr|(m & _ & Hpos & ->)]; [by left|].
  right. simpl. apply pseudo_score_bounds. split; [done|].
  apply keyword_score_le_query.
Qed.

Lemma add_lexical_length (lexical_k : Z) (keys : gset (list N * Z)) cands :
  forall (added : Z) (results : list Result),
    (length results
     <= length (add_lexical lexical_k keys cands added results)
     <= length results
        + Nat.min (length cands) (Z.to_nat (Z.max 1 (lexical_k - added))))%nat.
Proof.
  induction cands as [|[sc m] cands IH]; intros added results;
    cbn [add_lexical]; simpl length; [lia|].
  destruct (decide ((doc_id m, chunk_id m) ∈ keys)).
  - specialize (IH added results). lia.
  - destruct (Z.leb_spec lexical_k (added + 1)).
    + rewrite length_app. simpl length. lia.
    + specialize (IH (added + 1) (results ++ [result_of (pseudo_score sc) m])).
      rewrite length_app in IH. simpl length in IH. lia.
Qed.

Lemma lexical_fallback_length query metadata lexical_k results :
  (length results
   <= length (lexical_fallback query metadata lexical_k results)
   <= length results + if decide (lexical_k < 0)%Z then 1 else Z.to_nat lexical_k)%nat.
Proof.
  unfold Retriever.lexical_fallback.
  set (ranked := sort_reverse fst Nat.ltb (lex_scores query metadata)).
  pose proof (add_lexical_length lexical_k (list_to_set (key_of <$> results))
                (Py.prefix ranked lexical_k) 0 results) as H.
  case_decide.
  - lia.
  - rewrite prefix_nonneg in H |- * by lia. rewrite length_take in H. lia.
Qed.

Lemma add_lexical_extends (lexical_k : Z) (keys : gset (list N * Z)) cands :
  forall (added : Z) (results : list Result),
    exists more, add_lexical lexical_k keys cands added results = results ++ more.
Proof.
  induction cands as [|[sc m] cands IH]; intros added results; cbn [add_lexical].
  - exists []. by rewrite app_nil_r.
  - destruct (decide ((doc_id m, chunk_id m) ∈ keys)); [apply IH|].
    destruct (Z.leb_spec lexical_k (added + 1)); [by eexists|].
    destruct (IH (added + 1) (results ++ [result_of (pseudo_score sc) m]))
      as [more ->].
    exists (result_of (pseudo_score sc) m :: more). by rewrite <- app_assoc.
Qed.

Lemma merged_extends query metadata lexical_k sim_threshold results :
  exists more,
    merged lower isword query metadata lexical_k sim_threshold results
      = results ++ more
    /\ (length more
        <= if decide (lexical_k < 0)%Z then 1 else Z.to_nat lexical_k)%nat.
Proof.
  unfold merged. destruct (Qltb _ _).
  - pose proof (lexical_fallback_length query metadata lexical_k results) as Hlen.
    unfold Retriever.lexical_fallback in *.
    destruct (add_lexical_extends lexical_k (list_to_set (key_of <$> results))
                (Py.prefix (sort_reverse fst Nat.ltb (lex_scores query metadata))
                           lexical_k) 0 results) as [more Hmore].
    exists more. split; [done|]. rewrite Hmore, length_app in Hlen. lia.
  - exists []. split; [by rewrite app_nil_r|]. cbn. case_decide; lia.
Qed.

(** X11: [retrieve] returns every semantic result, whatever [k]: the
    returned list is a rearrangement of the in-range semantic hits
    followed by the lexical results, of which there are at most
    [lexical_k], none for [lexical_k = 0], and at most one for a
    negative [lexical_k]. *)
Theorem retrieve_result_count query metadata k (lexical_k : Z) sim_threshold hits :
  search query (Py.or_default k MAX_RETRIEVALS) = Done hits ->
  exists results more,
    retrieve query metadata k lexical_k sim_threshold = Done results
    /\ results ≡ₚ valid_results metadata hits ++ more
    /\ (forall r, r ∈ valid_results metadata hits -> r ∈ results)
    /\ (length more
        <= if decide (lexical_k < 0)%Z then 1 else Z.to_nat lexical_k)%nat
    /\ (length (valid_results metadata hits)
        <= length results
        <= length (valid_results metadata hits)
           + if decide (lexical_k < 0)%Z then 1 else Z.to_nat lexical_k)%nat.
Proof.
  intros Hs.
  rewrite (retrieve_unfold MAX_RETRIEVALS lower isword search
             query metadata k lexical_k sim_threshold hits Hs).
  destruct (merged_extends query metadata lexical_k sim_threshold
              (valid_results metadata hits)) as (more & Hmore & Hlen).
  eexists. exists more. split; [done|].
  assert (sort_reverse score Qltb
            (merged lower isword query metadata lexical_k sim_threshold
                    (valid_results metadata hits))
          ≡ₚ valid_results metadata hits ++ more) as Hperm.
  { rewrite <- Hmore. apply sort_reverse_perm. }
  split; [done|]. split.
  - intros r Hr. rewrite Hperm. apply elem_of_app. by left.
  - split; [done|]. rewrite (Permutation_length Hperm), length_app. lia.
Qed.

End Retrieve.

Lemma retrieve_lexical_score_range_witness :
  exists results,
    Demo.retrieve Demo.query Demo.metadata None 10 default_sim_threshold = Done results
    /\ forall r, r ∈ results ->
         r ∈ valid_results Demo.metadata Demo.hits
         \/ ((1 # 100 <= score r)%Q
             /\ (score r <= Z.of_nat (size (Retriever.words_of ascii_lower ascii_isword
                                             Demo.query)) # 100)%Q).
Proof.
  apply (retrieve_lexical_score_range 6 ascii_lower ascii_isword Demo.search
           Demo.query Demo.metadata None 10 default_sim_threshold Demo.hits).
  reflexivity.
Defined.

Lemma retrieve_result_count_witness :
  exists results more,
    Demo.retrieve Demo.query Demo.metadata None (-3) default_sim_threshold = Done results
    /\ results ≡ₚ valid_results Demo.metadata Demo.hits ++ more
    /\ (forall r, r ∈ valid_results Demo.metadata Demo.hits -> r ∈ results)
    /\ (length more <= if decide (-3 < 0)%Z then 1 else Z.to_nat (-3))%nat
    /\ (length (valid_results Demo.metadata Demo.hits)
        <= length results
        <= length (valid_results Demo.metadata Demo.hits)
           + if decide (-3 < 0)%Z then 1 else Z.to_nat (-3))%nat.
Proof.
  apply (retrieve_result_count 6 ascii_lower ascii_isword Demo.search
           Demo.query Demo.metadata None (-3) default_sim_threshold Demo.hits).
  reflexivity.
Defined.

End RetrieverMore.

(** ** Repeated header removal: a line on every page *)

Module NormalizerMore.
Import PyStr Spec Normalizer NormalizerFacts.








End NormalizerMore.

(** ** Text clean-up *)

Module CleanerFacts.
Import PyStr Spec SpecMore PyStrFacts SegmenterMore Cleaner.

Lemma list_ind2 {A} (P : list A -> Prop) :
  P [] -> (forall a, P [a]) ->
  (forall a b l, P l -> P (b :: l) -> P (a :: b :: l)) ->
  forall l, P l.
Proof.
  intros Hnil Hone Hstep l.
  assert (P l /\ forall a, P (a :: l)) as [H _]; [|done].
  induction l as [|b l [IH1 IH2]]; [by split|].
  split; [apply IH2|]. intros a. by apply Hstep.
Qed.

Lemma whitespace_only_Forall s :
  whitespace_only s = true <-> Forall (fun c => isspace c = true) s.
Proof.
  unfold whitespace_only. rewrite forallb_forall, Forall_forall.
  split; intros H c Hc; apply H; by apply list_elem_of_In.
Qed.

Section Preserve.

Variable P : N -> Prop.

Lemma lstrip_Forall s : Forall P s -> Forall P (lstrip s).
Proof.
  intros H. destruct (lstrip_suffix s) as (pre & Heq & _).
  rewrite Heq in H. by apply Forall_app in H as [_ H].
Qed.

Lemma rstrip_Forall s : Forall P s -> Forall P (rstrip s).
Proof.
  intros H. destruct (rstrip_prefix s) as (suf & Heq & _).
  rewrite Heq in H. by apply Forall_app in H as [H _].
Qed.

Lemma strip_Forall s : Forall P s -> Forall P (strip s).
Proof. intros H. by apply rstrip_Forall, lstrip_Forall. Qed.

Lemma join_Forall sep parts :
  Forall P sep -> Forall (Forall P) parts -> Forall P (join sep parts).
Proof.
  intros Hsep. induction 1 as [|p parts Hp Hall IH]; simpl; [constructor|].
  destruct parts; [done|]. apply Forall_app. split; [done|].
  apply Forall_app. by split.
Qed.

Lemma replace_crlf_Forall s : P NEWLINE -> Forall P s -> Forall P (replace_crlf s).
Proof.
  intros Hnl. induction s as [|a|a b l IH1 IH2] using list_ind2; [done..|].
  intros H. apply Forall_cons in H as [Ha H].
  change (replace_crlf (a :: b :: l))
    with (if ((a =? 13) && (b =? 10))%N then NEWLINE :: replace_crlf l
          else a :: replace_crlf (b :: l)).
  destruct ((a =? 13) && (b =? 10))%N.
  - constructor; [done|]. apply IH1. by apply Forall_cons in H as [_ H].
  - constructor; [done|]. by apply IH2.
Qed.

Lemma replace_cr_Forall s : P NEWLINE -> Forall P s -> Forall P (replace_cr s).
Proof.
  intros Hnl H. unfold replace_cr. apply Forall_fmap.
  eapply Forall_impl; [exact H|]. intros c Hc. simpl. by destruct (c =? 13)%N.
Qed.

Lemma squeeze_go_Forall s : forall k,
  P NEWLINE -> Forall P s -> Forall P (squeeze_go k s).
Proof.
  induction s as [|c s IH]; intros k Hnl H; [done|].
  apply Forall_cons in H as [Hc H]. cbn [squeeze_go].
  destruct k; [|by apply IH].
  destruct (3 <=? nl_run (c :: s))%nat.
  - constructor; [done|]. constructor; [done|]. by apply IH.
  - constructor; [done|]. by apply IH.
Qed.

Lemma splitlines_go_Forall s : forall cur,
  Forall P cur -> Forall P s -> Forall (Forall P) (splitlines_go cur s).
Proof.
  induction s as [|a|a b l IH1 IH2] using list_ind2; intros cur Hcur Hs.
  - simpl. destruct cur; [constructor|]. constructor; [|constructor].
    by apply Forall_reverse.
  - apply Forall_cons in Hs as [Ha _]. simpl. destruct (islinebreak a).
    + constructor; [by apply Forall_reverse | constructor].
    + constructor; [|constructor]. rewrite reverse_cons.
      apply Forall_app. split; [by apply Forall_reverse | by constructor].
  - apply Forall_cons in Hs as [Ha Hs].
    change (splitlines_go cur (a :: b :: l))
      with (if islinebreak a
            then reverse cur ::
                 (if ((a =? 13) && (b =? 10))%N then splitlines_go [] l
                  else splitlines_go [] (b :: l))
            else splitlines_go (a :: cur) (b :: l)).
    destruct (islinebreak a).
    + constructor; [by apply Forall_reverse|].
      destruct ((a =? 13) && (b =? 10))%N.
      * apply IH1; [done|]. by apply Forall_cons in Hs as [_ Hs].
      * by apply IH2.
    + apply IH2; [by constructor | done].
Qed.

End Preserve.

(** No piece of [splitlines] holds a line boundary. *)
Lemma splitlines_go_pieces s : forall cur,
  Forall (fun c => islinebreak c = false) cur ->
  Forall (Forall (fun c => islinebreak c = false)) (splitlines_go cur s).
Proof.
  induction s as [|a|a b l IH1 IH2] using list_ind2; intros cur Hcur.
  - simpl. destruct cur; [constructor|]. constructor; [|constructor].
    by apply Forall_reverse.
  - simpl. destruct (islinebreak a) eqn:Ha.
    + constructor; [by apply Forall_reverse | constructor].
    + constructor; [|constructor]. rewrite reverse_cons.
      apply Forall_app. split; [by apply Forall_reverse | by constructor].
  - change (splitlines_go cur (a :: b :: l))
      with (if islinebreak a
            then reverse cur ::
                 (if ((a =? 13) && (b =? 10))%N then splitlines_go [] l
                  else splitlines_go [] (b :: l))
            else splitlines_go (a :: cur) (b :: l)).
    destruct (islinebreak a) eqn:Ha.
    + constructor; [by apply Forall_reverse|].
      destruct ((a =? 13) && (b =? 10))%N; [by apply IH1 | by apply IH2].
    + apply IH2. by constructor.
Qed.

(** *** Runs of newlines *)

Lemma squeeze_go_skip s : forall k, squeeze_go k s = squeeze_go 0 (drop k s).
Proof.
  induction s as [|c s IH]; intros k; [by destruct k|].
  destruct k; [done|]. cbn [squeeze_go drop]. apply IH.
Qed.

Lemma nl_run_rest s : nl_run (drop (nl_run s) s) = O.
Proof.
  induction s as [|c s IH]; [done|]. cbn [nl_run].
  destruct (c =? 10)%N eqn:Hc; [exact IH|]. cbn [drop nl_run]. by rewrite Hc.
Qed.

Lemma nl_run_app_le x y : (nl_run x <= nl_run (x ++ y))%nat.
Proof.
  induction x as [|c x IH]; [cbn [nl_run]; lia|].
  cbn [nl_run app]. destruct (c =? 10)%N; lia.
Qed.

Lemma no_blank_run_suffix pre s : no_blank_run (pre ++ s) -> no_blank_run s.
Proof.
  intros H i. specialize (H (length pre + i)%nat).
  rewrite drop_app_ge in H by lia.
  by replace (length pre + i - length pre)%nat with i in H by lia.
Qed.

Lemma no_blank_run_prefix s suf : no_blank_run (s ++ suf) -> no_blank_run s.
Proof.
  intros H i. specialize (H i). rewrite drop_app in H.
  pose proof (nl_run_app_le (drop i s) (drop (i - length s) suf)). lia.
Qed.

Lemma no_blank_run_strip s : no_blank_run s -> no_blank_run (strip s).
Proof.
  intros H. unfold strip.
  destruct (lstrip_suffix s) as (pre & Heq & _).
  destruct (rstrip_prefix (lstrip s)) as (suf & Heq' & _).
  rewrite Heq in H. apply no_blank_run_suffix in H.
  rewrite Heq' in H. by apply no_blank_run_prefix in H.
Qed.

Lemma no_blank_run_cons c s :
  (nl_run (c :: s) <= 2)%nat -> no_blank_run s -> no_blank_run (c :: s).
Proof. intros Hc H [|i]; [done | apply H]. Qed.

Lemma no_blank_run_nil : no_blank_run [].
Proof. intros i. rewrite drop_nil. cbn [nl_run]. lia. Qed.

Lemma squeeze_go_runs n : forall s, (length s <= n)%nat ->
  (nl_run (squeeze_go 0 s) <= Nat.min 2 (nl_run s))%nat
  /\ no_blank_run (squeeze_go 0 s).
Proof.
  induction n as [|n IH]; intros [|c s] Hlen; simpl in Hlen; try lia.
  - split; [cbn; lia | apply no_blank_run_nil].
  - split; [cbn; lia | apply no_blank_run_nil].
  - cbn [squeeze_go]. destruct (Nat.leb_spec 3 (nl_run (c :: s))) as [Hge|Hlt].
    + rewrite squeeze_go_skip.
      destruct (IH (drop (nl_run s) s)) as [Hrun Hall].
      { rewrite length_drop. lia. }
      rewrite nl_run_rest in Hrun.
      assert (nl_run (NEWLINE :: squeeze_go 0 (drop (nl_run s) s)) <= 1)%nat as H1.
      { cbn [nl_run]. change (NEWLINE =? 10)%N with true. cbn iota. lia. }
      assert (nl_run (NEWLINE :: NEWLINE :: squeeze_go 0 (drop (nl_run s) s)) <= 2)%nat
        as H2.
      { revert H1. cbn [nl_run]. change (NEWLINE =? 10)%N with true. cbn iota. lia. }
      split; [lia|].
      apply no_blank_run_cons; [done|]. apply no_blank_run_cons; [lia | done].
    + destruct (IH s) as [Hrun Hall]; [lia|].
      assert (nl_run (c :: squeeze_go 0 s) <= Nat.min 2 (nl_run (c :: s)))%nat as H1.
      { revert Hlt. cbn [nl_run]. destruct (c =? 10)%N; lia. }
      split; [done|]. apply no_blank_run_cons; [lia | done].
Qed.

Lemma squeeze_newlines_runs s : no_blank_run (squeeze_newlines s).
Proof. by apply (squeeze_go_runs (length s) s). Qed.

Section Fix.

Variable isword : N -> bool.
Variable islower : N -> bool.
Variable isdigit : N -> bool.

Lemma dehyphenate_go_Forall (P : N -> Prop) s : forall k1 d k2,
  Forall P s -> Forall P (dehyphenate_go isword k1 d k2 s).
Proof.
  induction s as [|c s IH]; intros k1 d k2 H; [done|].
  apply Forall_cons in H as [Hc H]. cbn [dehyphenate_go].
  destruct k1; [|constructor; [done | by apply IH]].
  destruct d; [|by apply IH].
  destruct k2; [|constructor; [done | by apply IH]].
  destruct (match_hyphen isword (c :: s)) as [[[|m] r2]|];
    (constructor; [done | by apply IH]).
Qed.

Lemma join_broken_Forall (P : N -> Prop) lines :
  P SPACE -> Forall (Forall P) lines ->
  Forall (Forall P) (join_broken islower isdigit lines).
Proof.
  intros Hsp. induction lines as [|a|a b l IH1 IH2] using list_ind2; intros H.
  - constructor.
  - apply Forall_cons in H as [Ha _]. simpl.
    constructor; [by apply rstrip_Forall | constructor].
  - apply Forall_cons in H as [Ha H].
    change (join_broken islower isdigit (a :: b :: l))
      with (if joins islower isdigit (rstrip a) (lstrip b)
            then (rstrip a ++ [SPACE] ++ lstrip b) :: join_broken islower isdigit l
            else rstrip a :: join_broken islower isdigit (b :: l)).
    destruct (joins islower isdigit (rstrip a) (lstrip b)).
    + apply Forall_cons in H as [Hb H]. constructor; [|by apply IH1].
      apply Forall_app. split; [by apply rstrip_Forall|].
      apply Forall_app. split; [by constructor | by apply lstrip_Forall].
    + constructor; [by apply rstrip_Forall | by apply IH2].
Qed.

(** *** Hyphenation *)

Lemma word_run_lookup s : forall i, (i < word_run isword s)%nat ->
  exists c, s !! i = Some c /\ isword c = true.
Proof.
  induction s as [|c s IH]; intros i Hi; cbn [word_run] in Hi; [lia|].
  destruct (isword c) eqn:Hc; [|lia].
  destruct i as [|i]; [by exists c|]. apply IH. lia.
Qed.

Lemma word_run_bound s i c :
  s !! i = Some c -> isword c = false -> (word_run isword s <= i)%nat.
Proof.
  intros Hi Hc. destruct (Nat.le_gt_cases (word_run isword s) i) as [|Hlt]; [done|].
  destruct (word_run_lookup s i Hlt) as (c' & Hc' & Hw). congruence.
Qed.

Lemma word_run_head c s : isword c = true -> (1 <= word_run isword (c :: s))%nat.
Proof. intros H. cbn [word_run]. rewrite H. lia. Qed.

Lemma word_run_all w rest :
  Forall (fun d => isword d = true) w ->
  word_run isword (w ++ rest) = (length w + word_run isword rest)%nat.
Proof.
  induction 1 as [|d w Hd _ IH]; [done|].
  cbn [word_run app length]. by rewrite Hd, IH.
Qed.

Lemma match_hyphen_Some s m r2 :
  match_hyphen isword s = Some (m, r2) ->
  (1 <= m <= word_run isword s)%nat /\ s !! m = Some HYPHEN /\ s !! S m = Some NEWLINE
  /\ r2 = word_run isword (drop (S (S m)) s) /\ (1 <= r2)%nat.
Proof.
  unfold match_hyphen. destruct (List.find _ _) as [m'|] eqn:Hf; [|done].
  intros [= <- <-]. apply find_some in Hf as [Hin Hp].
  apply list_elem_of_In, elem_of_reverse, elem_of_seq in Hin.
  apply andb_prop in Hp as [Hp H3]. apply andb_prop in Hp as [H1 H2].
  apply bool_decide_eq_true in H1, H2. apply Nat.leb_le in H3.
  repeat split; (lia || done).
Qed.

Lemma match_hyphen_None s m :
  match_hyphen isword s = None ->
  (1 <= m <= word_run isword s)%nat -> s !! m = Some HYPHEN -> s !! S m = Some NEWLINE ->
  (1 <= word_run isword (drop (S (S m)) s))%nat -> False.
Proof.
  unfold match_hyphen. destruct (List.find _ _) as [m'|] eqn:Hf; [done|].
  intros _ Hm H1 H2 H3.
  pose proof (find_none _ _ Hf m) as Hn. cbv beta in Hn.
  rewrite !bool_decide_eq_true_2 in Hn by done.
  apply Nat.leb_le in H3. rewrite H3 in Hn.
  assert (true && true && true = false) as Hfalse; [|done].
  apply Hn, list_elem_of_In, elem_of_reverse, elem_of_seq. lia.
Qed.

Lemma repairable_of_match s m :
  (1 <= m <= word_run isword s)%nat -> s !! m = Some HYPHEN -> s !! S m = Some NEWLINE ->
  (1 <= word_run isword (drop (S (S m)) s))%nat -> repairable isword s.
Proof.
  intros Hm H1 H2 H3. destruct m as [|m]; [lia|].
  destruct (word_run_lookup s m) as (c & Hc & Hwc); [lia|].
  destruct (drop (S (S (S m))) s) as [|d suf] eqn:Hd; [cbn in H3; lia|].
  assert (isword d = true) as Hwd.
  { cbn [word_run] in H3. destruct (isword d); [done | lia]. }
  exists (take m s), c, d, suf. split; [|done].
  rewrite <- (take_drop m s) at 1. f_equal.
  by rewrite (drop_S s c m Hc), (drop_S s HYPHEN (S m) H1),
    (drop_S s NEWLINE (S (S m)) H2), Hd.
Qed.

Lemma repairable_cons c s : repairable isword s -> repairable isword (c :: s).
Proof. intros (pre & a & b & suf & -> & Ha & Hb). by exists (c :: pre), a, b, suf. Qed.

Lemma dehyphenate_go_unchanged s :
  ~ repairable isword s -> dehyphenate_go isword 0 0 0 s = s.
Proof.
  induction s as [|c s IH]; intros Hn; [done|]. cbn [dehyphenate_go].
  destruct (match_hyphen isword (c :: s)) as [[m r2]|] eqn:Hm.
  - apply match_hyphen_Some in Hm as (Hm & H1 & H2 & -> & H3).
    destruct Hn. by apply (repairable_of_match _ m).
  - f_equal. apply IH. intros H. by apply Hn, repairable_cons.
Qed.

Lemma dehyphenate_go_length s : forall k1 d k2,
  (length (dehyphenate_go isword k1 d k2 s) <= length s)%nat.
Proof.
  induction s as [|c s IH]; intros k1 d k2; [done|]. cbn [dehyphenate_go].
  repeat case_match; cbn [length];
    match goal with
    | |- context [dehyphenate_go isword ?a ?b ?e s] => specialize (IH a b e)
    end; lia.
Qed.

Lemma dehyphenate_go_drops s : forall k1 d k2,
  (k1 + d <= length s)%nat ->
  (length (dehyphenate_go isword k1 d k2 s) + d <= length s)%nat.
Proof.
  induction s as [|c s IH]; intros k1 d k2 Hl; cbn [length] in Hl.
  - cbn. lia.
  - destruct d as [|d]; [rewrite Nat.add_0_r; apply dehyphenate_go_length|].
    cbn [dehyphenate_go]. destruct k1 as [|k1]; cbn [length].
    + specialize (IH 0%nat d k2).
      pose proof (dehyphenate_go_length s 0 0 k2). destruct d; lia.
    + specialize (IH k1 (S d) k2). lia.
Qed.

Lemma dehyphenate_go_shrinks s :
  repairable isword s -> (length (dehyphenate_go isword 0 0 0 s) < length s)%nat.
Proof.
  induction s as [|c s IH]; intros Hr.
  - destruct Hr as (pre & a & b & suf & Heq & _). by destruct pre.
  - cbn [dehyphenate_go].
    destruct (match_hyphen isword (c :: s)) as [[m r2]|] eqn:Hm.
    + apply match_hyphen_Some in Hm as (Hm & H1 & H2 & -> & H3).
      destruct m as [|m]; [lia|].
      apply lookup_lt_Some in H2. cbn [length] in *.
      pose proof (dehyphenate_go_drops s m 2
                    (word_run isword (drop (S (S (S m))) (c :: s)))). lia.
    + destruct Hr as (pre & a & b & suf & Heq & Ha & Hb). destruct pre as [|p pre].
      * injection Heq as -> ->. exfalso.
        apply (match_hyphen_None _ 1 Hm); [|done|done|by apply word_run_head].
        split; [lia | by apply word_run_head].
      * injection Heq as -> ->. cbn [length].
        assert (repairable isword (pre ++ [a; HYPHEN; NEWLINE; b] ++ suf)) as Hr
          by by exists pre, a, b, suf.
        specialize (IH Hr). lia.
Qed.

Lemma dehyphenate_go_copy a : forall s d k2,
  dehyphenate_go isword (length a) d k2 (a ++ s)
  = a ++ dehyphenate_go isword 0 d k2 s.
Proof. induction a as [|c a IH]; intros s d k2; [done|]. cbn. by rewrite IH. Qed.

Lemma dehyphenate_go_copy2 b : forall s,
  dehyphenate_go isword 0 0 (length b) (b ++ s)
  = b ++ dehyphenate_go isword 0 0 0 s.
Proof. induction b as [|c b IH]; intros s; [done|]. cbn. by rewrite IH. Qed.

Section Break.

Variable w2 rest : list N.
Hypothesis hyphen_not_word : isword HYPHEN = false.
Hypothesis w2_word : Forall (fun d => isword d = true) w2.
Hypothesis w2_filled : w2 <> [].
Hypothesis rest_head : forall d r, rest = d :: r -> isword d = false.

Lemma word_run_after : word_run isword (w2 ++ rest) = length w2.
Proof.
  rewrite word_run_all by done.
  destruct rest as [|d r] eqn:Hrest; cbn [word_run]; [lia|].
  rewrite (rest_head d r eq_refl). lia.
Qed.

Lemma match_at_break v m r2 :
  HYPHEN ∉ v ->
  match_hyphen isword (v ++ HYPHEN :: NEWLINE :: w2 ++ rest) = Some (m, r2) ->
  m = length v /\ r2 = length w2.
Proof.
  intros Hv Hm. apply match_hyphen_Some in Hm as (Hm & H1 & _ & -> & _).
  assert ((v ++ HYPHEN :: NEWLINE :: w2 ++ rest) !! length v = Some HYPHEN) as Hat
    by apply list_lookup_middle, eq_refl.
  pose proof (word_run_bound _ _ _ Hat hyphen_not_word) as Hle.
  assert (m = length v) as ->.
  { destruct (decide (m = length v)) as [|Hne]; [done|]. exfalso.
    rewrite lookup_app_l in H1 by lia. apply Hv. by eapply list_elem_of_lookup_2. }
  split; [done|].
  replace (S (S (length v))) with (length (v ++ [HYPHEN; NEWLINE]))
    by (rewrite length_app; cbn; lia).
  replace (v ++ HYPHEN :: NEWLINE :: w2 ++ rest)
    with ((v ++ [HYPHEN; NEWLINE]) ++ w2 ++ rest) by by rewrite <- app_assoc.
  rewrite drop_app_length. apply word_run_after.
Qed.

Lemma dehyphenate_go_break v :
  HYPHEN ∉ v -> (exists c, last v = Some c /\ isword c = true) ->
  dehyphenate_go isword 0 0 0 (v ++ HYPHEN :: NEWLINE :: w2 ++ rest)
  = v ++ w2 ++ dehyphenate_go isword 0 0 0 rest.
Proof.
  induction v as [|p v IH]; intros Hv (c & Hlast & Hc); [done|].
  cbn [app dehyphenate_go].
  destruct (match_hyphen isword (p :: v ++ HYPHEN :: NEWLINE :: w2 ++ rest))
    as [[m r2]|] eqn:Hm.
  - apply (match_at_break (p :: v)) in Hm as [-> ->]; [|done].
    cbn [length]. rewrite dehyphenate_go_copy. cbn [dehyphenate_go].
    by rewrite dehyphenate_go_copy2.
  - destruct v as [|q v].
    + exfalso. cbn in Hlast. injection Hlast as ->.
      apply (match_hyphen_None _ 1 Hm); [|done|done|].
      * split; [lia | by apply word_run_head].
      * change (1 <= word_run isword (w2 ++ rest))%nat. rewrite word_run_after.
        destruct w2; [done | cbn; lia].
    + f_equal. apply IH.
      * intros Hin. apply Hv. by right.
      * exists c. by rewrite last_cons_cons in Hlast.
Qed.

End Break.

(** *** Characters kept *)

Lemma islinebreak_isspace c : islinebreak c = true -> isspace c = true.
Proof.
  unfold islinebreak, isspace.
  rewrite !orb_true_iff, !andb_true_iff, !N.leb_le, !N.eqb_eq. lia.
Qed.

Lemma ink_app a b : ink (a ++ b) = ink a ++ ink b.
Proof. apply filter_app. Qed.

Lemma ink_skip c s : isspace c = true \/ c = HYPHEN -> ink (c :: s) = ink s.
Proof.
  intros H. unfold ink. apply filter_cons_False. intros [H1 H2].
  destruct H; congruence.
Qed.

Lemma ink_blank s : Forall (fun c => isspace c = true) s -> ink s = [].
Proof.
  induction 1 as [|c s Hc _ IH]; [done|]. rewrite ink_skip by by left. done.
Qed.

Lemma ink_lstrip s : ink (lstrip s) = ink s.
Proof.
  destruct (lstrip_suffix s) as (pre & Heq & Hpre).
  rewrite Heq at 2. rewrite ink_app, (ink_blank pre); [done|].
  by apply whitespace_only_Forall.
Qed.

Lemma ink_rstrip s : ink (rstrip s) = ink s.
Proof.
  destruct (rstrip_prefix s) as (suf & Heq & Hsuf).
  rewrite Heq at 2. rewrite ink_app, (ink_blank suf), app_nil_r; [done|].
  by apply whitespace_only_Forall.
Qed.

Lemma ink_strip s : ink (strip s) = ink s.
Proof. unfold strip. by rewrite ink_rstrip, ink_lstrip. Qed.

Lemma ink_replace_crlf s : ink (replace_crlf s) = ink s.
Proof.
  induction s as [|a|a b l IH1 IH2] using list_ind2; [done..|].
  change (replace_crlf (a :: b :: l))
    with (if ((a =? 13) && (b =? 10))%N then NEWLINE :: replace_crlf l
          else a :: replace_crlf (b :: l)).
  destruct ((a =? 13) && (b =? 10))%N eqn:Hab.
  - apply andb_prop in Hab as [->%N.eqb_eq ->%N.eqb_eq].
    rewrite !ink_skip by by left. done.
  - change (ink ([a] ++ replace_crlf (b :: l)) = ink ([a] ++ b :: l)).
    by rewrite !ink_app, IH2.
Qed.

Lemma ink_replace_cr s : ink (replace_cr s) = ink s.
Proof.
  induction s as [|c s IH]; [done|]. unfold replace_cr. rewrite fmap_cons.
  fold (replace_cr s). destruct (N.eqb_spec c 13) as [->|Hc].
  - rewrite !ink_skip by by left. done.
  - change (ink ([c] ++ replace_cr s) = ink ([c] ++ s)). by rewrite !ink_app, IH.
Qed.

Lemma nl_run_head c s : (1 <= nl_run (c :: s))%nat -> c = NEWLINE.
Proof. cbn [nl_run]. destruct (N.eqb_spec c 10); [done | lia]. Qed.

Lemma ink_squeeze_go s : forall k, (k <= nl_run s)%nat -> ink (squeeze_go k s) = ink s.
Proof.
  induction s as [|c s IH]; intros k Hk; [done|]. cbn [squeeze_go].
  destruct k as [|k].
  - destruct (Nat.leb_spec 3 (nl_run (c :: s))) as [Hge|Hlt].
    + rewrite (nl_run_head c s) by lia. rewrite !ink_skip by by left.
      by apply IH.
    + change (ink ([c] ++ squeeze_go 0 s) = ink ([c] ++ s)).
      rewrite !ink_app, IH; [done | lia].
  - rewrite (nl_run_head c s) in * by lia. rewrite ink_skip by by left.
    apply IH. revert Hk. cbn [nl_run]. change (NEWLINE =? 10)%N with true. cbn iota. lia.
Qed.

Lemma ink_join sep parts : ink sep = [] -> ink (join sep parts) = ink (concat parts).
Proof.
  intros Hsep. induction parts as [|p parts IH]; [done|].
  cbn [join concat]. destruct parts as [|q parts].
  - by rewrite app_nil_r.
  - by rewrite !ink_app, Hsep, IH.
Qed.

Lemma ink_splitlines_go s : forall cur,
  ink (concat (splitlines_go cur s)) = ink (reverse cur ++ s).
Proof.
  induction s as [|a|a b l IH1 IH2] using list_ind2; intros cur.
  - cbn [splitlines_go]. destruct cur; [done|]. cbn [concat]. done.
  - cbn [splitlines_go]. destruct (islinebreak a) eqn:Ha.
    + cbn [concat]. rewrite !ink_app, (ink_skip a), app_nil_r; [done|].
      left. by apply islinebreak_isspace.
    + cbn [concat]. by rewrite reverse_cons, <- app_assoc, app_nil_r.
  - change (splitlines_go cur (a :: b :: l))
      with (if islinebreak a
            then reverse cur ::
                 (if ((a =? 13) && (b =? 10))%N then splitlines_go [] l
                  else splitlines_go [] (b :: l))
            else splitlines_go (a :: cur) (b :: l)).
    destruct (islinebreak a) eqn:Ha.
    + cbn [concat]. rewrite !ink_app, (ink_skip a) by (left; by apply islinebreak_isspace).
      f_equal. destruct ((a =? 13) && (b =? 10))%N eqn:Hab.
      * apply andb_prop in Hab as [_ ->%N.eqb_eq].
        rewrite IH1, (ink_skip 10%N) by by left. done.
      * by rewrite IH2.
    + by rewrite IH2, reverse_cons, <- app_assoc.
Qed.

Lemma ink_join_broken lines :
  ink (concat (join_broken islower isdigit lines)) = ink (concat lines).
Proof.
  induction lines as [|a|a b l IH1 IH2] using list_ind2.
  - done.
  - cbn [join_broken concat]. by rewrite !app_nil_r, ink_rstrip.
  - change (join_broken islower isdigit (a :: b :: l))
      with (if joins islower isdigit (rstrip a) (lstrip b)
            then (rstrip a ++ [SPACE] ++ lstrip b) :: join_broken islower isdigit l
            else rstrip a :: join_broken islower isdigit (b :: l)).
    destruct (joins islower isdigit (rstrip a) (lstrip b)).
    + cbn [concat]. rewrite !ink_app, IH1, ink_rstrip, ink_lstrip.
      rewrite (ink_skip SPACE) by by left. by rewrite <- app_assoc.
    + change (concat (rstrip a :: join_broken islower isdigit (b :: l)))
        with (rstrip a ++ concat (join_broken islower isdigit (b :: l))).
      change (concat (a :: b :: l)) with (a ++ concat (b :: l)).
      by rewrite !ink_app, IH2, ink_rstrip.
Qed.

Lemma ink_dehyphenate_go s : forall k1 d k2,
  (forall i c, (k1 <= i < k1 + d)%nat -> s !! i = Some c ->
               isspace c = true \/ c = HYPHEN) ->
  ink (dehyphenate_go isword k1 d k2 s) = ink s.
Proof.
  induction s as [|c s IH]; intros k1 d k2 H; [done|]. cbn [dehyphenate_go].
  assert (forall a b e,
    (forall i c', (a <= i < a + b)%nat -> s !! i = Some c' ->
                  isspace c' = true \/ c' = HYPHEN) ->
    ink (c :: dehyphenate_go isword a b e s) = ink (c :: s)) as Hkeep.
  { intros a b e Hs.
    change (ink ([c] ++ dehyphenate_go isword a b e s) = ink ([c] ++ s)).
    by rewrite !ink_app, IH. }
  destruct k1 as [|k1].
  - destruct d as [|d].
    + destruct k2 as [|k2]; [|apply Hkeep; intros; lia].
      destruct (match_hyphen isword (c :: s)) as [[[|m] r2]|] eqn:Hm;
        [apply Hkeep; intros; lia | | apply Hkeep; intros; lia].
      apply match_hyphen_Some in Hm as (_ & H1 & H2 & _).
      apply Hkeep. intros i c' Hi Hc'.
      destruct (decide (i = m)) as [->|Hne].
      * right. change (s !! m = Some HYPHEN) in H1. congruence.
      * left. assert (i = S m) as -> by lia.
        change (s !! S m = Some NEWLINE) in H2.
        assert (c' = NEWLINE) as -> by congruence. done.
    + rewrite (ink_skip c) by (apply (H 0%nat); [lia | done]).
      apply IH. intros i c' Hi Hc'. apply (H (S i)); [lia | done].
  - apply Hkeep. intros i c' Hi Hc'. apply (H (S i)); [lia | done].
Qed.

Lemma fix_clean text :
  clean_text (_fix_hyphenation_and_broken_lines isword islower isdigit text).
Proof.
  unfold _fix_hyphenation_and_broken_lines. split; [|split].
  - apply strip_nil_or_trimmed.
  - apply strip_Forall, squeeze_go_Forall; [done|].
    apply join_Forall; [by constructor|].
    eapply Forall_impl.
    + apply (join_broken_Forall (fun c => islinebreak c = false)); [done|].
      by apply splitlines_go_pieces.
    + intros ln Hln. eapply Forall_impl; [exact Hln|]. simpl. congruence.
  - apply no_blank_run_strip, squeeze_newlines_runs.
Qed.

Lemma fix_blank text :
  whitespace_only text = true ->
  _fix_hyphenation_and_broken_lines isword islower isdigit text = [].
Proof.
  intros H. unfold _fix_hyphenation_and_broken_lines.
  apply strip_nil_iff, whitespace_only_Forall.
  apply squeeze_go_Forall; [done|]. apply join_Forall; [by constructor|].
  apply join_broken_Forall; [done|]. apply splitlines_go_Forall; [done|].
  apply dehyphenate_go_Forall. by apply whitespace_only_Forall.
Qed.





Lemma replace_crlf_to_crlf s : CR ∉ s -> replace_crlf (to_crlf s) = s.
Proof.
  induction s as [|c s IH]; intros Hs; [done|].
  assert (c <> CR) as Hc by (intros ->; apply Hs; by left).
  assert (CR ∉ s) as Hs' by (intros H; apply Hs; by right).
  cbn [to_crlf]. destruct (N.eqb_spec c 10) as [->|Hnl].
  - change (replace_crlf (CR :: NEWLINE :: to_crlf s))
      with (NEWLINE :: replace_crlf (to_crlf s)). by rewrite IH.
  - specialize (IH Hs'). destruct (to_crlf s) as [|d t] eqn:Ht.
    + cbn in IH. by subst s.
    + change (replace_crlf (c :: d :: t))
        with (if ((c =? 13) && (d =? 10))%N then NEWLINE :: replace_crlf t
              else c :: replace_crlf (d :: t)).
      destruct (N.eqb_spec c 13) as [->|_]; [done|]. cbn [andb]. by rewrite IH.
Qed.

Lemma replace_crlf_id s : NEWLINE ∉ s -> replace_crlf s = s.
Proof.
  induction s as [|a|a b l IH1 IH2] using list_ind2; intros Hs; [done..|].
  change (replace_crlf (a :: b :: l))
    with (if ((a =? 13) && (b =? 10))%N then NEWLINE :: replace_crlf l
          else a :: replace_crlf (b :: l)).
  destruct (N.eqb_spec b 10) as [->|Hb].
  - destruct Hs. right. by left.
  - rewrite andb_false_r, IH2; [done|]. intros H. apply Hs. by right.
Qed.

Lemma replace_cr_id s : CR ∉ s -> replace_cr s = s.
Proof.
  induction s as [|c s IH]; intros Hs; [done|].
  unfold replace_cr. rewrite fmap_cons. fold (replace_cr s).
  destruct (N.eqb_spec c 13) as [->|_]; [destruct Hs; by left|].
  rewrite IH; [done|]. intros H. apply Hs. by right.
Qed.

Lemma to_cr_no_newline s : NEWLINE ∉ to_cr s.
Proof.
  unfold to_cr. intros (c & Hc & Hin)%list_elem_of_fmap.
  destruct (c =? 10)%N eqn:Hne; [discriminate|].
  subst c. by vm_compute in Hne.
Qed.

Lemma replace_crlf_no_cr s : CR ∉ s -> replace_crlf s = s.
Proof.
  induction s as [|a|a b l IH1 IH2] using list_ind2; intros Hs; [done..|].
  change (replace_crlf (a :: b :: l))
    with (if ((a =? 13) && (b =? 10))%N then NEWLINE :: replace_crlf l
          else a :: replace_crlf (b :: l)).
  destruct (N.eqb_spec a 13) as [->|Ha].
  - destruct Hs. by left.
  - cbn [andb]. rewrite IH2; [done|]. intros H. apply Hs. by right.
Qed.

Lemma replace_cr_to_cr s : CR ∉ s -> replace_cr (to_cr s) = s.
Proof.
  induction s as [|c s IH]; intros Hs; [done|].
  assert (c <> CR) as Hc by (intros ->; apply Hs; by left).
  assert (CR ∉ s) as Hs' by (intros H; apply Hs; by right).
  unfold replace_cr, to_cr. rewrite !fmap_cons.
  fold (to_cr s). fold (replace_cr (to_cr s)). rewrite IH by done. f_equal.
  destruct (N.eqb_spec c 10) as [->|Hnl]; [done|].
  by destruct (N.eqb_spec c 13).
Qed.

Lemma newlines_normalized s :
  CR ∉ s ->
  replace_cr (replace_crlf s) = s
  /\ replace_cr (replace_crlf (to_crlf s)) = s
  /\ replace_cr (replace_crlf (to_cr s)) = s.
Proof.
  intros Hs. split; [|split].
  - by rewrite replace_crlf_no_cr, replace_cr_id.
  - by rewrite replace_crlf_to_crlf, replace_cr_id.
  - rewrite replace_crlf_id by apply to_cr_no_newline. by apply replace_cr_to_cr.
Qed.

Lemma clean_pdf_page_eq p :
  clean_pdf_page p = strip (squeeze_newlines (replace_cr (replace_crlf p))).
Proof. by destruct p. Qed.

Lemma newlines_blank s :
  Forall (fun c => isspace c = true) s ->
  Forall (fun c => isspace c = true) (squeeze_newlines (replace_cr (replace_crlf s))).
Proof.
  intros H. apply squeeze_go_Forall; [done|]. apply replace_cr_Forall; [done|].
  by apply replace_crlf_Forall.
Qed.

Lemma extract_txt_blank raw :
  whitespace_only raw = true ->
  extract_text_from_txt isword islower isdigit raw = [].
Proof.
  intros H. apply fix_blank, whitespace_only_Forall, newlines_blank.
  by apply whitespace_only_Forall.
Qed.

Lemma extract_pdf_blank text_pages :
  Forall (fun p => whitespace_only p = true) text_pages ->
  extract_text_from_pdf isword islower isdigit text_pages = [].
Proof.
  intros H. apply fix_blank, whitespace_only_Forall.
  unfold Normalizer._remove_repeated_headers.
  apply join_Forall; [by repeat constructor|].
  do 3 apply Forall_fmap. eapply Forall_impl; [exact H|].
  intros p Hp. cbn.
  assert (clean_pdf_page p = []) as ->; [|by constructor].
  rewrite clean_pdf_page_eq. apply strip_nil_iff, whitespace_only_Forall, newlines_blank.
  by apply whitespace_only_Forall.
Qed.

(** X13: whatever the input, the text that the clean-up returns, and so
    the text extracted from a text file or from a PDF, is empty or
    starts and ends with a character that is not whitespace; its only
    line boundaries are newlines; and it never holds three newlines in a
    row. *)
Theorem clean_up_normal_form (text : list N) (text_pages : list (list N)) :
  clean_text (_fix_hyphenation_and_broken_lines isword islower isdigit text)
  /\ clean_text (extract_text_from_txt isword islower isdigit text)
  /\ clean_text (extract_text_from_pdf isword islower isdigit text_pages).
Proof. split; [|split]; apply fix_clean. Qed.

(** X14: a text that is empty or whitespace only is cleaned to the empty
    string, and so is extracted as the empty string from a text file; a
    PDF whose pages are all empty or whitespace only is extracted as the
    empty string. *)
Theorem extract_blank (text : list N) (text_pages : list (list N)) :
  whitespace_only text = true ->
  Forall (fun p => whitespace_only p = true) text_pages ->
  _fix_hyphenation_and_broken_lines isword islower isdigit text = []
  /\ extract_text_from_txt isword islower isdigit text = []
  /\ extract_text_from_pdf isword islower isdigit text_pages = [].
Proof.
  intros Ht Hp. split; [|split].
  - by apply fix_blank.
  - by apply extract_txt_blank.
  - by apply extract_pdf_blank.
Qed.

(** X15: removing hyphenation leaves a text as it is exactly when the
    text has no place where a hyphen and a newline stand between two
    word characters; and whenever the text has such a place, the result
    is shorter than the text. *)
Theorem dehyphenate_fixpoint (s : list N) :
  (dehyphenate isword s = s <-> ~ repairable isword s)
  /\ (repairable isword s -> (length (dehyphenate isword s) < length s)%nat).
Proof.
  unfold dehyphenate. split; [split|].
  - intros Heq Hr. apply dehyphenate_go_shrinks in Hr. rewrite Heq in Hr. lia.
  - apply dehyphenate_go_unchanged.
  - apply dehyphenate_go_shrinks.
Qed.

(** X16: the first hyphen of a text, when a word character stands
    before it and a newline and a word after it, is removed with the
    newline; the text before it is kept, the word after it is kept and
    is not examined again, and the removal goes on in what follows that
    word. The hyphen is no word character, as in Unicode. *)
Theorem dehyphenate_first_break (u : list N) (c : N) (w2 rest : list N) :
  isword HYPHEN = false ->
  HYPHEN ∉ u ->
  isword c = true ->
  w2 <> [] ->
  Forall (fun d => isword d = true) w2 ->
  (forall d r, rest = d :: r -> isword d = false) ->
  dehyphenate isword (u ++ [c; HYPHEN; NEWLINE] ++ w2 ++ rest)
  = u ++ [c] ++ w2 ++ dehyphenate isword rest.
Proof.
  intros Hh Hu Hc Hw2 Hall Hrest. unfold dehyphenate.
  replace (u ++ [c; HYPHEN; NEWLINE] ++ w2 ++ rest)
    with ((u ++ [c]) ++ HYPHEN :: NEWLINE :: w2 ++ rest) by by rewrite <- app_assoc.
  rewrite (dehyphenate_go_break w2 rest Hh Hall Hw2 Hrest).
  - by rewrite <- app_assoc.
  - intros [Hin|Hin]%elem_of_app; [done|].
    apply list_elem_of_singleton in Hin. congruence.
  - exists c. by rewrite last_snoc.
Qed.

(** X17: the clean-up, and the extraction from a text file, add or
    remove nothing but whitespace and hyphens: the characters that are
    neither come out as they went in, in the same order. *)
Theorem clean_up_keeps_ink (text : list N) :
  ink (_fix_hyphenation_and_broken_lines isword islower isdigit text) = ink text
  /\ ink (extract_text_from_txt isword islower isdigit text) = ink text.
Proof.
  assert (forall t,
    ink (_fix_hyphenation_and_broken_lines isword islower isdigit t) = ink t) as Hfix.
  { intros t. unfold _fix_hyphenation_and_broken_lines, squeeze_newlines, splitlines.
    rewrite ink_strip, ink_squeeze_go by lia.
    rewrite ink_join by done.
    rewrite ink_join_broken, ink_splitlines_go.
    apply ink_dehyphenate_go. intros; lia. }
  split; [apply Hfix|].
  unfold extract_text_from_txt, squeeze_newlines.
  rewrite Hfix, ink_squeeze_go by lia. by rewrite ink_replace_cr, ink_replace_crlf.
Qed.

(** X18: the convention for line ends does not matter: a text whose
    line ends are written as carriage return and newline, or as carriage
    return only, is extracted from a text file, and cleaned as a PDF
    page, to the same result as the text with newlines. *)
Theorem line_endings_equivalent (s : list N) :
  CR ∉ s ->
  extract_text_from_txt isword islower isdigit (to_crlf s)
    = extract_text_from_txt isword islower isdigit s
  /\ extract_text_from_txt isword islower isdigit (to_cr s)
    = extract_text_from_txt isword islower isdigit s
  /\ clean_pdf_page (to_crlf s) = clean_pdf_page s
  /\ clean_pdf_page (to_cr s) = clean_pdf_page s.
Proof.
  intros Hs. destruct (newlines_normalized s Hs) as (H0 & H1 & H2).
  unfold extract_text_from_txt. rewrite !clean_pdf_page_eq.
  by rewrite H0, H1, H2.
Qed.


End Fix.

Lemma extract_blank_witness :
  _fix_hyphenation_and_broken_lines Retriever.ascii_isword ascii_islower ascii_isdigit
    [32; 10]%N = []
  /\ extract_text_from_txt Retriever.ascii_isword ascii_islower ascii_isdigit
       [32; 10]%N = []
  /\ extract_text_from_pdf Retriever.ascii_isword ascii_islower ascii_isdigit
       [[]; [32; 13; 10]%N] = [].
Proof.
  apply (extract_blank Retriever.ascii_isword ascii_islower ascii_isdigit).
  - reflexivity.
  - repeat constructor.
Defined.

Lemma dehyphenate_fixpoint_witness :
  (length (dehyphenate Retriever.ascii_isword [101; 120; 45; 10; 97]%N)
   < length [101; 120; 45; 10; 97]%N)%nat.
Proof.
  apply (dehyphenate_fixpoint Retriever.ascii_isword [101; 120; 45; 10; 97]%N).
  exists [101%N], 120%N, 97%N, []. repeat split; reflexivity.
Defined.

Lemma dehyphenate_first_break_witness :
  dehyphenate Retriever.ascii_isword (lit "an exam-" ++ [NEWLINE] ++ lit "ple-" ++ [NEWLINE] ++ lit "x")
  = lit "an example-" ++ [NEWLINE] ++ lit "x".
Proof.
  apply (dehyphenate_first_break Retriever.ascii_isword
           (lit "an exa") 109%N (lit "ple") (HYPHEN :: NEWLINE :: lit "x")).
  - reflexivity.
  - vm_compute. intros H. repeat (apply elem_of_cons in H as [H|H]; [discriminate|]).
    by apply elem_of_nil in H.
  - reflexivity.
  - discriminate.
  - repeat constructor.
  - intros d r [= <- _]. reflexivity.
Defined.

Lemma line_endings_equivalent_witness :
  extract_text_from_txt Retriever.ascii_isword ascii_islower ascii_isdigit
    [97; 13; 10; 98]%N
  = extract_text_from_txt Retriever.ascii_isword ascii_islower ascii_isdigit
    [97; 10; 98]%N.
Proof.
  apply (line_endings_equivalent Retriever.ascii_isword ascii_islower ascii_isdigit
           [97; 10; 98]%N).
  intros H. repeat (apply elem_of_cons in H as [H|H]; [discriminate|]).
  by apply elem_of_nil in H.
Defined.


End CleanerFacts.

(** ** From files to the index *)

Module IngestFacts.
Import PyStr Spec SpecMore IndexBuilder.

Section Ingest.

Variable config : Chunker.Config.
Variable TOKEN_ENCODER : option (list N -> option (list N)).
Variable isword : N -> bool.
Variable islower : N -> bool.
Variable isdigit : N -> bool.
Variable vec : Type.
Variable dim : vec -> nat.
Variable normalize_L2 : vec -> vec.
Variable embed_texts : list (list N) -> outcome (list vec).
Variable is_pdf : list N -> bool.
Variable name : list N -> list N.
Variable read_pages : list N -> outcome (list (list N)).
Variable read : list N -> outcome (list N).

Lemma load_docs_blank file_paths :
  Forall (blank_file is_pdf read_pages read) file_paths ->
  exists docs,
    Ingest.load_docs isword islower isdigit is_pdf name read_pages read file_paths
      = Done docs
    /\ Forall (fun d => whitespace_only d.2 = true) docs.
Proof.
  induction 1 as [|p rest Hp _ (docs & Hdocs & Hall)]; [by exists []|].
  exists ((name p, []) :: docs). split; [|by constructor].
  cbn [Ingest.load_docs]. unfold blank_file in Hp. destruct (is_pdf p).
  - destruct Hp as (text_pages & -> & Hblank). cbn.
    rewrite (CleanerFacts.extract_pdf_blank _ _ _ _ Hblank). by rewrite Hdocs.
  - destruct Hp as (raw & -> & Hblank). cbn.
    rewrite (CleanerFacts.extract_txt_blank _ _ _ _ Hblank). by rewrite Hdocs.
Qed.

(** X20: when every uploaded file can be read and holds no text (a text
    file that is empty or whitespace only, a PDF whose pages are), and
    so when no file is uploaded, indexing raises [RuntimeError] and the
    embedding client is not called. *)
Theorem index_documents_blank_files (file_paths : list (list N)) :
  0 < Chunker.CHUNK_SIZE config ->
  Forall (blank_file is_pdf read_pages read) file_paths ->
  Ingest.index_documents config TOKEN_ENCODER isword islower isdigit vec dim
    normalize_L2 embed_texts is_pdf name read_pages read file_paths
  = Raise RuntimeError.
Proof.
  intros Hsize Hall. unfold Ingest.index_documents.
  destruct (load_docs_blank file_paths Hall) as (docs & -> & Hdocs). cbn.
  unfold index_documents.
  by rewrite (IndexBuilderMore.collect_blank config TOKEN_ENCODER docs ([], []) Hsize Hdocs).
Qed.

End Ingest.

Lemma index_documents_blank_files_witness :
  Ingest.index_documents Demo.config None Retriever.ascii_isword
    Cleaner.ascii_islower Cleaner.ascii_isdigit (list Z) length
    Demo.normalize_L2 Demo.embed_texts Demo.is_pdf id Demo.read_pages Demo.read
    [Demo.blank_pdf; Demo.blank_txt]
  = Raise RuntimeError.
Proof.
  apply (index_documents_blank_files Demo.config None Retriever.ascii_isword
           Cleaner.ascii_islower Cleaner.ascii_isdigit (list Z) length
           Demo.normalize_L2 Demo.embed_texts Demo.is_pdf id Demo.read_pages Demo.read).
  - reflexivity.
  - constructor; [|constructor; [|constructor]].
    + exists [[]; [32; 13; 10]%N]. split; [reflexivity | repeat constructor].
    + exists [10; 32; 10]%N. split; reflexivity.
Defined.

End IngestFacts.

(** ** The system prompt *)

Module FormatterFacts.
Import PyStr Spec SpecMore Retriever Formatter.

Lemma lit_inj s1 s2 : lit s1 = lit s2 -> s1 = s2.
Proof.
  unfold lit. intros H.
  assert (list_ascii_of_string s1 = list_ascii_of_string s2) as Heq.
  { revert H. generalize (list_ascii_of_string s1) (list_ascii_of_string s2).
    intros l1. induction l1 as [|a l1 IH]; intros [|b l2] H; try done.
    injection H as Hab H. f_equal; [|by apply IH].
    by rewrite <- (ascii_N_embedding a), <- (ascii_N_embedding b), Hab. }
  by rewrite <- (string_of_list_ascii_of_string s1),
    <- (string_of_list_ascii_of_string s2), Heq.
Qed.

Lemma to_int_printable n :
  Z.to_int n <> Decimal.Pos Decimal.Nil /\ Z.to_int n <> Decimal.Neg Decimal.Nil.
Proof.
  destruct n as [|p|p]; cbn; split; try done;
    intros [= H]; by apply DecimalPos.Unsigned.to_uint_nonnil in H.
Qed.

Lemma str_of_int_inj a b : str_of_int a = str_of_int b -> a = b.
Proof.
  unfold str_of_int. intros H%lit_inj.
  apply DecimalZ.to_int_inj.
  destruct (to_int_printable a) as [Ha1 Ha2], (to_int_printable b) as [Hb1 Hb2].
  pose proof (DecimalString.NilZero.isi _ Ha1 Ha2) as Ha.
  pose proof (DecimalString.NilZero.isi _ Hb1 Hb2) as Hb.
  rewrite H in Ha. congruence.
Qed.

Lemma string_of_uint_numeric d :
  Forall numeric (lit (DecimalString.NilEmpty.string_of_uint d)).
Proof.
  induction d; cbn; constructor; try done; right; cbn; lia.
Qed.

Lemma str_of_int_numeric n : Forall numeric (str_of_int n).
Proof.
  unfold str_of_int.
  assert (forall d, Forall numeric (lit (DecimalString.NilZero.string_of_uint d))) as Hu.
  { intros d. destruct d; try apply string_of_uint_numeric.
    constructor; [right; cbn; lia | constructor]. }
  destruct (Z.to_int n) as [d|d]; cbn [DecimalString.NilZero.string_of_int].
  - apply Hu.
  - constructor; [by left | apply Hu].
Qed.

Lemma split_at_last {A} (x : A) a1 b1 a2 b2 :
  x ∉ b1 -> x ∉ b2 -> a1 ++ x :: b1 = a2 ++ x :: b2 -> a1 = a2 /\ b1 = b2.
Proof.
  intros H1 H2. revert a2.
  induction a1 as [|y a1 IH]; intros [|z a2] Heq; cbn in Heq.
  - by injection Heq.
  - injection Heq as -> ->. destruct H1. apply elem_of_app. right. by left.
  - injection Heq as -> <-. destruct H2. apply elem_of_app. right. by left.
  - injection Heq as -> Heq. destruct (IH _ Heq) as [-> ->]. done.
Qed.

Lemma label_tail_no_hash n : 35%N ∉ str_of_int n ++ lit "]".
Proof.
  intros [Hin|Hin]%elem_of_app.
  - pose proof (str_of_int_numeric n) as Hnum. rewrite Forall_forall in Hnum.
    specialize (Hnum _ Hin). unfold numeric in Hnum. lia.
  - apply list_elem_of_singleton in Hin. discriminate.
Qed.

(** X21: a citation label identifies its chunk: two retrieved passages
    have the same label exactly when they have the same document name
    and the same chunk number, whatever characters the name holds. *)
Theorem label_identifies_chunk (r1 r2 : Result) :
  label r1 = label r2 <-> key_of r1 = key_of r2.
Proof.
  unfold label, key_of. split.
  - intros Heq. injection Heq as Heq.
    apply split_at_last in Heq as [Hdoc Hnum]; [|apply label_tail_no_hash..].
    apply app_inv_tail in Hnum. apply str_of_int_inj in Hnum. congruence.
  - intros [= -> ->]. done.
Qed.

Lemma join_length_le sep (parts : list (list N)) :
  (length (join sep parts) <= sum_list_with (fun p => length p + length sep) parts)%nat.
Proof.
  induction parts as [|p parts IH]; [done|]. cbn [join sum_list_with].
  destruct parts as [|q parts]; [lia|]. rewrite !length_app. lia.
Qed.

Lemma snippet_length max_chars r :
  0 <= max_chars -> (length (snippet max_chars r) <= Z.to_nat max_chars + 16)%nat.
Proof.
  intros Hmax. unfold snippet, Py.prefix.
  destruct (Z.ltb_spec max_chars (Z.of_nat (length (strip (r_text r))))) as [Hlt|Hge].
  - destruct (Z.ltb_spec max_chars 0) as [|_]; [lia|].
    rewrite length_app, length_take.
    change (length (lit " ... (truncated)")) with 16%nat. lia.
  - lia.
Qed.

(** X22: with a limit that is not negative, the prompt is never longer
    than the prompt without context plus, for every retrieved passage,
    the length of its label, the limit, and 24 characters. *)
Theorem build_system_prompt_size (retrieved : list Result) (max_chars : Z) :
  0 <= max_chars ->
  (length (build_system_prompt retrieved max_chars)
   <= length (build_system_prompt [] max_chars)
      + sum_list_with (fun r => length (label r) + Z.to_nat max_chars + 24) retrieved)%nat.
Proof.
  intros Hmax. unfold build_system_prompt. rewrite !length_app.
  destruct retrieved as [|r0 rest]; [cbn [sum_list_with]; lia|].
  set (rs := r0 :: rest).
  pose proof (join_length_le ([NEWLINE; NEWLINE] ++ lit "---" ++ [NEWLINE; NEWLINE])
                (part max_chars <$> rs)) as Hjoin.
  change (length ([NEWLINE; NEWLINE] ++ lit "---" ++ [NEWLINE; NEWLINE]))
    with 7%nat in Hjoin.
  assert (sum_list_with (fun p => length p + 7) (part max_chars <$> rs)
          <= sum_list_with (fun r => length (label r) + Z.to_nat max_chars + 24) rs)%nat
    as Hsum.
  { clear Hjoin. induction rs as [|r rs IH]; [done|].
    rewrite fmap_cons. cbn [sum_list_with]. unfold part at 1.
    rewrite !length_app. pose proof (snippet_length max_chars r Hmax).
    change (length [NEWLINE]) with 1%nat. lia. }
  lia.
Qed.

Lemma build_system_prompt_size_witness :
  let retrieved := result_of (1 # 2) <$> Demo.metadata in
  (length (build_system_prompt retrieved 10)
   <= length (build_system_prompt [] 10)
      + sum_list_with (fun r => length (label r) + Z.to_nat 10 + 24) retrieved)%nat.
Proof. apply build_system_prompt_size. lia. Defined.

End FormatterFacts.
